(** * Collage export pipeline and face-centring cropper

    A shallow embedding of the canvas export code of the grid templates
    ([src/components/33.tsx], [src/components/75.tsx]) and of the
    face-centring cropper ([centerCropFace]).

    JavaScript numbers are modelled by exact rationals ([Q]); integer
    quantities (grid coordinates, natural image sizes, rounded pixel
    coordinates) by [Z].  Equality on rationals is [Qeq], written [==].
    Rounding error, infinities and NaN are outside the model: a quotient
    is the exact one, and the statements that depend on a quotient assume
    its divisor positive.  React state objects used as dictionaries are
    finite maps; promises that reject and calls that throw are
    [Completion]s. *)

From Stdlib Require Import ZArith QArith Qround Lia Lqa List Bool Permutation Sorted.
From stdpp Require Import base gmap strings list pretty.
Import ListNotations.

Local Open Scope Z_scope.
Local Open Scope Q_scope.

(** ** Numbers *)

(** [Math.round]: nearest integer, halves rounded towards plus infinity. *)
Definition Math_round (x : Q) : Z := Qfloor (x + (1 # 2)).

(** [Math.min] and [Math.max] on finite numbers. *)
Definition Math_min (a b : Q) : Q := if Qlt_le_dec b a then b else a.
Definition Math_max (a b : Q) : Q := if Qlt_le_dec a b then b else a.

(** ** Canvas *)

(** A decoded image: its natural size and the URL it was loaded from. *)
Record HTMLImageElement := {
  width : Z;
  height : Z;
  src : string;
}.

(** Source sub-rectangle of a [drawImage] call. *)
Record SrcRect := { sx : Q; sy : Q; sw : Q; sh : Q }.

(** Destination rectangle of a draw call, in canvas units. *)
Record Rect := { dx : Q; dy : Q; dw : Q; dh : Q }.

(** The drawing calls the code issues on a 2D context. *)
Inductive CanvasOp :=
| FillRect (fillStyle : string) (dst : Rect)
| DrawImage (img : HTMLImageElement) (s : SrcRect) (dst : Rect).

(** A canvas: its pixel size and the calls issued on its context so far,
    oldest first.  A fresh canvas has no calls. *)
Record Canvas := {
  cwidth : Z;
  cheight : Z;
  ops : list CanvasOp;
}.

Definition createCanvas (w h : Z) : Canvas :=
  {| cwidth := w; cheight := h; ops := [] |}.

Definition issue (op : CanvasOp) (cv : Canvas) : Canvas :=
  {| cwidth := cwidth cv; cheight := cheight cv; ops := ops cv ++ [op] |}.

(** The extent of a destination rectangle on one axis.  A negative size
    flips the image, so the extent runs from the smaller to the larger
    corner. *)
Definition span_lo (pos size : Q) : Q := Math_min pos (pos + size).
Definition span_hi (pos size : Q) : Q := Math_max pos (pos + size).

(** Pixel [(px, py)] is the unit square with that top-left corner; a draw
    call can change it only when the square meets the call's extent. *)
Definition touches (dst : Rect) (px py : Z) : bool :=
  (if Qlt_le_dec (span_lo (dx dst) (dw dst)) (inject_Z (px + 1)) then true else false)
  && (if Qlt_le_dec (inject_Z px) (span_hi (dx dst) (dw dst)) then true else false)
  && (if Qlt_le_dec (span_lo (dy dst) (dh dst)) (inject_Z (py + 1)) then true else false)
  && (if Qlt_le_dec (inject_Z py) (span_hi (dy dst) (dh dst)) then true else false).

Definition op_dst (op : CanvasOp) : Rect :=
  match op with
  | FillRect _ dst => dst
  | DrawImage _ _ dst => dst
  end.

(** Pixel values.  What colour a call deposits at a pixel it touches is
    the browser's business (resampling, anti-aliasing, compositing); the
    model keeps it abstract and fixes only what a call leaves alone. *)
Section Raster.

Variable Color : Type.
(** The colour of a fresh canvas: transparent black. *)
Variable transparent : Color.
(** The colour a call deposits at a pixel, composited over what is
    there. *)
Variable deposit : CanvasOp -> Z -> Z -> Color -> Color.

Definition paint (px py : Z) (under : Color) (op : CanvasOp) : Color :=
  if touches (op_dst op) px py then deposit op px py under else under.

Definition pixels_of (l : list CanvasOp) (px py : Z) : Color :=
  fold_left (paint px py) l transparent.

Definition pixel_at (cv : Canvas) (px py : Z) : Color :=
  pixels_of (ops cv) px py.

End Raster.

(** ** Cover-fit drawer ([drawImageCover]) *)

(** The source rectangle of the cover crop.  The two ratios are exact
    quotients: the definition stands for the code on an image of positive
    natural size and a destination of positive height (for a height of 0
    the code's ratio is infinite). *)
Definition cover_src (img : HTMLImageElement) (dw dh : Q) : SrcRect :=
  let iw := inject_Z (width img) in
  let ih := inject_Z (height img) in
  let sRatio := iw / ih in
  let dRatio := dw / dh in
  if Qlt_le_dec dRatio sRatio then
    let sh := ih in
    let sw := sh * dRatio in
    {| sx := (iw - sw) / 2; sy := 0; sw := sw; sh := sh |}
  else
    let sw := iw in
    let sh := sw / dRatio in
    {| sx := 0; sy := (ih - sh) / 2; sw := sw; sh := sh |}.

Definition drawImageCover (ctx : Canvas) (img : HTMLImageElement)
    (dx dy dw dh : Q) : Canvas :=
  issue (DrawImage img (cover_src img dw dh)
           {| dx := dx; dy := dy; dw := dw; dh := dh |}) ctx.

(** ** Grid compositor ([drawKey]) *)

(** [drawKey] closes over the grid size, the cell size and the gap of its
    template; they are parameters here.  The gap contribution of each side
    of the cell at row [r], column [c] spanning [rs] rows and [cs]
    columns: *)
Definition leftGap (gap : Q) (c : Z) : Q :=
  if Z.eqb c 0 then 0 else gap / 2.
Definition rightGap (cols : Z) (gap : Q) (c cs : Z) : Q :=
  if Z.eqb (c + cs) cols then 0 else gap / 2.
Definition topGap (gap : Q) (r : Z) : Q :=
  if Z.eqb r 0 then 0 else gap / 2.
Definition bottomGap (rows : Z) (gap : Q) (r rs : Z) : Q :=
  if Z.eqb (r + rs) rows then 0 else gap / 2.

(** The rounded destination rectangle [dx, dy, dw, dh] of [drawKey]. *)
Record CellRect := { cx : Z; cy : Z; cw : Z; ch : Z }.

Definition drawKey_rect (cols rows : Z) (base gap : Q) (r c rs cs : Z) : CellRect :=
  {| cx := Math_round (inject_Z c * base + leftGap gap c);
     cy := Math_round (inject_Z r * base + topGap gap r);
     cw := Math_round (inject_Z cs * base - (leftGap gap c + rightGap cols gap c cs));
     ch := Math_round (inject_Z rs * base - (topGap gap r + bottomGap rows gap r rs)) |}.

Definition rect_of (cr : CellRect) : Rect :=
  {| dx := inject_Z (cx cr); dy := inject_Z (cy cr);
     dw := inject_Z (cw cr); dh := inject_Z (ch cr) |}.

(** A placement on the logical grid, as the arguments of one [drawKey]
    call. *)
Record CellPlacement := {
  key : string;
  row : Z;
  col : Z;
  rowSpan : Z;
  colSpan : Z;
}.

Definition placement_rect (cols rows : Z) (base gap : Q) (p : CellPlacement) : CellRect :=
  drawKey_rect cols rows base gap (row p) (col p) (rowSpan p) (colSpan p).

(** Validity of a layout: every placement inside the grid, and the grid
    footprints of any two placements apart. *)
Definition in_bounds (cols rows : Z) (p : CellPlacement) : bool :=
  (0 <=? row p)%Z && (0 <=? col p)%Z && (1 <=? rowSpan p)%Z && (1 <=? colSpan p)%Z
  && (row p + rowSpan p <=? rows)%Z && (col p + colSpan p <=? cols)%Z.

Definition footprints_apart (p q : CellPlacement) : bool :=
  (col p + colSpan p <=? col q)%Z || (col q + colSpan q <=? col p)%Z
  || (row p + rowSpan p <=? row q)%Z || (row q + rowSpan q <=? row p)%Z.

Fixpoint pairwise_apart (l : list CellPlacement) : bool :=
  match l with
  | [] => true
  | p :: rest => forallb (footprints_apart p) rest && pairwise_apart rest
  end.

Definition valid_layout (cols rows : Z) (l : list CellPlacement) : bool :=
  forallb (in_bounds cols rows) l && pairwise_apart l.

(** Two placements side by side (the second starts in the column where the
    first ends, and they share a row), or one above the other. *)
Definition beside (p q : CellPlacement) : bool :=
  (col p + colSpan p =? col q)%Z
  && (row p <? row q + rowSpan q)%Z && (row q <? row p + rowSpan p)%Z.

Definition above (p q : CellPlacement) : bool :=
  (row p + rowSpan p =? row q)%Z
  && (col p <? col q + colSpan q)%Z && (col q <? col p + colSpan p)%Z.

(** Two destination rectangles share a pixel. *)
Definition share_pixel (a b : Rect) : Prop :=
  exists px py : Z, touches a px py = true /\ touches b px py = true.

(** ** Cell store: component state and its handlers

    The state hooks and refs of the template component
    ([33.tsx]; [75.tsx] has the same handlers), with the handlers as
    state transformers. *)

Record Offset := { x : Q; y : Q }.

Record DragInfo := {
  drag_key : option string;
  startX : Q;
  startY : Q;
  startOffsetX : Q;
  startOffsetY : Q;
  elW : Q;
  elH : Q;
  moved : bool;
}.

Record PendingOffset := { pending_key : option string; pending_x : Q; pending_y : Q }.

(** An uploaded file: its MIME type and the data URL a [FileReader]
    produces for it. *)
Record File := { type : string; dataURL : string }.

Record GridState := {
  cellImages : gmap string string;
  cellOffsets : gmap string Offset;
  selectedCell : option string;
  dragRef : option DragInfo;
  pendingOffsetRef : option PendingOffset;
  (** [true] while a frame callback is scheduled (the ref holds its id) *)
  rafIdRef : bool;
  (** window listener sets ([onMove], [onUp]) currently registered *)
  listeners : nat;
  (** [setTimeout] callbacks of [onUp] not yet run *)
  timeouts : nat;
  (** [FileReader] loads in flight: the cell selected at the time, the file *)
  readers : list (string * File);
}.

Definition initialState : GridState :=
  {| cellImages := ∅; cellOffsets := ∅; selectedCell := None; dragRef := None;
     pendingOffsetRef := None; rafIdRef := false; listeners := 0; timeouts := 0;
     readers := [] |}.

(** JavaScript truthiness of a dictionary read of a string: absent
    ([undefined]) and the empty string are falsy. *)
Definition truthy (v : option string) : bool :=
  match v with
  | Some s => negb (String.eqb s "")
  | None => false
  end.

(** A property key computed from a possibly-[null] value. *)
Definition property_key (k : option string) : string :=
  match k with
  | Some s => s
  | None => "null"
  end.

Definition handleCellClick (cellKey : string) (st : GridState) : GridState :=
  {| cellImages := cellImages st; cellOffsets := cellOffsets st;
     selectedCell := Some cellKey; dragRef := dragRef st;
     pendingOffsetRef := pendingOffsetRef st; rafIdRef := rafIdRef st;
     listeners := listeners st; timeouts := timeouts st; readers := readers st |}.

(** [handleImageUpload]: the synchronous part starts a read and clears the
    selection; the read completes later in [reader_onload]. *)
Definition handleImageUpload (file : option File) (st : GridState) : GridState :=
  match file, selectedCell st with
  | Some f, Some sel =>
    if negb (truthy (Some sel)) then st
    else if negb (String.prefix "image/" (type f)) then st
    else
      {| cellImages := cellImages st; cellOffsets := cellOffsets st;
         selectedCell := None; dragRef := dragRef st;
         pendingOffsetRef := pendingOffsetRef st; rafIdRef := rafIdRef st;
         listeners := listeners st; timeouts := timeouts st;
         readers := readers st ++ [(sel, f)] |}
  | _, _ => st
  end.

(** [setCellImages(prev => ({ ...prev, [selectedCell]: imageUrl }))] *)
Definition reader_onload (selectedCell_ : string) (f : File) (st : GridState) : GridState :=
  {| cellImages := <[selectedCell_ := dataURL f]> (cellImages st);
     cellOffsets := cellOffsets st;
     selectedCell := selectedCell st; dragRef := dragRef st;
     pendingOffsetRef := pendingOffsetRef st; rafIdRef := rafIdRef st;
     listeners := listeners st; timeouts := timeouts st; readers := readers st |}.

Definition default_offset : Offset := {| x := 50; y := 50 |}.

(** [getCellStyle]: the background position of a cell that has an image. *)
Definition getCellStyle (cellKey : string) (st : GridState) : option (string * Offset) :=
  match cellImages st !! cellKey with
  | Some image =>
    if truthy (Some image)
    then Some (image, default default_offset (cellOffsets st !! cellKey))
    else None
  | None => None
  end.

Definition startDrag (key : string) (pageX pageY rectW rectH : Q) (st : GridState) : GridState :=
  if negb (truthy (cellImages st !! key)) then st
  else
    let current := default default_offset (cellOffsets st !! key) in
    {| cellImages := cellImages st; cellOffsets := cellOffsets st;
       selectedCell := selectedCell st;
       dragRef := Some {| drag_key := Some key; startX := pageX; startY := pageY;
                          startOffsetX := x current; startOffsetY := y current;
                          elW := rectW; elH := rectH; moved := false |};
       pendingOffsetRef := pendingOffsetRef st; rafIdRef := rafIdRef st;
       listeners := S (listeners st); timeouts := timeouts st; readers := readers st |}.

(** [onMove]: the travel as a percentage of the element's size.  The
    quotients are exact: the definition stands for the code on an element
    with a non-empty bounding box ([event_ok] below); for a width or
    height of 0 the code stores an infinite or not-a-number offset. *)
Definition onMove (pageX pageY : Q) (st : GridState) : GridState :=
  match dragRef st with
  | None => st
  | Some d =>
    let dx := (pageX - startX d) / elW d * 100 in
    let dy := (pageY - startY d) / elH d * 100 in
    let nx := startOffsetX d + dx in
    let ny := startOffsetY d + dy in
    let nx := Math_max 0 (Math_min 100 nx) in
    let ny := Math_max 0 (Math_min 100 ny) in
    {| cellImages := cellImages st; cellOffsets := cellOffsets st;
       selectedCell := selectedCell st;
       dragRef := Some {| drag_key := drag_key d; startX := startX d; startY := startY d;
                          startOffsetX := startOffsetX d; startOffsetY := startOffsetY d;
                          elW := elW d; elH := elH d; moved := true |};
       pendingOffsetRef := Some {| pending_key := drag_key d; pending_x := nx; pending_y := ny |};
       rafIdRef := true;
       listeners := listeners st; timeouts := timeouts st; readers := readers st |}
  end.

(** The callback given to [requestAnimationFrame]. *)
Definition frame_callback (st : GridState) : GridState :=
  {| cellImages := cellImages st;
     cellOffsets :=
       match pendingOffsetRef st with
       | Some pending =>
         <[property_key (pending_key pending) :=
             {| x := pending_x pending; y := pending_y pending |}]> (cellOffsets st)
       | None => cellOffsets st
       end;
     selectedCell := selectedCell st; dragRef := dragRef st;
     pendingOffsetRef := pendingOffsetRef st; rafIdRef := false;
     listeners := listeners st; timeouts := timeouts st; readers := readers st |}.

(** [onUp] of every registered listener set: all are removed, a scheduled
    frame is cancelled, and each schedules its timeout. *)
Definition onUp (st : GridState) : GridState :=
  {| cellImages := cellImages st; cellOffsets := cellOffsets st;
     selectedCell := selectedCell st; dragRef := dragRef st;
     pendingOffsetRef := pendingOffsetRef st; rafIdRef := false;
     listeners := 0; timeouts := (timeouts st + listeners st)%nat;
     readers := readers st |}.

(** The callback given to [setTimeout] in [onUp]. *)
Definition timeout_callback (st : GridState) : GridState :=
  {| cellImages := cellImages st; cellOffsets := cellOffsets st;
     selectedCell := selectedCell st;
     dragRef :=
       match dragRef st with
       | Some d => Some {| drag_key := None; startX := startX d; startY := startY d;
                           startOffsetX := startOffsetX d; startOffsetY := startOffsetY d;
                           elW := elW d; elH := elH d; moved := moved d |}
       | None => None
       end;
     pendingOffsetRef := pendingOffsetRef st; rafIdRef := rafIdRef st;
     listeners := listeners st; timeouts := pred (timeouts st); readers := readers st |}.

Definition handleCellActivate (key : string) (st : GridState) : GridState :=
  match dragRef st with
  | Some d =>
    if moved d then
      {| cellImages := cellImages st; cellOffsets := cellOffsets st;
         selectedCell := selectedCell st;
         dragRef := Some {| drag_key := drag_key d; startX := startX d; startY := startY d;
                            startOffsetX := startOffsetX d; startOffsetY := startOffsetY d;
                            elW := elW d; elH := elH d; moved := false |};
         pendingOffsetRef := pendingOffsetRef st; rafIdRef := rafIdRef st;
         listeners := listeners st; timeouts := timeouts st; readers := readers st |}
    else handleCellClick key st
  | None => handleCellClick key st
  end.

(** *** Events

    What the browser can deliver to the component, and the handler each
    event runs.  A pointer move or release reaches the component only
    through the window listeners [startDrag] registers; every registered
    [onMove] does the same work on the shared refs, so one run stands for
    all of them. *)
Inductive Event :=
| Click (key : string)
| FileChosen (file : option File)
| ReaderLoaded (i : nat)
| PointerDown (key : string) (pageX pageY rectW rectH : Q)
| PointerMove (pageX pageY : Q)
| PointerUp
| AnimationFrame
| TimerFired.

Definition forget_reader (i : nat) (st : GridState) : GridState :=
  {| cellImages := cellImages st; cellOffsets := cellOffsets st;
     selectedCell := selectedCell st; dragRef := dragRef st;
     pendingOffsetRef := pendingOffsetRef st; rafIdRef := rafIdRef st;
     listeners := listeners st; timeouts := timeouts st;
     readers := take i (readers st) ++ drop (S i) (readers st) |}.

Definition handle (ev : Event) (st : GridState) : GridState :=
  match ev with
  | Click key => handleCellActivate key st
  | FileChosen file => handleImageUpload file st
  | ReaderLoaded i =>
    match readers st !! i with
    | Some (sel, f) => reader_onload sel f (forget_reader i st)
    | None => st
    end
  | PointerDown key pageX pageY rectW rectH => startDrag key pageX pageY rectW rectH st
  | PointerMove pageX pageY =>
    match listeners st with O => st | S _ => onMove pageX pageY st end
  | PointerUp =>
    match listeners st with O => st | S _ => onUp st end
  | AnimationFrame => if rafIdRef st then frame_callback st else st
  | TimerFired =>
    match timeouts st with O => st | S _ => timeout_callback st end
  end.

Definition run (evs : list Event) (st : GridState) : GridState :=
  fold_left (fun s ev => handle ev s) evs st.

(** The element a pointer went down on has a non-empty bounding box. *)
Definition event_ok (ev : Event) : Prop :=
  match ev with
  | PointerDown _ _ _ rectW rectH => 0 < rectW /\ 0 < rectH
  | _ => True
  end.

(** ** Completions and the browser *)

(** A call either returns or throws. *)
Inductive Completion (A : Type) :=
| Return (a : A)
| Throw (e : string).
Arguments Return {A} a.
Arguments Throw {A} e.

#[global] Instance Completion_ret : MRet Completion := fun A a => Return a.
#[global] Instance Completion_bind : MBind Completion := fun A B k m =>
  match m with
  | Return a => k a
  | Throw e => Throw e
  end.

Fixpoint for_each {A S : Type} (body : A -> S -> Completion S) (l : list A) (s : S)
    : Completion S :=
  match l with
  | [] => Return s
  | a :: rest => s' ← body a s; for_each body rest s'
  end.

(** The browser services the export relies on: whether a canvas yields a
    2D context, and what an image URL decodes to ([None]: [onerror]). *)
Record Browser := {
  getContext : bool;
  loadImage : string -> option HTMLImageElement;
}.

(** ** Template 33: [renderGridToCanvas] *)

Module Grid33.

Definition COMP_ID : string := "grid-33".
Definition cid (section : string) (row col : Z) : string :=
  COMP_ID +:+ ":" +:+ section +:+ ":" +:+ pretty row +:+ "-" +:+ pretty col.

Definition cols : Z := 8.
Definition rows : Z := 10.
Definition base : Q := 100.
Definition width : Q := inject_Z cols * base.
Definition height : Q := inject_Z rows * base.
Definition gap : Q := 1.

Definition drawKey (env : Browser) (st : GridState)
    (key : string) (r c rs cs : Z) (ctx : Canvas) : Completion Canvas :=
  match cellImages st !! key with
  | Some src =>
    if negb (truthy (Some src)) then Return ctx
    else
      match loadImage env src with
      | None => Throw "image load error"
      | Some img =>
        let d := drawKey_rect cols rows base gap r c rs cs in
        Return (drawImageCover ctx img
                  (inject_Z (cx d)) (inject_Z (cy d)) (inject_Z (cw d)) (inject_Z (ch d)))
      end
  | None => Return ctx
  end.

(** The [drawKey] calls of [renderGridToCanvas], in program order.  The
    calls of one [Promise.all] batch draw in the order their images
    finish loading; [order_independent] below is what makes the program
    order representative. *)
Definition placements : list CellPlacement :=
  map (fun c => {| key := cid "top" 0 c; row := 0; col := c; rowSpan := 1; colSpan := 1 |})
      (seqZ 0 8)
  ++ flat_map (fun i =>
       let r := (1 + i)%Z in
       [{| key := cid "left" (i + 1) 0; row := r; col := 0; rowSpan := 1; colSpan := 1 |}]
       ++ (if (i =? 0)%Z
           then [{| key := cid "center" 0 0; row := 1; col := 1; rowSpan := 8; colSpan := 6 |}]
           else [])
       ++ [{| key := cid "right" (i + 1) 7; row := r; col := 7; rowSpan := 1; colSpan := 1 |}])
      (seqZ 0 8)
  ++ map (fun c => {| key := cid "bottom" 9 c; row := 9; col := c; rowSpan := 1; colSpan := 1 |})
      (seqZ 0 8).

(** The image [drawKey] draws for a placement, if any. *)
Definition image_of (env : Browser) (st : GridState) (p : CellPlacement)
    : option HTMLImageElement :=
  match cellImages st !! key p with
  | Some src => if truthy (Some src) then loadImage env src else None
  | None => None
  end.

Definition renderGridToCanvas (env : Browser) (st : GridState) : Completion Canvas :=
  let canvas := createCanvas (Qfloor width) (Qfloor height) in
  if negb (getContext env) then Throw "Canvas not supported"
  else
    let ctx := issue (FillRect "#ffffff" {| dx := 0; dy := 0; dw := width; dh := height |})
                 canvas in
    for_each (fun p => drawKey env st (key p) (row p) (col p) (rowSpan p) (colSpan p))
             placements ctx.

(** How [handleDownload] ends: with the notice that nothing has been
    uploaded, with the download of the encoded canvas under a file
    name, or with the notice that the template could not be
    generated. *)
Inductive DownloadOutcome :=
| NothingToDownload
| Downloaded (download : string) (canvas : Canvas)
| GenerationFailed.

Definition handleDownload (env : Browser) (st : GridState) : DownloadOutcome :=
  if (size (cellImages st) =? 0)%nat then NothingToDownload
  else
    match renderGridToCanvas env st with
    | Return canvas => Downloaded "template-33.png" canvas
    | Throw _ => GenerationFailed
    end.

End Grid33.

(** ** Template 75: the geometry of [drawKey] *)

Module Grid75.

Definition cols : Z := 9.
Definition rows : Z := 11.
Definition base : Q := 100.
Definition desiredGapPx : Q := 1.

(** [Math.min(4, Math.max(2, window.devicePixelRatio || 1))] *)
Definition scale (devicePixelRatio : Q) : Q :=
  Math_min 4 (Math_max 2 (if Qeq_bool devicePixelRatio 0 then 1 else devicePixelRatio)).

Definition gap (devicePixelRatio : Q) : Q := desiredGapPx / scale devicePixelRatio.

Definition drawKey_rect (devicePixelRatio : Q) (r c rs cs : Z) : CellRect :=
  drawKey_rect cols rows base (gap devicePixelRatio) r c rs cs.

Definition COMP_ID : string := "grid-75".
Definition cid (section : string) (row col : Z) : string :=
  COMP_ID +:+ ":" +:+ section +:+ ":" +:+ pretty row +:+ "-" +:+ pretty col.

(** The [drawKey] calls of [renderGridToCanvas], in program order. *)
Definition placements : list CellPlacement :=
  map (fun c => {| key := cid "topExt" (-1) (c + 2); row := 0; col := c;
                   rowSpan := 1; colSpan := 1 |}) (seqZ 0 9)
  ++ map (fun c => {| key := cid "topA" 0 c; row := 1; col := c;
                      rowSpan := 1; colSpan := 1 |}) (seqZ 0 9)
  ++ map (fun c => {| key := cid "topB" 0 c; row := 2; col := c;
                      rowSpan := 1; colSpan := 1 |}) (seqZ 0 9)
  ++ flat_map (fun i =>
       let r := (3 + i)%Z in
       map (fun lc => {| key := cid "midL" (i + 1) lc; row := r; col := lc;
                         rowSpan := 1; colSpan := 1 |}) [0; 1]%Z
       ++ (if (i =? 0)%Z
           then [{| key := cid "center" 0 0; row := 3; col := 2;
                    rowSpan := 5; colSpan := 5 |}]
           else [])
       ++ map (fun rc => {| key := cid "midR" (i + 1) rc; row := r; col := rc;
                            rowSpan := 1; colSpan := 1 |}) [7; 8]%Z)
      (seqZ 0 5)
  ++ map (fun c => {| key := cid "bottomA" 8 c; row := 8; col := c;
                      rowSpan := 1; colSpan := 1 |}) (seqZ 0 9)
  ++ map (fun c => {| key := cid "bottomB" 8 c; row := 9; col := c;
                      rowSpan := 1; colSpan := 1 |}) (seqZ 0 9)
  ++ map (fun c => {| key := cid "bottomC" 8 c; row := 10; col := c;
                      rowSpan := 1; colSpan := 1 |}) (seqZ 0 9).

Definition width : Q := inject_Z cols * base.
Definition height : Q := inject_Z rows * base.

(** [canvas.width] and [canvas.height]. *)
Definition canvas_width (devicePixelRatio : Q) : Z :=
  Math_round (width * scale devicePixelRatio).
Definition canvas_height (devicePixelRatio : Q) : Z :=
  Math_round (height * scale devicePixelRatio).

(** After [ctx.scale(scale, scale)] a rectangle given in the template's
    units lands on the canvas multiplied by [scale]. *)
Definition scaled (scale : Q) (r : Rect) : Rect :=
  {| dx := scale * dx r; dy := scale * dy r; dw := scale * dw r; dh := scale * dh r |}.

Definition drawKey (env : Browser) (st : GridState) (devicePixelRatio : Q)
    (key : string) (r c rs cs : Z) (ctx : Canvas) : Completion Canvas :=
  match cellImages st !! key with
  | Some src =>
    if negb (truthy (Some src)) then Return ctx
    else
      match loadImage env src with
      | None => Throw "image load error"
      | Some img =>
        let d := drawKey_rect devicePixelRatio r c rs cs in
        Return (issue (DrawImage img
                         (cover_src img (inject_Z (cw d)) (inject_Z (ch d)))
                         (scaled (scale devicePixelRatio) (rect_of d))) ctx)
      end
  | None => Return ctx
  end.

Definition renderGridToCanvas (env : Browser) (devicePixelRatio : Q) (st : GridState)
    : Completion Canvas :=
  let canvas := createCanvas (canvas_width devicePixelRatio)
                  (canvas_height devicePixelRatio) in
  if negb (getContext env) then Throw "Canvas not supported"
  else
    let ctx := issue (FillRect "#ffffff"
                        (scaled (scale devicePixelRatio)
                           {| dx := 0; dy := 0; dw := width; dh := height |}))
                 canvas in
    for_each (fun p => drawKey env st devicePixelRatio
                         (key p) (row p) (col p) (rowSpan p) (colSpan p))
             placements ctx.

End Grid75.

(** ** Face-centring cropper ([centerCropFace]) *)

(** [Array.prototype.sort] with a comparator: a stable sort, so elements
    the comparator does not order keep their relative order. *)
Fixpoint sort_insert {A : Type} (compareFn : A -> A -> Q) (a : A) (l : list A) : list A :=
  match l with
  | [] => [a]
  | b :: rest =>
    if Qlt_le_dec 0 (compareFn a b) then b :: sort_insert compareFn a rest
    else a :: b :: rest
  end.

Definition Array_sort {A : Type} (compareFn : A -> A -> Q) (l : list A) : list A :=
  fold_right (sort_insert compareFn) [] l.

Module FaceCrop.

Record Box := { box_x : Q; box_y : Q; box_width : Q; box_height : Q }.

(** One result of the detector ([d.detection.box]). *)
Record FaceDetection := { detection_box : Box }.

Definition area (d : FaceDetection) : Q :=
  box_width (detection_box d) * box_height (detection_box d).

(** What the detector is run on: the image itself or a downscaled copy. *)
Inductive DetectSource :=
| OfImage (img : HTMLImageElement)
| OfCanvas (off : Canvas).

(** The face-api library as an external capability.  [None] stands for a
    rejected promise. *)
Record FaceApi := {
  loadFromUri : bool;
  bufferToImage : File -> option HTMLImageElement;
  detectAllFaces : DetectSource -> Q -> option (list FaceDetection);
}.

(** The URL the function resolves to: an object URL of the file it was
    given, or the PNG data URL of the canvas it drew. *)
Inductive Url :=
| ObjectURL (f : File)
| PngDataURL (canvas : Canvas).

(** [modelsLoadedPromise]: [None] before the first call, then the
    memoised promise with how it settles ([true]: fulfilled). *)
Definition ensureModelsLoaded (api : FaceApi) (modelsLoadedPromise : option bool)
    : option bool * bool :=
  match modelsLoadedPromise with
  | None => (Some (loadFromUri api), loadFromUri api)
  | Some settled => (Some settled, settled)
  end.

Definition MAX_SIZE : Z := 640.

Definition needs_downscale (img : HTMLImageElement) : bool :=
  (MAX_SIZE <? width img)%Z || (MAX_SIZE <? height img)%Z.

Definition aspect (img : HTMLImageElement) : Q :=
  inject_Z (width img) / inject_Z (height img).

(** The size of the detection copy.  The rounded side is the rounding
    of the exact quotient; where that lies exactly between two integers
    ([640 * height / width] ending in one half) the code, which divides
    twice in doubles, can land one pixel lower.  Statements about the
    rounded side are therefore made to within half a pixel, which both
    values meet. *)
Definition targetWidth (img : HTMLImageElement) : Z :=
  if Qlt_le_dec (aspect img) 1
  then Math_round (inject_Z MAX_SIZE * aspect img)
  else Z.min (width img) MAX_SIZE.

Definition targetHeight (img : HTMLImageElement) : Z :=
  if Qlt_le_dec (aspect img) 1
  then Z.min (height img) MAX_SIZE
  else Math_round (inject_Z MAX_SIZE / aspect img).

Definition whole (img : HTMLImageElement) : SrcRect :=
  {| sx := 0; sy := 0; sw := inject_Z (width img); sh := inject_Z (height img) |}.

(** The detection source and [scaleFactor]. *)
Definition prescale (env : Browser) (img : HTMLImageElement)
    : Completion (DetectSource * Q) :=
  if needs_downscale img then
    let off := createCanvas (targetWidth img) (targetHeight img) in
    if negb (getContext env) then Throw "2D context not available"
    else
      let off := issue (DrawImage img (whole img)
                          {| dx := 0; dy := 0;
                             dw := inject_Z (targetWidth img);
                             dh := inject_Z (targetHeight img) |}) off in
      Return (OfCanvas off, inject_Z (targetWidth img) / inject_Z (width img))
  else Return (OfImage img, 1).

(** [detections.sort((a, b) => area(b) - area(a))[0]] *)
Definition by_area_desc (a b : FaceDetection) : Q := area b - area a.

Definition bestDetection (detections : list FaceDetection) : option FaceDetection :=
  head (Array_sort by_area_desc detections).

Definition rescale (detBox : Box) (scaleFactor : Q) : Box :=
  let inv := 1 / scaleFactor in
  {| box_x := box_x detBox * inv;
     box_y := box_y detBox * inv;
     box_width := box_width detBox * inv;
     box_height := box_height detBox * inv |}.

Definition targetFill : Q := 1 # 2.

(** The framed output for the chosen face. *)
Definition frame (env : Browser) (img : HTMLImageElement) (box : Box)
    (containerWidth containerHeight : Z) : Completion Canvas :=
  let scale := Math_min (inject_Z containerWidth * targetFill / box_width box)
                        (inject_Z containerHeight * targetFill / box_height box) in
  let canvas := createCanvas containerWidth containerHeight in
  if negb (getContext env) then Throw "2D context not available"
  else
    let faceCenterX := box_x box + box_width box / 2 in
    let faceCenterY := box_y box + box_height box / 2 in
    let offsetX := inject_Z containerWidth / 2 - faceCenterX * scale in
    let offsetY := inject_Z containerHeight / 2 - faceCenterY * scale in
    Return (issue (DrawImage img (whole img)
                     {| dx := offsetX; dy := offsetY;
                        dw := inject_Z (width img) * scale;
                        dh := inject_Z (height img) * scale |}) canvas).

Definition centerCropFace (api : FaceApi) (env : Browser)
    (modelsLoadedPromise : option bool)
    (imgFile : File) (containerWidth containerHeight : Z)
    : option bool * Completion Url :=
  let '(promise, loaded) := ensureModelsLoaded api modelsLoadedPromise in
  (promise,
   if negb loaded then Return (ObjectURL imgFile)
   else
     match bufferToImage api imgFile with
     | None => Throw "image decode error"
     | Some img =>
       pre ← prescale env img;
       let '(detectSource, scaleFactor) := pre in
       match detectAllFaces api detectSource (2 # 10) with
       | None => Return (ObjectURL imgFile)
       | Some detections =>
         if (length detections =? 0)%nat then Return (ObjectURL imgFile)
         else
           match bestDetection detections with
           | None => Throw "TypeError: bestDetection is undefined"
           | Some best =>
             let box := rescale (detection_box best) scaleFactor in
             canvas ← frame env img box containerWidth containerHeight;
             Return (PngDataURL canvas)
           end
       end
     end).

End FaceCrop.

(** ** Statements about a layout *)

Section Layout.

Variables (cols rows : Z) (base gap : Q) (l : list CellPlacement).

Let rect (p : CellPlacement) : CellRect := placement_rect cols rows base gap p.

(** No two distinct placements have destination rectangles that share a
    pixel. *)
Definition rects_disjoint : Prop :=
  forall p q, In p l -> In q l -> p <> q ->
    ~ share_pixel (rect_of (rect p)) (rect_of (rect q)).

(** Placements adjacent on the grid have their nearest edges exactly the
    gap apart. *)
Definition adjacent_gap_exact : Prop :=
  forall p q, In p l -> In q l ->
    (beside p q = true -> inject_Z (cx (rect q) - (cx (rect p) + cw (rect p))) == gap)
    /\ (above p q = true -> inject_Z (cy (rect q) - (cy (rect p) + ch (rect p))) == gap).

(** The draw calls a compositor issues for the placements that have an
    image, in the order of the list. *)
Definition draws (image_of : CellPlacement -> option HTMLImageElement)
    (order : list CellPlacement) : list CanvasOp :=
  omap (fun p =>
          match image_of p with
          | Some img =>
            Some (DrawImage img
                    (cover_src img (inject_Z (cw (rect p))) (inject_Z (ch (rect p))))
                    (rect_of (rect p)))
          | None => None
          end) order.

(** The composite does not depend on the order in which the cells are
    drawn. *)
Definition order_independent : Prop :=
  forall (Color : Type) (transparent : Color)
         (deposit : CanvasOp -> Z -> Z -> Color -> Color)
         (image_of : CellPlacement -> option HTMLImageElement)
         (before : list CanvasOp) (l' : list CellPlacement) (px py : Z),
    Permutation l l' ->
    pixels_of Color transparent deposit (before ++ draws image_of l) px py
    = pixels_of Color transparent deposit (before ++ draws image_of l') px py.

End Layout.

#[global] Instance CellPlacement_eq_dec : EqDecision CellPlacement.
Proof. solve_decision. Defined.

(** A placement of one cell. *)
Definition unit_cell (key : string) (r c : Z) : CellPlacement :=
  {| key := key; row := r; col := c; rowSpan := 1; colSpan := 1 |}.

(** ** Statements about the cell store *)

Definition in_range (off : Offset) : Prop :=
  0 <= x off /\ x off <= 100 /\ 0 <= y off /\ y off <= 100.

(** Every stored offset lies in [0,100] on both axes. *)
Definition offsets_in_range (st : GridState) : Prop :=
  forall k off, cellOffsets st !! k = Some off -> in_range off.

(** So does the offset waiting for the next frame. *)
Definition pending_in_range (st : GridState) : Prop :=
  forall p, pendingOffsetRef st = Some p ->
    in_range {| x := pending_x p; y := pending_y p |}.

Definition store_ok (st : GridState) : Prop :=
  offsets_in_range st /\ pending_in_range st.

(** One upload that runs from the click to the end of its read with no
    other event in between: the cell is activated, a file is chosen, and
    the read that this started (queued behind the reads already in
    flight) completes. *)
Definition upload (sel : string) (f : File) (st : GridState) : GridState :=
  run [Click sel; FileChosen (Some f); ReaderLoaded (length (readers st))] st.

(** The events an upload is made of. *)
Definition upload_step (ev : Event) : Prop :=
  match ev with
  | Click _ | FileChosen _ | ReaderLoaded _ => True
  | _ => False
  end.

(** An activation is taken as a click: no drag has left [moved] set. *)
Definition click_selects (st : GridState) : Prop :=
  match dragRef st with
  | Some d => moved d = false
  | None => True
  end.

(** ** Statements about the cropper *)

Module FaceCropSpec.
Import FaceCrop.

(** The three ways a call ends in the fallback: the models did not
    load; the detector, once reached, threw; or it found no face. *)
Inductive fallback_cause (api : FaceApi) (env : Browser)
    (modelsLoadedPromise : option bool) (imgFile : File) : Prop :=
| model_load_failed :
    snd (ensureModelsLoaded api modelsLoadedPromise) = false ->
    fallback_cause api env modelsLoadedPromise imgFile
| detector_threw (img : HTMLImageElement) (source : DetectSource) (scaleFactor : Q) :
    snd (ensureModelsLoaded api modelsLoadedPromise) = true ->
    bufferToImage api imgFile = Some img ->
    prescale env img = Return (source, scaleFactor) ->
    detectAllFaces api source (2 # 10) = None ->
    fallback_cause api env modelsLoadedPromise imgFile
| no_detections (img : HTMLImageElement) (source : DetectSource) (scaleFactor : Q) :
    snd (ensureModelsLoaded api modelsLoadedPromise) = true ->
    bufferToImage api imgFile = Some img ->
    prescale env img = Return (source, scaleFactor) ->
    detectAllFaces api source (2 # 10) = Some [] ->
    fallback_cause api env modelsLoadedPromise imgFile.

(** Boxes with equal coordinates. *)
Definition Box_eq (a b : Box) : Prop :=
  box_x a == box_x b /\ box_y a == box_y b
  /\ box_width a == box_width b /\ box_height a == box_height b.

End FaceCropSpec.

(** ** Further statements about the cell store *)

(** Every stored image and every read in flight comes from a file that
    passed the MIME check and satisfies [P]. *)
Definition from_files (P : File -> Prop) (st : GridState) : Prop :=
  (forall k url, cellImages st !! k = Some url ->
     exists f, P f /\ url = dataURL f /\ String.prefix "image/" (type f) = true)
  /\ (forall k f, In (k, f) (readers st) ->
        P f /\ String.prefix "image/" (type f) = true).

(** The keys the drag machinery holds all have an image, and so has
    every key with an offset, apart from the property name a [null] key
    turns into. *)
Definition drag_keys_have_images (st : GridState) : Prop :=
  (forall k, is_Some (cellOffsets st !! k) ->
     k = "null" \/ is_Some (cellImages st !! k))
  /\ (forall d k, dragRef st = Some d -> drag_key d = Some k ->
        is_Some (cellImages st !! k))
  /\ (forall p k, pendingOffsetRef st = Some p -> pending_key p = Some k ->
        is_Some (cellImages st !! k)).

(** ** A session of the cropper *)

(** One call of [centerCropFace], with the library and browser as they
    answer at the time of the call. *)
Record CropCall := {
  call_api : FaceCrop.FaceApi;
  call_env : Browser;
  call_file : File;
  call_width : Z;
  call_height : Z;
}.

(** Successive calls share the module variable [modelsLoadedPromise]. *)
Fixpoint session (modelsLoadedPromise : option bool) (calls : list CropCall)
    : option bool * list (Completion FaceCrop.Url) :=
  match calls with
  | [] => (modelsLoadedPromise, [])
  | c :: rest =>
    let '(promise, result) :=
      FaceCrop.centerCropFace (call_api c) (call_env c) modelsLoadedPromise
        (call_file c) (call_width c) (call_height c) in
    let '(final, results) := session promise rest in
    (final, result :: results)
  end.

(** * Properties *)

(** ** Rounding *)

Lemma Qfloor_unique (q : Q) (z : Z) :
  inject_Z z <= q -> q < inject_Z (z + 1) -> Qfloor q = z.
Proof.
  intros Hlo Hhi.
  pose proof (Qfloor_le q) as Hf1.
  pose proof (Qlt_floor q) as Hf2.
  assert (Qfloor q < z + 1)%Z by (rewrite Zlt_Qlt; eapply Qle_lt_trans; eauto).
  assert (z < Qfloor q + 1)%Z by (rewrite Zlt_Qlt; eapply Qle_lt_trans; eauto).
  lia.
Qed.

Lemma Math_round_comp (a b : Q) : a == b -> Math_round a = Math_round b.
Proof. intros E. unfold Math_round. apply Qfloor_comp. rewrite E. reflexivity. Qed.

Lemma Math_round_mono (a b : Q) : a <= b -> (Math_round a <= Math_round b)%Z.
Proof. intros H. unfold Math_round. apply Qfloor_resp_le. lra. Qed.

Lemma Math_round_shift (n : Z) (q : Q) :
  Math_round (inject_Z n + q) = (n + Math_round q)%Z.
Proof.
  unfold Math_round. apply Qfloor_unique.
  - rewrite inject_Z_plus. pose proof (Qfloor_le (q + (1 # 2))). lra.
  - replace (n + Qfloor (q + (1 # 2)) + 1)%Z
      with (n + (Qfloor (q + (1 # 2)) + 1))%Z by lia.
    rewrite inject_Z_plus. pose proof (Qlt_floor (q + (1 # 2))). lra.
Qed.

Lemma Math_round_0 : Math_round 0 = 0%Z.
Proof. reflexivity. Qed.

Lemma Math_round_Z (n : Z) : Math_round (inject_Z n) = n.
Proof.
  rewrite (Math_round_comp _ (inject_Z n + 0)) by ring.
  rewrite Math_round_shift, Math_round_0. lia.
Qed.

(** Half of an integer, rounded, and half of its opposite, rounded, are
    that integer apart. *)
Lemma Math_round_halves (G : Z) :
  (Math_round (inject_Z G / 2) - Math_round (- (inject_Z G / 2)) = G)%Z.
Proof.
  unfold Math_round.
  rewrite (Qfloor_comp (inject_Z G / 2 + (1 # 2)) (inject_Z (G + 1) / inject_Z 2)).
  2:{ rewrite inject_Z_plus. field. }
  rewrite (Qfloor_comp (- (inject_Z G / 2) + (1 # 2)) (inject_Z (1 - G) / inject_Z 2)).
  2:{ unfold Z.sub. rewrite inject_Z_plus, inject_Z_opp. field. }
  rewrite <- !Zdiv_Qdiv.
  Z.div_mod_to_equations. lia.
Qed.

(** ** Cover fit *)

(** C1.  For an image of positive natural size and a destination of
    positive size, [drawImageCover] issues one [drawImage] whose source
    rectangle has the destination's aspect ratio, is chosen by comparing
    the two ratios exactly as the two branches say, and is centred: it
    lies inside the image with equal margins on both sides of the cropped
    axis and none on the other. *)
Theorem drawImageCover_centered_cover
    (ctx : Canvas) (img : HTMLImageElement) (dx dy dw dh : Q) :
  (0 < width img)%Z -> (0 < height img)%Z -> 0 < dw -> 0 < dh ->
  let iw := inject_Z (width img) in
  let ih := inject_Z (height img) in
  let sRatio := iw / ih in
  let dRatio := dw / dh in
  let s := cover_src img dw dh in
  ops (drawImageCover ctx img dx dy dw dh)
    = ops ctx ++ [DrawImage img s {| dx := dx; dy := dy; dw := dw; dh := dh |}]
  /\ sw s / sh s == dRatio
  /\ (dRatio < sRatio ->
      sh s == ih /\ sw s == sh s * dRatio /\ sx s == (iw - sw s) / 2 /\ sy s == 0)
  /\ (sRatio <= dRatio ->
      sw s == iw /\ sh s == sw s / dRatio /\ sy s == (ih - sh s) / 2 /\ sx s == 0)
  /\ 0 <= sx s /\ 0 <= sy s /\ 0 < sw s /\ 0 < sh s
  /\ sx s + sw s + sx s == iw /\ sy s + sh s + sy s == ih.
Proof.
  intros Hw Hh Hdw Hdh iw ih sRatio dRatio s.
  assert (Hiw : 0 < iw) by (unfold iw; rewrite <- (Zlt_Qlt 0); exact Hw).
  assert (Hih : 0 < ih) by (unfold ih; rewrite <- (Zlt_Qlt 0); exact Hh).
  assert (HdR : 0 < dRatio) by (apply Qlt_shift_div_l; lra).
  assert (HsR : sRatio * ih == iw) by (unfold sRatio; field; lra).
  split; [reflexivity|].
  subst s. unfold cover_src.
  fold iw ih. fold sRatio dRatio.
  destruct (Qlt_le_dec dRatio sRatio) as [Hlt | Hle]; cbn [sx sy sw sh].
  - assert (Hsw : ih * dRatio < iw) by nra.
    assert (Hsw0 : 0 < ih * dRatio) by nra.
    split; [field; lra|].
    split; [intros _; repeat split; reflexivity|].
    split; [intros Hle; exfalso; exact (Qlt_not_le _ _ Hlt Hle)|].
    split; [apply Qle_shift_div_l; lra|].
    split; [lra|].
    split; [exact Hsw0|].
    split; [exact Hih|].
    split; [field | ring].
  - assert (Hsh0 : 0 < iw / dRatio) by (apply Qlt_shift_div_l; lra).
    assert (Hsh : iw / dRatio <= ih) by (apply Qle_shift_div_r; [lra | nra]).
    split; [field; split; lra|].
    split; [intros Hlt; exfalso; exact (Qlt_not_le _ _ Hlt Hle)|].
    split; [intros _; repeat split; reflexivity|].
    split; [lra|].
    split; [apply Qle_shift_div_l; lra|].
    split; [exact Hiw|].
    split; [exact Hsh0|].
    split; [ring | field; lra].
Qed.

Lemma drawImageCover_centered_cover_witness :
  let img := {| width := 200; height := 100; src := "data:image/png;base64,AAAA" |} in
  let s := cover_src img 50 50 in
  sw s / sh s == 50 / 50 /\ sx s == 50 /\ sy s == 0 /\ sw s == 100 /\ sh s == 100.
Proof.
  intros img s.
  destruct (drawImageCover_centered_cover (createCanvas 100 100) img 0 0 50 50
              eq_refl eq_refl eq_refl eq_refl) as (_ & Hratio & _).
  split; [exact Hratio|]. repeat split; reflexivity.
Defined.

(** ** Grid geometry on one axis

    [topGap] and [bottomGap] are [leftGap] and [rightGap] read on the
    other axis, so the lemmas are stated once, for columns. *)

Lemma leftGap_cases (gap : Q) (c : Z) :
  (c = 0%Z /\ leftGap gap c = 0) \/ (c <> 0%Z /\ leftGap gap c = gap / 2).
Proof. unfold leftGap. destruct (Z.eqb_spec c 0); auto. Qed.

Lemma rightGap_cases (cols : Z) (gap : Q) (c cs : Z) :
  ((c + cs)%Z = cols /\ rightGap cols gap c cs = 0)
  \/ ((c + cs)%Z <> cols /\ rightGap cols gap c cs = gap / 2).
Proof. unfold rightGap. destruct (Z.eqb_spec (c + cs) cols); auto. Qed.

Lemma origin_integer_base (B : Z) (gap : Q) (c : Z) :
  Math_round (inject_Z c * inject_Z B + leftGap gap c)
  = (c * B + Math_round (leftGap gap c))%Z.
Proof. rewrite <- inject_Z_mult. apply Math_round_shift. Qed.

Lemma size_integer_base (cols B : Z) (gap : Q) (c cs : Z) :
  Math_round (inject_Z cs * inject_Z B - (leftGap gap c + rightGap cols gap c cs))
  = (cs * B + Math_round (- (leftGap gap c + rightGap cols gap c cs)))%Z.
Proof. unfold Qminus. rewrite <- inject_Z_mult. apply Math_round_shift. Qed.

(** The far edge of a cell never passes the near edge of a cell that
    starts at or after the column where it ends. *)
Lemma axis_apart (cols B : Z) (gap : Q) (c cs c' : Z) :
  (0 <= B)%Z -> 0 <= gap ->
  (0 <= c)%Z -> (1 <= cs)%Z -> (c + cs <= c')%Z -> (c' < cols)%Z ->
  (Math_round (inject_Z c * inject_Z B + leftGap gap c)
   + Math_round (inject_Z cs * inject_Z B - (leftGap gap c + rightGap cols gap c cs))
   <= Math_round (inject_Z c' * inject_Z B + leftGap gap c'))%Z.
Proof.
  intros HB Hg Hc Hcs Hle Hlt.
  assert (Hhalf : gap / 2 + gap / 2 == gap) by field.
  rewrite !origin_integer_base, size_integer_base.
  destruct (rightGap_cases cols gap c cs) as [[E _] | [_ ->]]; [lia|].
  destruct (leftGap_cases gap c') as [[E _] | [_ ->]]; [lia|].
  assert (Hmul : (c * B + cs * B <= c' * B)%Z) by nia.
  assert (Hround : (Math_round (leftGap gap c) + Math_round (- (leftGap gap c + gap / 2))
                    <= Math_round (gap / 2))%Z).
  { destruct (leftGap_cases gap c) as [[_ ->] | [_ ->]].
    - rewrite Math_round_0.
      assert (H : - (0 + gap / 2) <= gap / 2) by lra.
      apply Math_round_mono in H. lia.
    - assert (H : - (gap / 2 + gap / 2) <= 0) by lra.
      apply Math_round_mono in H. rewrite Math_round_0 in H. lia. }
  lia.
Qed.

(** With an integer gap, a cell and the one that starts where it ends are
    exactly the gap apart. *)
Lemma axis_adjacent (cols B G : Z) (gap : Q) (c cs : Z) :
  gap == inject_Z G ->
  (0 <= c)%Z -> (1 <= cs)%Z -> (c + cs < cols)%Z ->
  (Math_round (inject_Z (c + cs) * inject_Z B + leftGap gap (c + cs))
   - (Math_round (inject_Z c * inject_Z B + leftGap gap c)
      + Math_round (inject_Z cs * inject_Z B - (leftGap gap c + rightGap cols gap c cs)))
   = G)%Z.
Proof.
  intros HG Hc Hcs Hlt.
  rewrite !origin_integer_base, size_integer_base.
  destruct (rightGap_cases cols gap c cs) as [[E _] | [_ ->]]; [lia|].
  destruct (leftGap_cases gap (c + cs)) as [[E _] | [_ ->]]; [lia|].
  assert (Hround : (Math_round (gap / 2)
                    - (Math_round (leftGap gap c) + Math_round (- (leftGap gap c + gap / 2)))
                    = G)%Z).
  { destruct (leftGap_cases gap c) as [[_ ->] | [_ ->]].
    - rewrite Math_round_0.
      rewrite (Math_round_comp (gap / 2) (inject_Z G / 2)) by (rewrite HG; reflexivity).
      rewrite (Math_round_comp (- (0 + gap / 2)) (- (inject_Z G / 2)))
        by (rewrite HG; field).
      pose proof (Math_round_halves G). lia.
    - rewrite (Math_round_comp (- (gap / 2 + gap / 2)) (inject_Z (- G)))
        by (rewrite HG, inject_Z_opp; field).
      rewrite Math_round_Z. lia. }
  lia.
Qed.

(** A gap no larger than a cell leaves every size non-negative. *)
Lemma axis_size_nonneg (cols B : Z) (gap : Q) (c cs : Z) :
  0 <= gap -> gap <= inject_Z B -> (1 <= cs)%Z ->
  (0 <= Math_round (inject_Z cs * inject_Z B - (leftGap gap c + rightGap cols gap c cs)))%Z.
Proof.
  intros Hg HgB Hcs.
  assert (Hhalf : gap / 2 + gap / 2 == gap) by field.
  rewrite <- Math_round_0. apply Math_round_mono.
  assert (HB : (0 <= B)%Z) by (rewrite Zle_Qle; exact (Qle_trans _ _ _ Hg HgB)).
  assert (Hmul : inject_Z B <= inject_Z cs * inject_Z B).
  { rewrite <- inject_Z_mult, <- Zle_Qle. nia. }
  destruct (leftGap_cases gap c) as [[_ ->] | [_ ->]];
    destruct (rightGap_cases cols gap c cs) as [[_ ->] | [_ ->]]; lra.
Qed.

(** ** Pixels of integer rectangles *)

Lemma Math_min_le (a b : Q) : a <= b -> Math_min a b = a.
Proof. intros H. unfold Math_min. destruct (Qlt_le_dec b a); [lra | reflexivity]. Qed.

Lemma Math_max_le (a b : Q) : a <= b -> Math_max a b == b.
Proof. intros H. unfold Math_max. destruct (Qlt_le_dec a b); [reflexivity | lra]. Qed.

Lemma touches_rect_of (cr : CellRect) (px py : Z) :
  (0 <= cw cr)%Z -> (0 <= ch cr)%Z ->
  touches (rect_of cr) px py = true ->
  (cx cr <= px < cx cr + cw cr)%Z /\ (cy cr <= py < cy cr + ch cr)%Z.
Proof.
  intros Hw Hh. unfold touches, span_lo, span_hi. cbn [rect_of dx dy dw dh].
  assert (Hqw : 0 <= inject_Z (cw cr)) by (rewrite <- (Zle_Qle 0); exact Hw).
  assert (Hqh : 0 <= inject_Z (ch cr)) by (rewrite <- (Zle_Qle 0); exact Hh).
  rewrite !Math_min_le by lra.
  pose proof (Math_max_le (inject_Z (cx cr)) (inject_Z (cx cr) + inject_Z (cw cr))) as Ex.
  pose proof (Math_max_le (inject_Z (cy cr)) (inject_Z (cy cr) + inject_Z (ch cr))) as Ey.
  repeat match goal with
  | |- context [Qlt_le_dec ?a ?b] => destruct (Qlt_le_dec a b)
  end; cbn; try discriminate.
  intros _.
  rewrite Ex in * by lra. rewrite Ey in * by lra.
  rewrite <- !inject_Z_plus in *. rewrite <- !Zlt_Qlt in *. lia.
Qed.

(** ** Layouts *)

Lemma in_bounds_spec (cols rows : Z) (p : CellPlacement) :
  in_bounds cols rows p = true ->
  (0 <= row p /\ 0 <= col p /\ 1 <= rowSpan p /\ 1 <= colSpan p
   /\ row p + rowSpan p <= rows /\ col p + colSpan p <= cols)%Z.
Proof. unfold in_bounds. rewrite !andb_true_iff, !Z.leb_le. tauto. Qed.

Lemma footprints_apart_sym (p q : CellPlacement) :
  footprints_apart p q = footprints_apart q p.
Proof.
  unfold footprints_apart.
  destruct (col p + colSpan p <=? col q)%Z, (col q + colSpan q <=? col p)%Z,
    (row p + rowSpan p <=? row q)%Z, (row q + rowSpan q <=? row p)%Z; reflexivity.
Qed.

Lemma pairwise_apart_In (l : list CellPlacement) (p q : CellPlacement) :
  pairwise_apart l = true -> In p l -> In q l -> p <> q ->
  footprints_apart p q = true.
Proof.
  induction l as [|a l IH]; cbn [pairwise_apart In]; [tauto|].
  rewrite andb_true_iff, forallb_forall. intros [Ha Hl] [-> | Hp] [-> | Hq] Hne.
  - congruence.
  - auto.
  - rewrite footprints_apart_sym. auto.
  - auto.
Qed.

Lemma valid_layout_spec (cols rows : Z) (l : list CellPlacement) :
  valid_layout cols rows l = true ->
  (forall p, In p l -> in_bounds cols rows p = true) /\ pairwise_apart l = true.
Proof.
  unfold valid_layout. rewrite andb_true_iff, forallb_forall. tauto.
Qed.

(** Placements apart on the grid have rectangles apart on the canvas, when
    the cell size is an integer. *)
Lemma apart_rects_no_shared_pixel (cols rows B : Z) (gap : Q) (p q : CellPlacement) :
  0 <= gap -> gap <= inject_Z B ->
  in_bounds cols rows p = true -> in_bounds cols rows q = true ->
  footprints_apart p q = true ->
  ~ share_pixel (rect_of (placement_rect cols rows (inject_Z B) gap p))
                (rect_of (placement_rect cols rows (inject_Z B) gap q)).
Proof.
  intros Hg HgB Hp Hq Hapart [px [py [Tp Tq]]].
  assert (HB : (0 <= B)%Z) by (rewrite Zle_Qle; exact (Qle_trans _ _ _ Hg HgB)).
  apply in_bounds_spec in Hp, Hq.
  apply touches_rect_of in Tp, Tq;
    try (apply axis_size_nonneg; (assumption || lia)).
  cbn [placement_rect drawKey_rect cx cy cw ch] in Tp, Tq.
  unfold footprints_apart in Hapart.
  rewrite !orb_true_iff, !Z.leb_le in Hapart.
  destruct Hapart as [[[H | H] | H] | H].
  - pose proof (axis_apart cols B gap (col p) (colSpan p) (col q)
                  HB Hg ltac:(lia) ltac:(lia) H ltac:(lia)). lia.
  - pose proof (axis_apart cols B gap (col q) (colSpan q) (col p)
                  HB Hg ltac:(lia) ltac:(lia) H ltac:(lia)). lia.
  - pose proof (axis_apart rows B gap (row p) (rowSpan p) (row q)
                  HB Hg ltac:(lia) ltac:(lia) H ltac:(lia)) as A.
    change (leftGap gap) with (topGap gap) in A.
    change (rightGap rows gap) with (bottomGap rows gap) in A. lia.
  - pose proof (axis_apart rows B gap (row q) (rowSpan q) (row p)
                  HB Hg ltac:(lia) ltac:(lia) H ltac:(lia)) as A.
    change (leftGap gap) with (topGap gap) in A.
    change (rightGap rows gap) with (bottomGap rows gap) in A. lia.
Qed.

(** ** Draw calls on disjoint rectangles commute *)

Section RasterFacts.

Context (Color : Type) (transparent : Color)
        (deposit : CanvasOp -> Z -> Z -> Color -> Color).

Local Abbreviation paint_at := (paint Color deposit).
Local Abbreviation pixels := (pixels_of Color transparent deposit).

Lemma paint_untouched (px py : Z) (under : Color) (op : CanvasOp) :
  touches (op_dst op) px py = false -> paint_at px py under op = under.
Proof. intros H. unfold paint. rewrite H. reflexivity. Qed.

Lemma paint_commute (px py : Z) (under : Color) (a b : CanvasOp) :
  ~ share_pixel (op_dst a) (op_dst b) ->
  paint_at px py (paint_at px py under a) b = paint_at px py (paint_at px py under b) a.
Proof.
  intros Hno. unfold paint.
  destruct (touches (op_dst a) px py) eqn:Ta, (touches (op_dst b) px py) eqn:Tb;
    try reflexivity.
  exfalso. apply Hno. exists px, py. auto.
Qed.

Lemma pixels_of_app (l1 l2 : list CanvasOp) (px py : Z) :
  pixels (l1 ++ l2) px py = fold_left (paint_at px py) l2 (pixels l1 px py).
Proof. unfold pixels_of. apply fold_left_app. Qed.

Lemma fold_left_step {A B : Type} (f : A -> B -> A) (b : B) (l : list B) (a : A) :
  fold_left f (b :: l) a = fold_left f l (f a b).
Proof. reflexivity. Qed.

Section Draws.

Context (cols rows : Z) (base gap : Q)
        (image_of : CellPlacement -> option HTMLImageElement).

Local Abbreviation draws_of := (draws cols rows base gap image_of).

Lemma draws_cons (p : CellPlacement) (l : list CellPlacement) :
  draws_of (p :: l)
  = match image_of p with
    | Some img =>
      DrawImage img
        (cover_src img (inject_Z (cw (placement_rect cols rows base gap p)))
                       (inject_Z (ch (placement_rect cols rows base gap p))))
        (rect_of (placement_rect cols rows base gap p)) :: draws_of l
    | None => draws_of l
    end.
Proof. unfold draws. simpl. destruct (image_of p); reflexivity. Qed.

Lemma draws_permutation (l l' : list CellPlacement) (px py : Z) :
  rects_disjoint cols rows base gap l ->
  Permutation l l' ->
  forall under,
    fold_left (paint_at px py) (draws_of l) under
    = fold_left (paint_at px py) (draws_of l') under.
Proof.
  intros Hdis Hperm. revert Hdis.
  induction Hperm as [| a l l' Hperm IH | a b l | l l' l'' H1 IH1 H2 IH2];
    intros Hdis under.
  - reflexivity.
  - rewrite !draws_cons.
    assert (Hl : rects_disjoint cols rows base gap l).
    { intros p q Hp Hq. apply Hdis; right; assumption. }
    destruct (image_of a); rewrite ?fold_left_step; apply IH; exact Hl.
  - rewrite !draws_cons.
    destruct (decide (a = b)) as [-> | Hne]; [reflexivity|].
    assert (Hab : ~ share_pixel (rect_of (placement_rect cols rows base gap a))
                                (rect_of (placement_rect cols rows base gap b))).
    { apply Hdis; [right; left; reflexivity | left; reflexivity | exact Hne]. }
    destruct (image_of a), (image_of b); rewrite ?fold_left_step; try reflexivity.
    f_equal. symmetry. apply paint_commute. exact Hab.
  - rewrite IH1 by exact Hdis. apply IH2.
    intros p q Hp Hq. apply Hdis; eapply Permutation_in; try eassumption;
      apply Permutation_sym; exact H1.
Qed.

End Draws.

End RasterFacts.

(** ** Destination rectangles of a layout *)

Lemma adjacent_integer_gap (cols rows B G : Z) (gap : Q) (l : list CellPlacement) :
  valid_layout cols rows l = true ->
  gap == inject_Z G ->
  adjacent_gap_exact cols rows (inject_Z B) gap l.
Proof.
  intros Hvalid HG p q Hp Hq.
  apply valid_layout_spec in Hvalid. destruct Hvalid as [Hin _].
  pose proof (in_bounds_spec _ _ _ (Hin p Hp)) as Bp.
  pose proof (in_bounds_spec _ _ _ (Hin q Hq)) as Bq.
  cbn [placement_rect drawKey_rect cx cy cw ch].
  split; intros Hadj.
  - unfold beside in Hadj. rewrite !andb_true_iff, Z.eqb_eq in Hadj.
    destruct Hadj as [[E _] _]. rewrite <- E.
    rewrite (axis_adjacent cols B G gap (col p) (colSpan p) HG) by lia.
    symmetry. exact HG.
  - unfold above in Hadj. rewrite !andb_true_iff, Z.eqb_eq in Hadj.
    destruct Hadj as [[E _] _]. rewrite <- E.
    pose proof (axis_adjacent rows B G gap (row p) (rowSpan p) HG
                  ltac:(lia) ltac:(lia) ltac:(lia)) as A.
    change (leftGap gap) with (topGap gap) in A.
    change (rightGap rows gap) with (bottomGap rows gap) in A.
    rewrite A. symmetry. exact HG.
Qed.

Lemma valid_layout_rects_disjoint
    (cols rows B : Z) (gap : Q) (l : list CellPlacement) :
  valid_layout cols rows l = true -> 0 <= gap -> gap <= inject_Z B ->
  rects_disjoint cols rows (inject_Z B) gap l.
Proof.
  intros Hvalid Hg HgB.
  destruct (valid_layout_spec _ _ _ Hvalid) as [Hin Hpair].
  intros p q Hp Hq Hne.
  apply apart_rects_no_shared_pixel; auto.
  eapply pairwise_apart_In; eauto.
Qed.

(** On a canvas without a scale transform (template 33), for every valid
    layout whose cell size is an integer [B] and every gap with
    [0 <= gap <= B]: the rounded destination rectangles of two distinct
    placements share no pixel, so the composite is the same in whatever
    order the cells are drawn; and when the gap is an integer, placements
    adjacent on the grid have their nearest edges exactly the gap
    apart. *)
Lemma integer_grid_rects_disjoint
    (cols rows B : Z) (gap : Q) (l : list CellPlacement) :
  valid_layout cols rows l = true -> 0 <= gap -> gap <= inject_Z B ->
  rects_disjoint cols rows (inject_Z B) gap l
  /\ order_independent cols rows (inject_Z B) gap l
  /\ (forall G : Z, gap == inject_Z G ->
        adjacent_gap_exact cols rows (inject_Z B) gap l).
Proof.
  intros Hvalid Hg HgB.
  assert (Hdis : rects_disjoint cols rows (inject_Z B) gap l)
    by (apply valid_layout_rects_disjoint; assumption).
  split; [exact Hdis|]. split.
  - intros Color transparent deposit image_of before l' px py Hperm.
    rewrite !pixels_of_app.
    apply draws_permutation; assumption.
  - intros G HG. eapply adjacent_integer_gap; eauto.
Qed.

(** The layout of template 33 (cell size 100, gap 1) is such a layout. *)
Lemma integer_grid_rects_disjoint_witness :
  rects_disjoint Grid33.cols Grid33.rows Grid33.base Grid33.gap Grid33.placements
  /\ order_independent Grid33.cols Grid33.rows Grid33.base Grid33.gap Grid33.placements
  /\ (forall G : Z, Grid33.gap == inject_Z G ->
        adjacent_gap_exact Grid33.cols Grid33.rows Grid33.base Grid33.gap
          Grid33.placements).
Proof.
  apply (integer_grid_rects_disjoint Grid33.cols Grid33.rows 100 Grid33.gap
           Grid33.placements).
  - vm_compute. reflexivity.
  - vm_compute. discriminate.
  - vm_compute. discriminate.
Defined.

(** ** Template 75 *)

Lemma Grid75_scale_range (devicePixelRatio : Q) :
  2 <= Grid75.scale devicePixelRatio /\ Grid75.scale devicePixelRatio <= 4.
Proof.
  unfold Grid75.scale, Math_min, Math_max.
  destruct (Qeq_bool devicePixelRatio 0);
    repeat match goal with
    | |- context [Qlt_le_dec ?a ?b] => destruct (Qlt_le_dec a b)
    end; lra.
Qed.

Lemma Grid75_gap_range (devicePixelRatio : Q) :
  1 # 4 <= Grid75.gap devicePixelRatio /\ Grid75.gap devicePixelRatio <= 1 # 2.
Proof.
  destruct (Grid75_scale_range devicePixelRatio) as [Hlo Hhi].
  unfold Grid75.gap, Grid75.desiredGapPx. split.
  - apply Qle_shift_div_l; lra.
  - apply Qle_shift_div_r; lra.
Qed.

Lemma Math_round_small (q : Q) : - (1 # 2) <= q -> q < 1 # 2 -> Math_round q = 0%Z.
Proof.
  intros Hlo Hhi. unfold Math_round. apply Qfloor_unique.
  - change (inject_Z 0) with 0. lra.
  - change (inject_Z (0 + 1)) with 1. lra.
Qed.

(** At every device pixel ratio the gap of template 75 is at most half a
    unit, and rounding removes it: each cell is drawn on its full grid
    footprint, and the layout's rectangles are disjoint. *)
Lemma Grid75_gap_rounded_away (devicePixelRatio : Q) (r c rs cs : Z) :
  Grid75.drawKey_rect devicePixelRatio r c rs cs
  = {| cx := c * 100; cy := r * 100; cw := cs * 100; ch := rs * 100 |}.
Proof.
  destruct (Grid75_gap_range devicePixelRatio) as [Hlo Hhi].
  unfold Grid75.drawKey_rect, drawKey_rect.
  change Grid75.base with (inject_Z 100).
  set (g := Grid75.gap devicePixelRatio) in *.
  assert (Hhalf : g / 2 + g / 2 == g) by field.
  change (topGap g) with (leftGap g).
  change (bottomGap Grid75.rows g) with (rightGap Grid75.rows g).
  rewrite !origin_integer_base, !size_integer_base.
  assert (Hl : forall k, Math_round (leftGap g k) = 0%Z).
  { intros k. apply Math_round_small;
      destruct (leftGap_cases g k) as [[_ ->] | [_ ->]]; lra. }
  assert (Hs : forall n k ks, Math_round (- (leftGap g k + rightGap n g k ks)) = 0%Z).
  { intros n k ks. apply Math_round_small;
      destruct (leftGap_cases g k) as [[_ ->] | [_ ->]];
      destruct (rightGap_cases n g k ks) as [[_ ->] | [_ ->]]; lra. }
  rewrite !Hl, !Hs. f_equal; lia.
Qed.

Lemma Grid75_rects_disjoint (devicePixelRatio : Q) :
  rects_disjoint Grid75.cols Grid75.rows Grid75.base (Grid75.gap devicePixelRatio)
    Grid75.placements.
Proof.
  destruct (Grid75_gap_range devicePixelRatio) as [Hlo Hhi].
  apply (valid_layout_rects_disjoint Grid75.cols Grid75.rows 100).
  - vm_compute. reflexivity.
  - lra.
  - change (inject_Z 100) with 100. lra.
Qed.

(** C2.  Template 75 asks for one device pixel between cells
    ([desiredGapPx = 1], a gap of [1 / scale > 0] in its own units), but
    at every device pixel ratio [drawKey] rounds the gap away: the
    rectangle of a cell is its full grid footprint, so two placements
    that are neighbours on the grid have their nearest edges 0 apart,
    never the gap.  The canvas is scaled, and at device pixel ratio 2.625
    the boundary between columns 0 and 1 falls at 262.5 device pixels:
    the rectangles drawn for the first two cells of the top row both
    reach device pixel column 262, so the two draws are not independent
    of each other. *)
Theorem Grid75_neighbours_touch :
  (forall devicePixelRatio, 0 < Grid75.gap devicePixelRatio)
  /\ (forall devicePixelRatio p q,
        let rect := placement_rect Grid75.cols Grid75.rows Grid75.base
                      (Grid75.gap devicePixelRatio) in
        (beside p q = true -> (cx (rect q) - (cx (rect p) + cw (rect p)) = 0)%Z)
        /\ (above p q = true -> (cy (rect q) - (cy (rect p) + ch (rect p)) = 0)%Z))
  /\ (forall devicePixelRatio,
        ~ adjacent_gap_exact Grid75.cols Grid75.rows Grid75.base
            (Grid75.gap devicePixelRatio) Grid75.placements)
  /\ (let png := {| type := "image/png"; dataURL := "data:image/png;base64,AAAA" |} in
      let env := {| getContext := true;
                    loadImage := fun s => Some {| width := 200; height := 100; src := s |} |} in
      let st := upload (Grid75.cid "topExt" (-1) 3) png
                  (upload (Grid75.cid "topExt" (-1) 2) png initialState) in
      exists canvas ia sa a ib sb b,
        Grid75.renderGridToCanvas env (21 # 8) st = Return canvas
        /\ ops canvas = [FillRect "#ffffff"
                           (Grid75.scaled (Grid75.scale (21 # 8))
                              {| dx := 0; dy := 0;
                                 dw := Grid75.width; dh := Grid75.height |});
                         DrawImage ia sa a; DrawImage ib sb b]
        /\ dx a == 0 /\ dx a + dw a == 525 # 2
        /\ dx b == 525 # 2 /\ dx b + dw b == 525
        /\ touches a 262 0 = true /\ touches b 262 0 = true
        /\ share_pixel a b).
Proof.
  assert (Hgap : forall devicePixelRatio, 0 < Grid75.gap devicePixelRatio).
  { intros devicePixelRatio.
    destruct (Grid75_gap_range devicePixelRatio) as [Hlo _]. lra. }
  assert (Hrect : forall devicePixelRatio p,
            placement_rect Grid75.cols Grid75.rows Grid75.base
              (Grid75.gap devicePixelRatio) p
            = {| cx := col p * 100; cy := row p * 100;
                 cw := colSpan p * 100; ch := rowSpan p * 100 |}).
  { intros devicePixelRatio p.
    exact (Grid75_gap_rounded_away devicePixelRatio (row p) (col p) (rowSpan p) (colSpan p)). }
  split; [exact Hgap|]. split; [|split].
  - intros devicePixelRatio p q rect. subst rect. rewrite !Hrect. cbn [cx cy cw ch].
    unfold beside, above. rewrite !andb_true_iff, !Z.eqb_eq. split; intros [[E _] _]; lia.
  - intros devicePixelRatio H.
    destruct (H (unit_cell (Grid75.cid "topExt" (-1) 2) 0 0)
                (unit_cell (Grid75.cid "topExt" (-1) 3) 0 1)) as [Hb _];
      [left; reflexivity | right; left; reflexivity |].
    specialize (Hb eq_refl). rewrite !Hrect in Hb. cbn in Hb.
    specialize (Hgap devicePixelRatio). rewrite <- Hb in Hgap.
    exact (Qlt_irrefl _ Hgap).
  - intros png env st.
    do 7 eexists. split; [vm_compute; reflexivity|].
    split; [reflexivity|].
    split; [vm_compute; reflexivity|]. split; [vm_compute; reflexivity|].
    split; [vm_compute; reflexivity|]. split; [vm_compute; reflexivity|].
    split; [vm_compute; reflexivity|]. split; [vm_compute; reflexivity|].
    exists 262%Z, 0%Z. split; vm_compute; reflexivity.
Qed.

(** ** Boundary cells *)

(** The gap contribution of a side is zero on the grid boundary and half
    the gap elsewhere. *)
Lemma gap_contributions (cols rows : Z) (gap : Q) (r c rs cs : Z) :
  leftGap gap c = (if decide (c = 0%Z) then 0 else gap / 2)
  /\ rightGap cols gap c cs = (if decide ((c + cs)%Z = cols) then 0 else gap / 2)
  /\ topGap gap r = (if decide (r = 0%Z) then 0 else gap / 2)
  /\ bottomGap rows gap r rs = (if decide ((r + rs)%Z = rows) then 0 else gap / 2).
Proof.
  unfold leftGap, rightGap, topGap, bottomGap.
  repeat split; case_decide;
    match goal with |- context [Z.eqb ?a ?b] => destruct (Z.eqb_spec a b) end;
    congruence.
Qed.

(** The left edge of a cell in column 0 and the top edge of a cell in row
    0 are the canvas edges. *)
Lemma first_column_and_row_on_edge (cols rows : Z) (base gap : Q) (r c rs cs : Z) :
  (c = 0%Z -> cx (drawKey_rect cols rows base gap r c rs cs) = 0%Z)
  /\ (r = 0%Z -> cy (drawKey_rect cols rows base gap r c rs cs) = 0%Z).
Proof.
  split; intros ->; cbn [drawKey_rect cx cy]; unfold leftGap, topGap;
    rewrite Z.eqb_refl; change (inject_Z 0) with 0;
    (transitivity (Math_round 0); [apply Math_round_comp; ring | reflexivity]).
Qed.

(** The far edge of a cell that ends on the grid boundary, for an integer
    cell size and an integer gap: the canvas edge when the cell also
    starts on the boundary or the gap is even, one pixel past it when the
    cell starts inside the grid and the gap is odd. *)
Lemma far_edge_integer_gap (cols B G : Z) (gap : Q) (c cs : Z) :
  gap == inject_Z G -> (c + cs)%Z = cols ->
  (Math_round (inject_Z c * inject_Z B + leftGap gap c)
   + Math_round (inject_Z cs * inject_Z B - (leftGap gap c + rightGap cols gap c cs))
   = cols * B + (if Z.eqb c 0 then 0 else G mod 2))%Z.
Proof.
  intros HG Hend.
  rewrite origin_integer_base, size_integer_base.
  destruct (rightGap_cases cols gap c cs) as [[_ ->] | [Hne _]]; [|congruence].
  assert (Hround : (Math_round (leftGap gap c) + Math_round (- (leftGap gap c + 0))
                    = if Z.eqb c 0 then 0 else G mod 2)%Z).
  { unfold leftGap. destruct (Z.eqb_spec c 0) as [_ | _]; [reflexivity|].
    rewrite (Math_round_comp (gap / 2) (inject_Z G / 2)) by (rewrite HG; reflexivity).
    rewrite (Math_round_comp (- (gap / 2 + 0)) (- (inject_Z G / 2)))
      by (rewrite HG; field).
    unfold Math_round.
    rewrite (Qfloor_comp (inject_Z G / 2 + (1 # 2)) (inject_Z (G + 1) / inject_Z 2)).
    2:{ rewrite inject_Z_plus. field. }
    rewrite (Qfloor_comp (- (inject_Z G / 2) + (1 # 2)) (inject_Z (1 - G) / inject_Z 2)).
    2:{ unfold Z.sub. rewrite inject_Z_plus, inject_Z_opp. field. }
    rewrite <- !Zdiv_Qdiv.
    Z.div_mod_to_equations. lia. }
  nia.
Qed.

(** A 3x3 grid with gap 4 and cells of 100: cell (0,0) is drawn at
    (0, 0, 98, 98). *)
Lemma corner_cell_3x3 :
  drawKey_rect 3 3 100 4 0 0 1 1 = {| cx := 0; cy := 0; cw := 98; ch := 98 |}.
Proof. reflexivity. Qed.

(** C3.  The code at the last column of template 33 (8 columns of 100,
    gap 1, canvas 800 wide): the right gap is zero, yet the rounded
    rectangle of the cell at row 0, column 7 starts at 701 and is 100
    wide, so its right edge is at 801, one pixel past the canvas edge.
    The same happens at the bottom edge of the last row. *)
Theorem Grid33_last_column_overshoots :
  let d := drawKey_rect Grid33.cols Grid33.rows Grid33.base Grid33.gap 0 7 1 1 in
  let e := drawKey_rect Grid33.cols Grid33.rows Grid33.base Grid33.gap 9 0 1 1 in
  rightGap Grid33.cols Grid33.gap 7 1 = 0
  /\ d = {| cx := 701; cy := 0; cw := 100; ch := 100 |}
  /\ (cx d + cw d)%Z = 801%Z
  /\ Qfloor Grid33.width = 800%Z
  /\ bottomGap Grid33.rows Grid33.gap 9 1 = 0
  /\ e = {| cx := 0; cy := 901; cw := 100; ch := 100 |}
  /\ (cy e + ch e)%Z = 1001%Z
  /\ Qfloor Grid33.height = 1000%Z.
Proof. repeat split; reflexivity. Qed.

(** ** Export of template 33 *)

Lemma Grid33_drawKey_ops (env : Browser) (st : GridState) (p : CellPlacement)
    (ctx cv : Canvas) :
  Grid33.drawKey env st (key p) (row p) (col p) (rowSpan p) (colSpan p) ctx = Return cv ->
  ops cv = ops ctx
           ++ draws Grid33.cols Grid33.rows Grid33.base Grid33.gap
                (Grid33.image_of env st) [p].
Proof.
  unfold Grid33.drawKey, draws, Grid33.image_of. simpl.
  destruct (cellImages st !! key p) as [s|]; simpl.
  - destruct (negb (String.eqb s "")); simpl.
    + destruct (loadImage env s) as [img|]; [|discriminate].
      intros [= <-]. reflexivity.
    + intros [= <-]. rewrite app_nil_r. reflexivity.
  - intros [= <-]. rewrite app_nil_r. reflexivity.
Qed.

Lemma draws_app (cols rows : Z) (base gap : Q)
    (image_of : CellPlacement -> option HTMLImageElement) (l1 l2 : list CellPlacement) :
  draws cols rows base gap image_of (l1 ++ l2)
  = draws cols rows base gap image_of l1 ++ draws cols rows base gap image_of l2.
Proof. unfold draws. apply omap_app. Qed.

Lemma Grid33_for_each_ops (env : Browser) (st : GridState) (l : list CellPlacement) :
  forall ctx cv,
    for_each (fun p => Grid33.drawKey env st (key p) (row p) (col p) (rowSpan p) (colSpan p))
             l ctx = Return cv ->
    ops cv = ops ctx
             ++ draws Grid33.cols Grid33.rows Grid33.base Grid33.gap
                  (Grid33.image_of env st) l.
Proof.
  induction l as [|p l IH]; intros ctx cv; cbn [for_each].
  - intros [= <-]. unfold draws. simpl. rewrite app_nil_r. reflexivity.
  - destruct (Grid33.drawKey env st (key p) (row p) (col p) (rowSpan p) (colSpan p) ctx)
      as [ctx'|e] eqn:E; [|discriminate].
    intros Hrest. apply IH in Hrest. apply Grid33_drawKey_ops in E.
    rewrite Hrest, E, <- app_assoc, <- draws_app. reflexivity.
Qed.

Lemma Grid33_drawKey_reads_images (env : Browser) (st1 st2 : GridState)
    (key : string) (r c rs cs : Z) (ctx : Canvas) :
  cellImages st1 = cellImages st2 ->
  Grid33.drawKey env st1 key r c rs cs ctx = Grid33.drawKey env st2 key r c rs cs ctx.
Proof. intros E. unfold Grid33.drawKey. rewrite E. reflexivity. Qed.

Lemma for_each_ext {A S : Type} (f g : A -> S -> Completion S) (l : list A) :
  (forall a s, f a s = g a s) -> forall s, for_each f l s = for_each g l s.
Proof.
  intros E. induction l as [|a l IH]; intros s; cbn [for_each]; [reflexivity|].
  rewrite E. destruct (g a s); simpl; auto.
Qed.

(** C4.  Two component states with the same images export the same
    canvas, whatever their pan offsets; the calls issued are the white
    background and, for each placement whose key has an image, one
    [drawImage] of that image with the centred cover crop. *)
Theorem export_ignores_offsets (env : Browser) (st1 st2 : GridState) :
  cellImages st1 = cellImages st2 ->
  Grid33.renderGridToCanvas env st1 = Grid33.renderGridToCanvas env st2
  /\ (forall canvas,
        Grid33.renderGridToCanvas env st1 = Return canvas ->
        ops canvas
        = FillRect "#ffffff" {| dx := 0; dy := 0; dw := Grid33.width; dh := Grid33.height |}
          :: draws Grid33.cols Grid33.rows Grid33.base Grid33.gap
               (Grid33.image_of env st1) Grid33.placements).
Proof.
  intros E. split.
  - unfold Grid33.renderGridToCanvas.
    destruct (negb (getContext env)); [reflexivity|].
    apply for_each_ext. intros p s. apply Grid33_drawKey_reads_images. exact E.
  - intros canvas. unfold Grid33.renderGridToCanvas.
    destruct (negb (getContext env)); [discriminate|].
    intros H. apply Grid33_for_each_ops in H. exact H.
Qed.

Lemma export_ignores_offsets_witness :
  let f := {| type := "image/png"; dataURL := "data:image/png;base64,AAAA" |} in
  let k := Grid33.cid "top" 0 0 in
  let env := {| getContext := true;
                loadImage := fun s => Some {| width := 200; height := 100; src := s |} |} in
  let st1 := upload k f initialState in
  let st2 := run [PointerDown k 0 0 100 100; PointerMove 100 (-70); AnimationFrame] st1 in
  cellImages st1 = cellImages st2
  /\ cellOffsets st1 !! k = None
  /\ cellOffsets st2 !! k = Some {| x := 100; y := 0 |}
  /\ Grid33.renderGridToCanvas env st1 = Grid33.renderGridToCanvas env st2.
Proof.
  intros f k env st1 st2.
  assert (E : cellImages st1 = cellImages st2) by reflexivity.
  split; [exact E|]. split; [reflexivity|]. split; [vm_compute; reflexivity|].
  exact (proj1 (export_ignores_offsets env st1 st2 E)).
Defined.

(** ** Pan offsets *)

Lemma clamp_range (v : Q) :
  0 <= Math_max 0 (Math_min 100 v) /\ Math_max 0 (Math_min 100 v) <= 100.
Proof.
  unfold Math_max, Math_min.
  destruct (Qlt_le_dec v 100); destruct (Qlt_le_dec 0 _); lra.
Qed.

Lemma clamp_inside (v : Q) :
  0 <= v -> v <= 100 -> Math_max 0 (Math_min 100 v) == v.
Proof.
  intros H0 H1. unfold Math_max, Math_min.
  destruct (Qlt_le_dec v 100); destruct (Qlt_le_dec 0 _); lra.
Qed.

Lemma clamp_above (v : Q) : 100 <= v -> Math_max 0 (Math_min 100 v) == 100.
Proof.
  intros H. unfold Math_max, Math_min.
  destruct (Qlt_le_dec v 100); destruct (Qlt_le_dec 0 _); lra.
Qed.

Lemma clamp_below (v : Q) : v <= 0 -> Math_max 0 (Math_min 100 v) == 0.
Proof.
  intros H. unfold Math_max, Math_min.
  destruct (Qlt_le_dec v 100); destruct (Qlt_le_dec 0 _); lra.
Qed.

Lemma initialState_ok : store_ok initialState.
Proof.
  split.
  - intros k off H. cbn in H. rewrite lookup_empty in H. discriminate.
  - intros p H. discriminate.
Qed.

Lemma onMove_ok (pageX pageY : Q) (st : GridState) :
  store_ok st -> store_ok (onMove pageX pageY st).
Proof.
  intros [Ho Hp]. unfold onMove.
  destruct (dragRef st) as [d|]; [|split; assumption].
  split; [exact Ho|].
  intros p [= <-]. unfold in_range. cbn [x y pending_x pending_y].
  pose proof (clamp_range (startOffsetX d + (pageX - startX d) / elW d * 100)).
  pose proof (clamp_range (startOffsetY d + (pageY - startY d) / elH d * 100)).
  tauto.
Qed.

Lemma frame_callback_ok (st : GridState) :
  store_ok st -> store_ok (frame_callback st).
Proof.
  intros [Ho Hp]. split; [|exact Hp].
  intros k off. unfold frame_callback. cbn [cellOffsets].
  destruct (pendingOffsetRef st) as [p|] eqn:E; [|apply Ho].
  destruct (decide (property_key (pending_key p) = k)) as [<- | Hne].
  - rewrite lookup_insert_eq. intros [= <-]. exact (Hp p E).
  - rewrite lookup_insert_ne by exact Hne. apply Ho.
Qed.

Lemma handle_ok (ev : Event) (st : GridState) :
  store_ok st -> store_ok (handle ev st).
Proof.
  intros Hst. pose proof Hst as [Ho Hp].
  destruct ev; cbn [handle].
  - unfold handleCellActivate, handleCellClick.
    destruct (dragRef st) as [d|]; [destruct (moved d)|]; split; assumption.
  - unfold handleImageUpload.
    destruct file as [f|]; [|exact Hst].
    destruct (selectedCell st) as [sel|]; [|exact Hst].
    destruct (negb (truthy (Some sel))); [exact Hst|].
    destruct (negb (String.prefix "image/" (type f))); [exact Hst|].
    split; assumption.
  - destruct (readers st !! i) as [[sel f]|]; [|exact Hst].
    split; assumption.
  - unfold startDrag.
    destruct (negb (truthy (cellImages st !! key0))); [exact Hst|].
    split; assumption.
  - destruct (listeners st); [exact Hst|]. apply onMove_ok. exact Hst.
  - destruct (listeners st); [exact Hst|]. split; assumption.
  - destruct (rafIdRef st); [|exact Hst]. apply frame_callback_ok. exact Hst.
  - destruct (timeouts st); [exact Hst|]. split; assumption.
Qed.

Lemma run_ok (evs : list Event) :
  forall st, store_ok st -> store_ok (run evs st).
Proof.
  unfold run. induction evs as [|ev evs IH]; intros st Hst; cbn [fold_left].
  - exact Hst.
  - apply IH. apply handle_ok. exact Hst.
Qed.

Lemma run_app (evs1 evs2 : list Event) (st : GridState) :
  run (evs1 ++ evs2) st = run evs2 (run evs1 st).
Proof. unfold run. apply fold_left_app. Qed.

(** C5.  In any state the component can reach: pressing on a cell whose
    key has no image changes nothing; pressing on a cell with an image,
    moving and letting the frame run stores the start offset plus the
    travel, clamped to [0,100] on each axis (an attempted 150 is stored
    as 100 and an attempted -20 as 0); and every offset in the store lies
    in [0,100] on both axes. *)
Theorem pan_offset_clamped
    (evs : list Event) (key : string) (pageX pageY rectW rectH moveX moveY : Q) :
  Forall event_ok evs -> 0 < rectW -> 0 < rectH ->
  let st := run evs initialState in
  let current := default default_offset (cellOffsets st !! key) in
  let nx := x current + (moveX - pageX) / rectW * 100 in
  let ny := y current + (moveY - pageY) / rectH * 100 in
  let st' := run [PointerDown key pageX pageY rectW rectH;
                  PointerMove moveX moveY; AnimationFrame] st in
  (truthy (cellImages st !! key) = false ->
     startDrag key pageX pageY rectW rectH st = st)
  /\ (truthy (cellImages st !! key) = true ->
     cellOffsets st'
     = <[key := {| x := Math_max 0 (Math_min 100 nx);
                   y := Math_max 0 (Math_min 100 ny) |}]> (cellOffsets st))
  /\ in_range {| x := Math_max 0 (Math_min 100 nx); y := Math_max 0 (Math_min 100 ny) |}
  /\ Math_max 0 (Math_min 100 150) == 100
  /\ Math_max 0 (Math_min 100 (-20)) == 0
  /\ offsets_in_range st /\ offsets_in_range st'.
Proof.
  intros Hevs HW HH st current nx ny st'.
  assert (Hst : store_ok st) by (apply run_ok, initialState_ok).
  assert (Hst' : store_ok st') by (apply run_ok, Hst).
  split; [|split; [|split; [|split; [|split; [|split]]]]].
  - intros Hno. unfold startDrag. rewrite Hno. reflexivity.
  - intros Hyes. subst st'. unfold run. cbn [fold_left handle].
    unfold startDrag. rewrite Hyes. cbn [negb listeners].
    unfold onMove. cbn [dragRef rafIdRef].
    unfold frame_callback. cbn. reflexivity.
  - unfold in_range. cbn [x y].
    pose proof (clamp_range nx). pose proof (clamp_range ny). tauto.
  - apply clamp_above. lra.
  - apply clamp_below. lra.
  - apply Hst.
  - apply Hst'.
Qed.

Lemma pan_offset_clamped_witness :
  let f := {| type := "image/png"; dataURL := "data:image/png;base64,AAAA" |} in
  let st := run [Click "A"; FileChosen (Some f); ReaderLoaded 0%nat] initialState in
  truthy (cellImages st !! "A") = true
  /\ cellOffsets (run [PointerDown "A" 0 0 100 100; PointerMove 100 (-70); AnimationFrame] st)
     !! "A" = Some {| x := 100; y := 0 |}.
Proof.
  intros f st.
  assert (Hevs : Forall event_ok [Click "A"; FileChosen (Some f); ReaderLoaded 0%nat]).
  { repeat constructor. }
  assert (HW : 0 < 100) by reflexivity.
  destruct (pan_offset_clamped _ "A" 0 0 100 100 100 (-70) Hevs HW HW)
    as (_ & Hyes & _).
  split; [reflexivity|].
  fold st in Hyes. rewrite (Hyes eq_refl). vm_compute. reflexivity.
Defined.

(** ** Uploads *)

(** No step of an upload writes the offsets. *)
Lemma upload_step_keeps_offsets (ev : Event) (st : GridState) :
  upload_step ev -> cellOffsets (handle ev st) = cellOffsets st.
Proof.
  destruct ev; cbn [upload_step handle]; intros H; try contradiction.
  - unfold handleCellActivate, handleCellClick.
    destruct (dragRef st) as [d|]; [destruct (moved d)|]; reflexivity.
  - unfold handleImageUpload.
    destruct file as [f|]; [|reflexivity].
    destruct (selectedCell st) as [s|]; [|reflexivity].
    destruct (negb (truthy (Some s))); [reflexivity|].
    destruct (negb (String.prefix "image/" (type f))); reflexivity.
  - destruct (readers st !! i) as [[sel f]|]; reflexivity.
Qed.

Lemma upload_steps_keep_offsets (evs : list Event) :
  forall st, Forall upload_step evs -> cellOffsets (run evs st) = cellOffsets st.
Proof.
  unfold run. induction evs as [|ev evs IH]; intros st Hevs; cbn [fold_left].
  - reflexivity.
  - inversion Hevs as [|? ? Hev Hrest]; subst.
    rewrite IH by exact Hrest. apply upload_step_keeps_offsets. exact Hev.
Qed.

(** A click that is taken and a file that is accepted queue one read,
    behind the reads in flight, and change nothing that an upload looks
    at. *)
Lemma choose_file_spec (sel : string) (f : File) (st : GridState) :
  truthy (Some sel) = true -> String.prefix "image/" (type f) = true ->
  click_selects st ->
  let st' := run [Click sel; FileChosen (Some f)] st in
  readers st' = readers st ++ [(sel, f)]
  /\ cellImages st' = cellImages st
  /\ click_selects st'.
Proof.
  intros Hsel Hty Hclick st'. subst st'. unfold run. cbn [fold_left handle].
  assert (E : handleCellActivate sel st = handleCellClick sel st).
  { unfold handleCellActivate, click_selects in *.
    destruct (dragRef st) as [d|]; [rewrite Hclick|]; reflexivity. }
  rewrite E. unfold handleImageUpload, handleCellClick. cbn [selectedCell].
  rewrite Hsel, Hty. cbn [negb readers cellImages]. split; [reflexivity|].
  split; [reflexivity|]. exact Hclick.
Qed.

(** The end of the read at position [i]: its image is stored under the
    key selected when the file was chosen, and the read leaves the
    queue. *)
Lemma reader_loaded_spec (i : nat) (before after : list (string * File))
    (sel : string) (f : File) (st : GridState) :
  readers st = before ++ (sel, f) :: after -> length before = i ->
  let st' := handle (ReaderLoaded i) st in
  cellImages st' = <[sel := dataURL f]> (cellImages st)
  /\ readers st' = before ++ after
  /\ (click_selects st -> click_selects st').
Proof.
  intros Hrd Hlen st'. subst st'. cbn [handle].
  assert (Hi : readers st !! i = Some (sel, f)).
  { rewrite Hrd, <- Hlen. apply list_lookup_middle. reflexivity. }
  rewrite Hi. unfold reader_onload, forget_reader. cbn [cellImages readers].
  split; [reflexivity|]. split; [|auto].
  rewrite Hrd, <- Hlen.
  rewrite take_app_length.
  replace (S (length before)) with (length (before ++ [(sel, f)]))
    by (rewrite length_app; cbn; lia).
  change (before ++ (sel, f) :: after) with (before ++ [(sel, f)] ++ after).
  rewrite app_assoc, drop_app_length. reflexivity.
Qed.

Lemma upload_spec (sel : string) (f : File) (st : GridState) :
  truthy (Some sel) = true -> String.prefix "image/" (type f) = true ->
  click_selects st ->
  cellImages (upload sel f st) = <[sel := dataURL f]> (cellImages st)
  /\ cellOffsets (upload sel f st) = cellOffsets st
  /\ readers (upload sel f st) = readers st
  /\ click_selects (upload sel f st).
Proof.
  intros Hsel Hty Hclick.
  destruct (choose_file_spec sel f st Hsel Hty Hclick) as (Hrd & Him & Hc).
  unfold upload.
  change [Click sel; FileChosen (Some f); ReaderLoaded (length (readers st))]
    with ([Click sel; FileChosen (Some f)] ++ [ReaderLoaded (length (readers st))]).
  rewrite run_app.
  set (st1 := run [Click sel; FileChosen (Some f)] st) in *.
  change (run [ReaderLoaded (length (readers st))] st1)
    with (handle (ReaderLoaded (length (readers st))) st1).
  destruct (reader_loaded_spec (length (readers st)) (readers st) [] sel f st1
              Hrd eq_refl) as (Hi & Hr & Hk).
  split; [rewrite Hi, Him; reflexivity|].
  split.
  - apply (upload_steps_keep_offsets
             [Click sel; FileChosen (Some f); ReaderLoaded (length (readers st))]).
    repeat constructor.
  - split; [rewrite Hr; apply app_nil_r | exact (Hk Hc)].
Qed.

(** C6, as amended.  An upload stores the file's image under the selected
    key when its read ends, replacing what was there; of two uploads to
    a key the image left is that of the read that ends last: the second
    file's when the uploads follow one another or its read ends last,
    the first file's when the reads overlap and the first ends last.
    Reads already in flight for other files do not change this.  No step
    of an upload touches the offsets: an offset a key had stays, and a
    key without one still has none. *)
Theorem upload_last_read_wins_keeps_offsets
    (st : GridState) (sel : string) (f1 f2 : File) :
  truthy (Some sel) = true ->
  String.prefix "image/" (type f1) = true ->
  String.prefix "image/" (type f2) = true ->
  click_selects st ->
  let n := length (readers st) in
  let both := [Click sel; FileChosen (Some f1); Click sel; FileChosen (Some f2)] in
  cellImages (upload sel f1 st) = <[sel := dataURL f1]> (cellImages st)
  /\ cellImages (upload sel f2 (upload sel f1 st)) = <[sel := dataURL f2]> (cellImages st)
  /\ cellImages (run (both ++ [ReaderLoaded n; ReaderLoaded n]) st)
     = <[sel := dataURL f2]> (cellImages st)
  /\ cellImages (run (both ++ [ReaderLoaded (S n); ReaderLoaded n]) st)
     = <[sel := dataURL f1]> (cellImages st)
  /\ (forall (evs : list Event) (st' : GridState),
        Forall upload_step evs ->
        cellOffsets (run evs st') = cellOffsets st'
        /\ forall k, cellOffsets (run evs st') !! k = cellOffsets st' !! k).
Proof.
  intros Hsel H1 H2 Hclick n both.
  destruct (upload_spec sel f1 st Hsel H1 Hclick) as (I1 & _ & R1 & C1).
  destruct (upload_spec sel f2 (upload sel f1 st) Hsel H2 C1) as (I2 & _ & _ & _).
  split; [exact I1|].
  split; [rewrite I2, I1; apply insert_insert_eq|].
  destruct (choose_file_spec sel f1 st Hsel H1 Hclick) as (Ra & Ia & Ca).
  set (sa := run [Click sel; FileChosen (Some f1)] st) in *.
  destruct (choose_file_spec sel f2 sa Hsel H2 Ca) as (Rb & Ib & Cb).
  assert (Eb : run both st = run [Click sel; FileChosen (Some f2)] sa) by reflexivity.
  set (sb := run [Click sel; FileChosen (Some f2)] sa) in *.
  rewrite Ra in Rb. rewrite Ia in Ib.
  split; [|split].
  - rewrite run_app, Eb.
    change (run [ReaderLoaded n; ReaderLoaded n] sb)
      with (handle (ReaderLoaded n) (handle (ReaderLoaded n) sb)).
    destruct (reader_loaded_spec n (readers st) [(sel, f2)] sel f1 sb)
      as (Ic & Rc & _); [rewrite Rb, <- app_assoc; reflexivity | reflexivity |].
    destruct (reader_loaded_spec n (readers st) [] sel f2 (handle (ReaderLoaded n) sb))
      as (Id & _ & _); [exact Rc | reflexivity |].
    rewrite Id, Ic, Ib. apply insert_insert_eq.
  - rewrite run_app, Eb.
    change (run [ReaderLoaded (S n); ReaderLoaded n] sb)
      with (handle (ReaderLoaded n) (handle (ReaderLoaded (S n)) sb)).
    destruct (reader_loaded_spec (S n) (readers st ++ [(sel, f1)]) [] sel f2 sb)
      as (Ic & Rc & _);
      [exact Rb | rewrite length_app; cbn; unfold n; lia |].
    rewrite app_nil_r in Rc.
    destruct (reader_loaded_spec n (readers st) [] sel f1
                (handle (ReaderLoaded (S n)) sb))
      as (Id & _ & _); [exact Rc | reflexivity |].
    rewrite Id, Ic, Ib. apply insert_insert_eq.
  - intros evs st' Hevs.
    pose proof (upload_steps_keep_offsets evs st' Hevs) as E.
    split; [exact E|]. intros k. rewrite E. reflexivity.
Qed.

Lemma upload_last_read_wins_keeps_offsets_witness :
  let f0 := {| type := "image/png"; dataURL := "data:image/png;base64,0000" |} in
  let f1 := {| type := "image/png"; dataURL := "data:image/png;base64,AAAA" |} in
  let f2 := {| type := "image/jpeg"; dataURL := "data:image/jpeg;base64,BBBB" |} in
  let g := {| type := "image/png"; dataURL := "data:image/png;base64,CCCC" |} in
  let st := run [Click "A"; FileChosen (Some f0); ReaderLoaded 0%nat;
                 PointerDown "A" 0 0 100 100; PointerMove 10 10; AnimationFrame;
                 PointerUp; Click "A"; Click "B"; FileChosen (Some g)]
              initialState in
  let both := [Click "A"; FileChosen (Some f1); Click "A"; FileChosen (Some f2)] in
  readers st = [("B", g)]
  /\ cellImages st !! "A" = Some (dataURL f0)
  /\ is_Some (cellOffsets st !! "A")
  /\ cellOffsets st !! "C" = None
  /\ cellImages (upload "A" f2 (upload "A" f1 st)) !! "A" = Some (dataURL f2)
  /\ cellImages (run (both ++ [ReaderLoaded 2%nat; ReaderLoaded 1%nat]) st) !! "A"
     = Some (dataURL f1)
  /\ cellOffsets (upload "A" f2 (upload "A" f1 st)) !! "A" = cellOffsets st !! "A"
  /\ cellOffsets (upload "C" f2 st) !! "C" = None.
Proof.
  intros f0 f1 f2 g st both.
  destruct (upload_last_read_wins_keeps_offsets st "A" f1 f2
              eq_refl eq_refl eq_refl eq_refl) as (_ & Hseq & _ & Hrace & Hoff).
  split; [reflexivity|]. split; [reflexivity|].
  split; [eexists; vm_compute; reflexivity|]. split; [reflexivity|].
  split; [rewrite Hseq; apply lookup_insert_eq|].
  split; [exact (eq_trans (f_equal (fun m => m !! "A") Hrace) (lookup_insert_eq _ _ _))|].
  split.
  - transitivity (cellOffsets (upload "A" f1 st) !! "A"); unfold upload;
      apply Hoff; repeat constructor.
  - transitivity (cellOffsets st !! "C"); [|reflexivity].
    unfold upload. apply Hoff. repeat constructor.
Defined.

(** C6 as stated fails when the two reads overlap: the file chosen first
    is the larger, its read ends after the second file's, and its image
    is the one that stays although both uploads are over. *)
Lemma second_upload_can_lose :
  let f1 := {| type := "image/png"; dataURL := "data:image/png;base64,AAAA" |} in
  let f2 := {| type := "image/jpeg"; dataURL := "data:image/jpeg;base64,BBBB" |} in
  let st := run [Click "A"; FileChosen (Some f1); Click "A"; FileChosen (Some f2);
                 ReaderLoaded 1%nat; ReaderLoaded 0%nat] initialState in
  readers st = []
  /\ cellImages st !! "A" = Some (dataURL f1)
  /\ cellImages st !! "A" <> Some (dataURL f2).
Proof.
  intros f1 f2 st. split; [reflexivity|]. split; [reflexivity|].
  vm_compute. discriminate.
Qed.

(** ** The cropper: fallback *)

Section FaceCropFacts.
Import FaceCrop FaceCropSpec.

(** C7.  When the models fail to load, or the detector throws, or it
    returns no detection, [centerCropFace] returns the object URL of the
    very file it was given, and does not throw. *)
Theorem centerCropFace_fallback
    (api : FaceApi) (env : Browser) (modelsLoadedPromise : option bool)
    (imgFile : File) (containerWidth containerHeight : Z) :
  fallback_cause api env modelsLoadedPromise imgFile ->
  snd (centerCropFace api env modelsLoadedPromise imgFile containerWidth containerHeight)
  = Return (ObjectURL imgFile).
Proof.
  intros Hcause. unfold centerCropFace.
  destruct Hcause as [Hload | img source sf Hload Himg Hpre Hdet
                            | img source sf Hload Himg Hpre Hdet];
    destruct (ensureModelsLoaded api modelsLoadedPromise) as [promise loaded];
    cbn [snd] in *; subst loaded; cbn [negb].
  - reflexivity.
  - rewrite Himg, Hpre. cbn. rewrite Hdet. reflexivity.
  - rewrite Himg, Hpre. cbn. rewrite Hdet. reflexivity.
Qed.

Lemma centerCropFace_fallback_witness :
  let imgFile := {| type := "image/jpeg"; dataURL := "data:image/jpeg;base64,AAAA" |} in
  let img := {| width := 2000; height := 1000; src := "blob:face" |} in
  let env := {| getContext := true; loadImage := fun _ => None |} in
  let throwing := {| loadFromUri := true;
                     bufferToImage := fun _ => Some img;
                     detectAllFaces := fun _ _ => None |} in
  let blind := {| loadFromUri := true;
                  bufferToImage := fun _ => Some img;
                  detectAllFaces := fun _ _ => Some [] |} in
  let offline := {| loadFromUri := false;
                    bufferToImage := fun _ => None;
                    detectAllFaces := fun _ _ => None |} in
  snd (centerCropFace throwing env None imgFile 300 300) = Return (ObjectURL imgFile)
  /\ snd (centerCropFace blind env None imgFile 300 300) = Return (ObjectURL imgFile)
  /\ snd (centerCropFace offline env None imgFile 300 300) = Return (ObjectURL imgFile).
Proof.
  intros imgFile img env throwing blind offline.
  split; [|split].
  - apply centerCropFace_fallback.
    eapply detector_threw with (img := img); reflexivity.
  - apply centerCropFace_fallback.
    eapply no_detections with (img := img); reflexivity.
  - apply centerCropFace_fallback.
    apply model_load_failed. reflexivity.
Defined.

(** A failed load is remembered: later calls fall back without trying
    again. *)
Lemma failed_load_is_sticky (api api' : FaceApi) (env : Browser) (imgFile : File)
    (w h : Z) :
  loadFromUri api = false ->
  let promise := fst (centerCropFace api env None imgFile w h) in
  promise = Some false
  /\ centerCropFace api' env promise imgFile w h = (Some false, Return (ObjectURL imgFile)).
Proof.
  intros Hload. unfold centerCropFace. cbn. rewrite Hload. split; reflexivity.
Qed.

(** ** The cropper: choice of the face *)

Lemma head_sort_insert {A : Type} (compareFn : A -> A -> Q) (a : A) (l : list A) :
  head (sort_insert compareFn a l)
  = Some match head l with
         | Some b => if Qlt_le_dec 0 (compareFn a b) then b else a
         | None => a
         end.
Proof.
  destruct l as [|b rest]; cbn; [reflexivity|].
  destruct (Qlt_le_dec 0 (compareFn a b)); reflexivity.
Qed.

Lemma sort_insert_Permutation {A : Type} (compareFn : A -> A -> Q) (a : A) (l : list A) :
  Permutation (a :: l) (sort_insert compareFn a l).
Proof.
  induction l as [|b rest IH]; cbn; [reflexivity|].
  destruct (Qlt_le_dec 0 (compareFn a b)); [|reflexivity].
  rewrite perm_swap. apply perm_skip. exact IH.
Qed.

(** The model of [sort] rearranges the array and loses nothing. *)
Lemma Array_sort_Permutation {A : Type} (compareFn : A -> A -> Q) (l : list A) :
  Permutation l (Array_sort compareFn l).
Proof.
  induction l as [|a l IH]; cbn; [reflexivity|].
  rewrite <- sort_insert_Permutation. apply perm_skip. exact IH.
Qed.

Lemma sort_insert_Sorted (a : FaceDetection) (l : list FaceDetection) :
  Sorted (fun d e => area e <= area d) l ->
  Sorted (fun d e => area e <= area d) (sort_insert by_area_desc a l).
Proof.
  induction l as [|b rest IH]; intros Hs; cbn.
  - repeat constructor.
  - destruct (Qlt_le_dec 0 (by_area_desc a b)) as [Hlt | Hle];
      unfold by_area_desc in *.
    + inversion Hs as [|? ? Hrest Hhd]; subst.
      constructor; [apply IH; exact Hrest|].
      destruct rest as [|c rest']; cbn.
      * constructor. lra.
      * destruct (Qlt_le_dec 0 (area c - area a)); constructor;
          [inversion Hhd; subst; assumption | lra].
    + constructor; [exact Hs|]. constructor. lra.
Qed.

(** ... and leaves it in order of non-increasing area. *)
Lemma Array_sort_Sorted (l : list FaceDetection) :
  Sorted (fun d e => area e <= area d) (Array_sort by_area_desc l).
Proof.
  induction l as [|a l IH]; cbn; [constructor|].
  apply sort_insert_Sorted. exact IH.
Qed.

(** Of a non-empty list of detections, the element [sort(...)[0]]
    has the largest bounding-box area, and every detection before it in
    the detector's order has a strictly smaller area. *)
Lemma bestDetection_spec (detections : list FaceDetection) :
  detections <> [] ->
  exists best before after,
    bestDetection detections = Some best
    /\ detections = before ++ best :: after
    /\ (forall d, In d before -> area d < area best)
    /\ (forall d, In d after -> area d <= area best).
Proof.
  unfold bestDetection.
  induction detections as [|a l IH]; [congruence|]. intros _.
  cbn [Array_sort fold_right]. fold (Array_sort by_area_desc l).
  rewrite head_sort_insert.
  destruct l as [|b l'].
  - exists a, [], []. cbn. repeat split; intros d [].
  - destruct IH as (best & before & after & Hbest & Hsplit & Hbefore & Hafter);
      [discriminate|].
    rewrite Hbest.
    destruct (Qlt_le_dec 0 (by_area_desc a best)) as [Hlt | Hle];
      unfold by_area_desc in *.
    + exists best, (a :: before), after.
      split; [reflexivity|]. split; [rewrite Hsplit; reflexivity|].
      split; [|exact Hafter].
      intros d [<- | Hd]; [lra | auto].
    + exists a, [], (b :: l').
      split; [reflexivity|]. split; [reflexivity|].
      split; [intros d []|].
      intros d Hd. rewrite Hsplit in Hd. apply in_app_or in Hd.
      destruct Hd as [Hd | [<- | Hd]].
      * apply Hbefore in Hd. lra.
      * lra.
      * apply Hafter in Hd. lra.
Qed.

End FaceCropFacts.

(** ** The cropper: downscaling for detection *)

Section PrescaleFacts.
Import FaceCrop FaceCropSpec.

Lemma aspect_pos (img : HTMLImageElement) :
  (0 < width img)%Z -> (0 < height img)%Z -> 0 < aspect img.
Proof.
  intros Hw Hh. unfold aspect.
  assert (Hqw : 0 < inject_Z (width img)) by (rewrite <- (Zlt_Qlt 0); exact Hw).
  assert (Hqh : 0 < inject_Z (height img)) by (rewrite <- (Zlt_Qlt 0); exact Hh).
  apply Qlt_shift_div_l; lra.
Qed.

Lemma aspect_lt_1 (img : HTMLImageElement) :
  (0 < height img)%Z -> (aspect img < 1 <-> (width img < height img)%Z).
Proof.
  intros Hh. unfold aspect.
  assert (Hq : 0 < inject_Z (height img)) by (rewrite <- (Zlt_Qlt 0); exact Hh).
  rewrite <- (Qmult_lt_r _ _ _ Hq).
  assert (E : inject_Z (width img) / inject_Z (height img) * inject_Z (height img)
              == inject_Z (width img)) by (field; lra).
  rewrite E, Qmult_1_l, <- Zlt_Qlt. reflexivity.
Qed.

Lemma targets_wide (img : HTMLImageElement) :
  (0 < width img)%Z -> (0 < height img)%Z -> (height img <= width img)%Z ->
  targetWidth img = Z.min (width img) MAX_SIZE
  /\ targetHeight img
     = Math_round (inject_Z MAX_SIZE * inject_Z (height img) / inject_Z (width img))
  /\ (targetHeight img <= MAX_SIZE)%Z.
Proof.
  intros Hw Hh Hle. unfold targetWidth, targetHeight.
  pose proof (aspect_pos img Hw Hh) as Hpos.
  destruct (Qlt_le_dec (aspect img) 1) as [Hlt | Hge].
  - apply aspect_lt_1 in Hlt; [lia | exact Hh].
  - assert (Hqw : 0 < inject_Z (width img)) by (rewrite <- (Zlt_Qlt 0); exact Hw).
    assert (Hqh : 0 < inject_Z (height img)) by (rewrite <- (Zlt_Qlt 0); exact Hh).
    split; [reflexivity|]. split.
    + apply Math_round_comp. unfold aspect. field. split; lra.
    + rewrite <- (Math_round_Z MAX_SIZE) at 2. apply Math_round_mono.
      apply Qle_shift_div_r; [exact Hpos|].
      change (inject_Z MAX_SIZE) with 640. lra.
Qed.

Lemma targets_tall (img : HTMLImageElement) :
  (0 < width img)%Z -> (0 < height img)%Z -> (width img < height img)%Z ->
  targetHeight img = Z.min (height img) MAX_SIZE
  /\ targetWidth img
     = Math_round (inject_Z MAX_SIZE * inject_Z (width img) / inject_Z (height img))
  /\ (targetWidth img <= MAX_SIZE)%Z.
Proof.
  intros Hw Hh Hlt. unfold targetWidth, targetHeight.
  pose proof (aspect_pos img Hw Hh) as Hpos.
  destruct (Qlt_le_dec (aspect img) 1) as [Hlt1 | Hge].
  - assert (Hqh : 0 < inject_Z (height img)) by (rewrite <- (Zlt_Qlt 0); exact Hh).
    split; [reflexivity|]. split.
    + apply Math_round_comp. unfold aspect. field. lra.
    + rewrite <- (Math_round_Z MAX_SIZE) at 2. apply Math_round_mono.
      change (inject_Z MAX_SIZE) with 640. lra.
  - exfalso. apply (Qle_not_lt _ _ Hge). apply aspect_lt_1; assumption.
Qed.

Lemma prescale_small (env : Browser) (img : HTMLImageElement) :
  needs_downscale img = false -> prescale env img = Return (OfImage img, 1).
Proof. intros H. unfold prescale. rewrite H. reflexivity. Qed.

(** On the way to a framed face, the box framed is the chosen detection's
    box rescaled by the factor [prescale] recorded. *)
Lemma centerCropFace_frames_rescaled_box
    (api : FaceApi) (env : Browser) (modelsLoadedPromise : option bool) (imgFile : File)
    (w h : Z) (img : HTMLImageElement) (source : DetectSource) (scaleFactor : Q)
    (detections : list FaceDetection) (best : FaceDetection) :
  snd (ensureModelsLoaded api modelsLoadedPromise) = true ->
  bufferToImage api imgFile = Some img ->
  prescale env img = Return (source, scaleFactor) ->
  detectAllFaces api source (2 # 10) = Some detections ->
  bestDetection detections = Some best ->
  snd (centerCropFace api env modelsLoadedPromise imgFile w h)
  = (canvas ← frame env img (rescale (detection_box best) scaleFactor) w h;
     Return (PngDataURL canvas)).
Proof.
  intros Hload Himg Hpre Hdet Hbest. unfold centerCropFace.
  destruct (ensureModelsLoaded api modelsLoadedPromise) as [promise loaded].
  cbn [snd] in *. subst loaded. cbn [negb].
  rewrite Himg, Hpre. cbn. rewrite Hdet.
  destruct detections as [|d ds]; [discriminate Hbest|].
  cbn [length Nat.eqb]. rewrite Hbest. reflexivity.
Qed.

(** C8.  When the detector returns detections, the face [centerCropFace]
    frames is the detection with the largest bounding-box area, and of
    several with that area the first in the detector's order: every
    detection before it is strictly smaller, none after it is larger, and
    the PNG returned is the framing of its box (mapped back by the scale
    factor) and of no other. *)
Theorem centerCropFace_frames_first_largest
    (api : FaceApi) (env : Browser) (modelsLoadedPromise : option bool) (imgFile : File)
    (w h : Z) (img : HTMLImageElement) (source : DetectSource) (scaleFactor : Q)
    (detections : list FaceDetection) :
  snd (ensureModelsLoaded api modelsLoadedPromise) = true ->
  bufferToImage api imgFile = Some img ->
  prescale env img = Return (source, scaleFactor) ->
  detectAllFaces api source (2 # 10) = Some detections ->
  detections <> [] ->
  exists best before after,
    detections = before ++ best :: after
    /\ (forall d, In d before -> area d < area best)
    /\ (forall d, In d after -> area d <= area best)
    /\ snd (centerCropFace api env modelsLoadedPromise imgFile w h)
       = (canvas ← frame env img (rescale (detection_box best) scaleFactor) w h;
          Return (PngDataURL canvas)).
Proof.
  intros Hload Himg Hpre Hdet Hne.
  destruct (bestDetection_spec detections Hne)
    as (best & before & after & Hbest & Hsplit & Hbefore & Hafter).
  exists best, before, after.
  split; [exact Hsplit|]. split; [exact Hbefore|]. split; [exact Hafter|].
  eapply centerCropFace_frames_rescaled_box; eassumption.
Qed.

Lemma centerCropFace_frames_first_largest_witness :
  let imgFile := {| type := "image/jpeg"; dataURL := "data:image/jpeg;base64,AAAA" |} in
  let img := {| width := 400; height := 300; src := "blob:faces" |} in
  let env := {| getContext := true; loadImage := fun _ => None |} in
  let face x y w h := {| detection_box := {| box_x := x; box_y := y;
                                             box_width := w; box_height := h |} |} in
  let small := face 0 0 10 10 in
  let wide := face 100 50 20 10 in
  let tall := face 200 100 10 20 in
  let api := {| loadFromUri := true;
                bufferToImage := fun _ => Some img;
                detectAllFaces := fun _ _ => Some [small; wide; tall] |} in
  area wide == area tall
  /\ snd (centerCropFace api env None imgFile 200 200)
     = (canvas ← frame env img (rescale (detection_box wide) 1) 200 200;
        Return (PngDataURL canvas))
  /\ snd (centerCropFace api env None imgFile 200 200)
     <> (canvas ← frame env img (rescale (detection_box small) 1) 200 200;
         Return (PngDataURL canvas))
  /\ snd (centerCropFace api env None imgFile 200 200)
     <> (canvas ← frame env img (rescale (detection_box tall) 1) 200 200;
         Return (PngDataURL canvas)).
Proof.
  intros imgFile img env face small wide tall api.
  destruct (centerCropFace_frames_first_largest api env None imgFile 200 200 img
              (OfImage img) 1 [small; wide; tall]
              eq_refl eq_refl eq_refl eq_refl ltac:(discriminate))
    as (best & before & after & Hsplit & Hbefore & Hafter & Hres).
  assert (Hbest : best = wide).
  { destruct before as [|b1 [|b2 [|b3 rest]]]; cbn [app] in Hsplit.
    - injection Hsplit as <- <-. exfalso.
      assert (H : area wide <= area small) by (apply Hafter; left; reflexivity).
      apply (Qle_not_lt _ _ H). reflexivity.
    - injection Hsplit as _ <- _. reflexivity.
    - injection Hsplit as _ <- <- _. exfalso.
      assert (H : area wide < area tall) by (apply Hbefore; right; left; reflexivity).
      apply (Qlt_irrefl (area wide)). exact H.
    - exfalso. injection Hsplit as _ _ _ Hnil.
      destruct rest; discriminate Hnil. }
  subst best. split; [reflexivity|]. split; [exact Hres|].
  rewrite Hres. split; intros H; vm_compute in H; discriminate H.
Defined.

(** ** The cropper: the detection copy *)

Lemma Math_round_ratio (a b : Z) :
  (0 < b)%Z -> Math_round (inject_Z a / inject_Z b) = ((2 * a + b) / (2 * b))%Z.
Proof.
  intros Hb. unfold Math_round.
  assert (Hq : 0 < inject_Z b) by (rewrite <- (Zlt_Qlt 0); exact Hb).
  rewrite (Qfloor_comp _ (inject_Z (2 * a + b) / inject_Z (2 * b))).
  - symmetry. apply Zdiv_Qdiv.
  - rewrite inject_Z_plus, !inject_Z_mult. change (inject_Z 2) with 2. field. lra.
Qed.

(** The sizes of the detection copy: the larger side is 640 and the other
    side is within half a pixel of the proportional size. *)
Lemma target_sizes (img : HTMLImageElement) :
  (0 < width img)%Z -> (0 < height img)%Z -> needs_downscale img = true ->
  Z.max (targetWidth img) (targetHeight img) = 640%Z
  /\ ((height img <= width img)%Z ->
      targetWidth img = 640%Z
      /\ (- width img <= 2 * (targetHeight img * width img - 640 * height img)
          <= width img)%Z)
  /\ ((width img < height img)%Z ->
      targetHeight img = 640%Z
      /\ (- height img <= 2 * (targetWidth img * height img - 640 * width img)
          <= height img)%Z).
Proof.
  intros Hw Hh Hneed.
  unfold needs_downscale, MAX_SIZE in Hneed. rewrite orb_true_iff, !Z.ltb_lt in Hneed.
  assert (Hwide : (height img <= width img)%Z ->
                  targetWidth img = 640%Z
                  /\ (targetHeight img <= 640)%Z
                  /\ (- width img <= 2 * (targetHeight img * width img - 640 * height img)
                      <= width img)%Z).
  { intros Hc. destruct (targets_wide img Hw Hh Hc) as (E1 & E2 & E3).
    unfold MAX_SIZE in *.
    rewrite <- inject_Z_mult in E2. rewrite Math_round_ratio in E2 by exact Hw.
    split; [lia|]. split; [exact E3|].
    rewrite E2.
    pose proof (Z.div_mod (2 * (640 * height img) + width img) (2 * width img)
                  ltac:(lia)) as Hdiv.
    pose proof (Z.mod_pos_bound (2 * (640 * height img) + width img) (2 * width img)
                  ltac:(lia)) as Hmod.
    set (q := ((2 * (640 * height img) + width img) / (2 * width img))%Z) in *.
    set (m := ((2 * (640 * height img) + width img) mod (2 * width img))%Z) in *.
    lia. }
  assert (Htall : (width img < height img)%Z ->
                  targetHeight img = 640%Z
                  /\ (targetWidth img <= 640)%Z
                  /\ (- height img <= 2 * (targetWidth img * height img - 640 * width img)
                      <= height img)%Z).
  { intros Hc. destruct (targets_tall img Hw Hh Hc) as (E1 & E2 & E3).
    unfold MAX_SIZE in *.
    rewrite <- inject_Z_mult in E2. rewrite Math_round_ratio in E2 by exact Hh.
    split; [lia|]. split; [exact E3|].
    rewrite E2.
    pose proof (Z.div_mod (2 * (640 * width img) + height img) (2 * height img)
                  ltac:(lia)) as Hdiv.
    pose proof (Z.mod_pos_bound (2 * (640 * width img) + height img) (2 * height img)
                  ltac:(lia)) as Hmod.
    set (q := ((2 * (640 * width img) + height img) / (2 * height img))%Z) in *.
    set (m := ((2 * (640 * width img) + height img) mod (2 * height img))%Z) in *.
    lia. }
  split; [|split].
  - destruct (Z_le_gt_dec (height img) (width img)) as [Hc | Hc].
    + destruct (Hwide Hc) as (-> & ? & _). lia.
    + destruct (Htall ltac:(lia)) as (-> & ? & _). lia.
  - intros Hc. destruct (Hwide Hc) as (? & _ & ?). auto.
  - intros Hc. destruct (Htall Hc) as (? & _ & ?). auto.
Qed.

(** C9.  For an image with a side over 640, [centerCropFace] runs the
    detector on a copy of the image and on nothing else: a canvas onto
    which the whole image is drawn, whose larger side is 640 and whose
    other side is the proportional size to within half a pixel.
    [scaleFactor] is the copy's width over the original's, and the box
    framed is the selected detection's box with x, y, width and height
    each multiplied by [1 / scaleFactor].  The image is taken to be less
    than 1280 times as high as wide: the copy of a thinner one has width
    0 and the factor 0. *)
Theorem centerCropFace_detects_on_downscaled_copy
    (api : FaceApi) (env : Browser) (modelsLoadedPromise : option bool) (imgFile : File)
    (containerWidth containerHeight : Z) (img : HTMLImageElement) :
  snd (ensureModelsLoaded api modelsLoadedPromise) = true ->
  bufferToImage api imgFile = Some img ->
  (0 < width img)%Z -> (0 < height img)%Z ->
  (height img < 1280 * width img)%Z ->
  needs_downscale img = true -> getContext env = true ->
  exists (off : Canvas) (scaleFactor : Q),
    ops off = [DrawImage img (whole img)
                 {| dx := 0; dy := 0;
                    dw := inject_Z (cwidth off); dh := inject_Z (cheight off) |}]
    /\ Z.max (cwidth off) (cheight off) = 640%Z
    /\ ((height img <= width img)%Z ->
        cwidth off = 640%Z
        /\ (- width img <= 2 * (cheight off * width img - 640 * height img)
            <= width img)%Z)
    /\ ((width img < height img)%Z ->
        cheight off = 640%Z
        /\ (- height img <= 2 * (cwidth off * height img - 640 * width img)
            <= height img)%Z)
    /\ scaleFactor == inject_Z (cwidth off) / inject_Z (width img)
    /\ 0 < scaleFactor
    /\ snd (centerCropFace api env modelsLoadedPromise imgFile
              containerWidth containerHeight)
       = match detectAllFaces api (OfCanvas off) (2 # 10) with
         | None | Some [] => Return (ObjectURL imgFile)
         | Some detections =>
           match bestDetection detections with
           | Some best =>
             let detBox := detection_box best in
             let inv := 1 / scaleFactor in
             canvas ← frame env img
                        {| box_x := box_x detBox * inv;
                           box_y := box_y detBox * inv;
                           box_width := box_width detBox * inv;
                           box_height := box_height detBox * inv |}
                        containerWidth containerHeight;
             Return (PngDataURL canvas)
           | None => Throw "TypeError: bestDetection is undefined"
           end
         end.
Proof.
  intros Hload Himg Hw Hh Hthin Hneed Hctx.
  destruct (target_sizes img Hw Hh Hneed) as (Hmax & Hwide & Htall).
  exists (issue (DrawImage img (whole img)
                   {| dx := 0; dy := 0;
                      dw := inject_Z (targetWidth img);
                      dh := inject_Z (targetHeight img) |})
            (createCanvas (targetWidth img) (targetHeight img))),
         (inject_Z (targetWidth img) / inject_Z (width img)).
  cbn [issue createCanvas ops cwidth cheight app].
  split; [reflexivity|]. split; [exact Hmax|].
  split; [exact Hwide|]. split; [exact Htall|]. split; [reflexivity|].
  split.
  { assert (Hqw : 0 < inject_Z (width img)) by (rewrite <- (Zlt_Qlt 0); exact Hw).
    assert (Htw : (1 <= targetWidth img)%Z).
    { destruct (Z_le_gt_dec (height img) (width img)) as [Hc | Hc].
      - destruct (Hwide Hc) as [-> _]. lia.
      - destruct (Htall ltac:(lia)) as [_ Hb].
        assert (Hpos : (0 < targetWidth img * height img)%Z) by lia.
        nia. }
    apply Qlt_shift_div_l; [exact Hqw|].
    rewrite Qmult_0_l. rewrite <- (Zlt_Qlt 0). lia. }
  unfold centerCropFace.
  destruct (ensureModelsLoaded api modelsLoadedPromise) as [promise loaded].
  cbn [snd] in *. subst loaded. cbn [negb].
  rewrite Himg. unfold prescale. rewrite Hneed, Hctx. cbn [negb].
  cbn [mbind Completion_bind issue createCanvas ops cwidth cheight app].
  destruct (detectAllFaces api _ (2 # 10)) as [[|d ds]|]; reflexivity.
Qed.

Lemma centerCropFace_detects_on_downscaled_copy_witness :
  let imgFile := {| type := "image/jpeg"; dataURL := "data:image/jpeg;base64,AAAA" |} in
  let img := {| width := 2000; height := 1000; src := "blob:face" |} in
  let env := {| getContext := true; loadImage := fun _ => None |} in
  let face := {| detection_box := {| box_x := 100; box_y := 100;
                                     box_width := 50; box_height := 50 |} |} in
  let api := {| loadFromUri := true;
                bufferToImage := fun _ => Some img;
                detectAllFaces := fun source _ =>
                  match source with
                  | OfCanvas off =>
                    if ((cwidth off =? 640) && (cheight off =? 320))%Z
                    then Some [face] else Some []
                  | OfImage _ => Some []
                  end |} in
  exists (off : Canvas) (scaleFactor : Q) (box : Box),
    cwidth off = 640%Z /\ cheight off = 320%Z
    /\ scaleFactor == 32 # 100
    /\ Box_eq box {| box_x := 625 # 2; box_y := 625 # 2;
                     box_width := 625 # 4; box_height := 625 # 4 |}
    /\ snd (centerCropFace api env None imgFile 300 300)
       = (canvas ← frame env img box 300 300; Return (PngDataURL canvas)).
Proof.
  intros imgFile img env face api.
  destruct (centerCropFace_detects_on_downscaled_copy api env None imgFile 300 300 img
              eq_refl eq_refl eq_refl eq_refl eq_refl eq_refl eq_refl)
    as (off & scaleFactor & _ & _ & Hwide & _ & Hsf & _ & Hres).
  destruct (Hwide ltac:(cbn; lia)) as [Hcw Hch].
  cbn [width height img] in Hch.
  assert (Hch' : cheight off = 320%Z) by lia.
  assert (Hsf' : scaleFactor == 32 # 100).
  { rewrite Hsf, Hcw. reflexivity. }
  cbn [detectAllFaces api] in Hres. rewrite Hcw, Hch' in Hres.
  cbn [Z.eqb Pos.eqb andb] in Hres.
  unfold bestDetection in Hres. cbn [Array_sort fold_right sort_insert head] in Hres.
  exists off, scaleFactor. eexists.
  split; [exact Hcw|]. split; [exact Hch'|]. split; [exact Hsf'|].
  split; [|exact Hres].
  unfold Box_eq. cbn [box_x box_y box_width box_height detection_box face].
  rewrite Hsf'. repeat split; reflexivity.
Defined.

End PrescaleFacts.

(** ** The cropper: the framed output *)

Section FrameFacts.
Import FaceCrop FaceCropSpec.

Lemma frame_canvas (env : Browser) (img : HTMLImageElement) (box : Box)
    (w h : Z) (canvas : Canvas) :
  frame env img box w h = Return canvas ->
  exists dst, canvas = {| cwidth := w; cheight := h;
                          ops := [DrawImage img (whole img) dst] |}.
Proof.
  unfold frame. destruct (negb (getContext env)); [discriminate|].
  intros [= <-]. eexists. reflexivity.
Qed.

(** A canvas with a single draw call on it is transparent wherever the
    call's extent does not reach. *)
Lemma single_draw_transparent_outside
    (Color : Type) (transparent : Color)
    (deposit : CanvasOp -> Z -> Z -> Color -> Color)
    (w h : Z) (op : CanvasOp) (px py : Z) :
  touches (op_dst op) px py = false ->
  pixel_at Color transparent deposit {| cwidth := w; cheight := h; ops := [op] |} px py
  = transparent.
Proof.
  intros H. unfold pixel_at, pixels_of. cbn [ops fold_left].
  apply paint_untouched. exact H.
Qed.

(** C10.  When [centerCropFace] returns a framed face, the canvas it
    encodes has the container's size and a single call on it, the
    [drawImage] of the original image: no fill precedes it, so every
    pixel the drawn image's extent does not reach is still the
    transparent colour of a fresh canvas. *)
Theorem framed_canvas_transparent_outside_image
    (api : FaceApi) (env : Browser) (modelsLoadedPromise : option bool) (imgFile : File)
    (containerWidth containerHeight : Z) (canvas : Canvas) :
  snd (centerCropFace api env modelsLoadedPromise imgFile containerWidth containerHeight)
  = Return (PngDataURL canvas) ->
  cwidth canvas = containerWidth
  /\ cheight canvas = containerHeight
  /\ exists img dst,
       bufferToImage api imgFile = Some img
       /\ ops canvas = [DrawImage img (whole img) dst]
       /\ (forall fillStyle r, ~ In (FillRect fillStyle r) (ops canvas))
       /\ forall (Color : Type) (transparent : Color)
                 (deposit : CanvasOp -> Z -> Z -> Color -> Color) (px py : Z),
            touches dst px py = false ->
            pixel_at Color transparent deposit canvas px py = transparent.
Proof.
  unfold centerCropFace.
  destruct (ensureModelsLoaded api modelsLoadedPromise) as [promise loaded].
  cbn [snd]. destruct loaded; cbn [negb]; [|discriminate].
  destruct (bufferToImage api imgFile) as [img|]; [|discriminate].
  destruct (prescale env img) as [[source scaleFactor]|e]; cbn; [|discriminate].
  destruct (detectAllFaces api source (2 # 10)) as [detections|]; [|discriminate].
  destruct (length detections =? 0)%nat; [discriminate|].
  destruct (bestDetection detections) as [best|]; [|discriminate].
  destruct (frame env img (rescale (detection_box best) scaleFactor)
              containerWidth containerHeight) as [cv|e] eqn:Hframe; cbn; [|discriminate].
  intros [= <-].
  apply frame_canvas in Hframe. destruct Hframe as [dst ->].
  split; [reflexivity|]. split; [reflexivity|].
  exists img, dst. split; [reflexivity|]. split; [reflexivity|]. split.
  - intros fillStyle r [H | []]. discriminate H.
  - intros Color transparent deposit px py Hout.
    apply (single_draw_transparent_outside Color transparent deposit
             containerWidth containerHeight (DrawImage img (whole img) dst)).
    exact Hout.
Qed.

Lemma framed_canvas_transparent_outside_image_witness :
  let imgFile := {| type := "image/jpeg"; dataURL := "data:image/jpeg;base64,AAAA" |} in
  let img := {| width := 400; height := 300; src := "blob:face" |} in
  let env := {| getContext := true; loadImage := fun _ => None |} in
  let face := {| detection_box := {| box_x := 0; box_y := 0;
                                     box_width := 100; box_height := 100 |} |} in
  let api := {| loadFromUri := true;
                bufferToImage := fun _ => Some img;
                detectAllFaces := fun _ _ => Some [face] |} in
  exists canvas dst,
    snd (centerCropFace api env None imgFile 200 200) = Return (PngDataURL canvas)
    /\ cwidth canvas = 200%Z /\ cheight canvas = 200%Z
    /\ ops canvas = [DrawImage img (whole img) dst]
    /\ (dx dst == 50 /\ dy dst == 50 /\ dw dst == 400 /\ dh dst == 300)
    /\ touches dst 100 100 = true
    /\ touches dst 0 0 = false
    /\ (0 <= 0 < cwidth canvas)%Z /\ (0 <= 0 < cheight canvas)%Z
    /\ (forall (Color : Type) (transparent : Color)
               (deposit : CanvasOp -> Z -> Z -> Color -> Color),
          pixel_at Color transparent deposit canvas 0 0 = transparent
          /\ pixel_at Color transparent deposit canvas 199 49 = transparent
          /\ pixel_at Color transparent deposit canvas 49 199 = transparent).
Proof.
  intros imgFile img env face api.
  eexists. eexists. split; [vm_compute; reflexivity|].
  match goal with
  | |- cwidth ?c = _ /\ _ =>
    destruct (framed_canvas_transparent_outside_image api env None imgFile 200 200 c)
      as (Hw & Hh & img' & dst' & _ & Hops & _ & Hout); [vm_compute; reflexivity|]
  end.
  split; [exact Hw|]. split; [exact Hh|]. split; [reflexivity|].
  pose proof (f_equal (fun l => match l with
                                | [op] => op_dst op
                                | _ => {| dx := 0; dy := 0; dw := 0; dh := 0 |}
                                end) Hops) as T.
  cbn [ops op_dst] in T. subst dst'.
  split; [repeat split; vm_compute; reflexivity|].
  split; [vm_compute; reflexivity|]. split; [vm_compute; reflexivity|].
  split; [cbn; lia|]. split; [cbn; lia|].
  intros Color transparent deposit.
  split; [|split]; apply Hout; vm_compute; reflexivity.
Defined.

End FrameFacts.

(** * Further properties of the cell store *)

(** ** What reaches the image store *)

Lemma In_forget_reader (i : nat) (st : GridState) (e : string * File) :
  In e (readers (forget_reader i st)) -> In e (readers st).
Proof.
  cbn [forget_reader readers]. rewrite <- !list_elem_of_In, elem_of_app.
  intros [H | H].
  - eapply subseteq_take. exact H.
  - eapply subseteq_drop. exact H.
Qed.

Lemma In_reader_lookup (i : nat) (st : GridState) (e : string * File) :
  readers st !! i = Some e -> In e (readers st).
Proof. intros H. rewrite <- list_elem_of_In. eapply list_elem_of_lookup_2. exact H. Qed.

Lemma handle_from_files (P : File -> Prop) (ev : Event) (st : GridState) :
  (forall f, ev = FileChosen (Some f) -> P f) ->
  from_files P st -> from_files P (handle ev st).
Proof.
  intros Hev Hst. pose proof Hst as [Himg Hrd].
  destruct ev; cbn [handle].
  - unfold handleCellActivate, handleCellClick.
    destruct (dragRef st) as [d|]; [destruct (moved d)|]; split; assumption.
  - unfold handleImageUpload.
    destruct file as [f|]; [|exact Hst].
    destruct (selectedCell st) as [sel|]; [|exact Hst].
    destruct (negb (truthy (Some sel))); [exact Hst|].
    destruct (String.prefix "image/" (type f)) eqn:Hty; cbn [negb]; [|exact Hst].
    split; [exact Himg|]. cbn [readers]. intros k g Hin.
    apply in_app_or in Hin. destruct Hin as [Hin | [[= <- <-] | []]].
    + eapply Hrd. exact Hin.
    + split; [apply Hev; reflexivity | exact Hty].
  - destruct (readers st !! i) as [[sel f]|] eqn:Hi; [|exact Hst].
    split.
    + cbn [reader_onload cellImages forget_reader]. intros k url.
      destruct (decide (sel = k)) as [<- | Hne].
      * rewrite lookup_insert_eq. intros [= <-].
        destruct (Hrd sel f (In_reader_lookup _ _ _ Hi)) as [HP Hty].
        exists f. auto.
      * rewrite lookup_insert_ne by exact Hne. apply Himg.
    + intros k g Hin. apply (Hrd k g).
      apply (In_forget_reader i st). exact Hin.
  - unfold startDrag.
    destruct (negb (truthy (cellImages st !! key0))); [exact Hst|].
    split; assumption.
  - destruct (listeners st); [exact Hst|]. unfold onMove.
    destruct (dragRef st); split; assumption.
  - destruct (listeners st); [exact Hst|]. split; assumption.
  - destruct (rafIdRef st); [|exact Hst]. split; assumption.
  - destruct (timeouts st); [exact Hst|]. split; assumption.
Qed.

Lemma run_from_files (P : File -> Prop) (evs : list Event) :
  forall st,
    (forall f, In (FileChosen (Some f)) evs -> P f) ->
    from_files P st -> from_files P (run evs st).
Proof.
  unfold run. induction evs as [|ev evs IH]; intros st HP Hst; cbn [fold_left].
  - exact Hst.
  - apply IH.
    + intros f Hin. apply HP. right. exact Hin.
    + apply handle_from_files; [|exact Hst].
      intros f ->. apply HP. left. reflexivity.
Qed.

(** X1.  Whatever the user does, an image in the store is the data URL
    of a file that was chosen in the file input and whose MIME type
    starts with "image/": nothing else is ever stored. *)
Theorem stored_images_come_from_image_files
    (evs : list Event) (k url : string) :
  cellImages (run evs initialState) !! k = Some url ->
  exists f, In (FileChosen (Some f)) evs
            /\ url = dataURL f
            /\ String.prefix "image/" (type f) = true.
Proof.
  intros H.
  assert (Hinit : from_files (fun f => In (FileChosen (Some f)) evs) initialState).
  { split.
    - intros k' url' H'. cbn in H'. rewrite lookup_empty in H'. discriminate.
    - intros k' f []. }
  destruct (run_from_files _ evs initialState (fun f Hin => Hin) Hinit) as [Himg _].
  exact (Himg k url H).
Qed.

Lemma stored_images_come_from_image_files_witness :
  let png := {| type := "image/png"; dataURL := "data:image/png;base64,AAAA" |} in
  let txt := {| type := "text/plain"; dataURL := "data:text/plain;base64,BBBB" |} in
  let evs := [Click "A"; FileChosen (Some txt); FileChosen (Some png); ReaderLoaded 0%nat] in
  cellImages (run evs initialState) !! "A" = Some (dataURL png)
  /\ exists f, In (FileChosen (Some f)) evs
               /\ dataURL png = dataURL f
               /\ String.prefix "image/" (type f) = true.
Proof.
  intros png txt evs.
  assert (H : cellImages (run evs initialState) !! "A" = Some (dataURL png))
    by reflexivity.
  split; [exact H|].
  exact (stored_images_come_from_image_files evs "A" (dataURL png) H).
Defined.

(** ** Nothing is ever removed *)

Lemma handle_keeps_keys (ev : Event) (st : GridState) (k : string) :
  (is_Some (cellImages st !! k) -> is_Some (cellImages (handle ev st) !! k))
  /\ (is_Some (cellOffsets st !! k) -> is_Some (cellOffsets (handle ev st) !! k)).
Proof.
  destruct ev; cbn [handle].
  - unfold handleCellActivate, handleCellClick.
    destruct (dragRef st) as [d|]; [destruct (moved d)|]; split; auto.
  - unfold handleImageUpload.
    destruct file as [f|]; [|split; auto].
    destruct (selectedCell st) as [sel|]; [|split; auto].
    destruct (negb (truthy (Some sel))); [split; auto|].
    destruct (negb (String.prefix "image/" (type f))); split; auto.
  - destruct (readers st !! i) as [[sel f]|]; [|split; auto].
    cbn [reader_onload forget_reader cellImages cellOffsets]. split; [|auto].
    intros H. rewrite lookup_insert_is_Some.
    destruct (decide (sel = k)); auto.
  - unfold startDrag.
    destruct (negb (truthy (cellImages st !! key0))); split; auto.
  - destruct (listeners st); [split; auto|]. unfold onMove.
    destruct (dragRef st); split; auto.
  - destruct (listeners st); split; auto.
  - destruct (rafIdRef st); [|split; auto].
    cbn [frame_callback cellImages cellOffsets]. split; [auto|].
    destruct (pendingOffsetRef st) as [p|]; [|auto].
    intros H. rewrite lookup_insert_is_Some.
    destruct (decide (property_key (pending_key p) = k)); auto.
  - destruct (timeouts st); split; auto.
Qed.

(** X2.  There is no way to empty a cell: once a key has an image, or an
    offset, it has one after any further sequence of events (the value
    can only be replaced). *)
Theorem filled_cells_stay_filled (evs : list Event) (st : GridState) (k : string) :
  (is_Some (cellImages st !! k) -> is_Some (cellImages (run evs st) !! k))
  /\ (is_Some (cellOffsets st !! k) -> is_Some (cellOffsets (run evs st) !! k)).
Proof.
  unfold run. revert st. induction evs as [|ev evs IH]; intros st; cbn [fold_left].
  - split; auto.
  - destruct (handle_keeps_keys ev st k) as [Hi Ho].
    destruct (IH (handle ev st)) as [Hi' Ho']. split; auto.
Qed.

Lemma filled_cells_stay_filled_witness :
  let png := {| type := "image/png"; dataURL := "data:image/png;base64,AAAA" |} in
  let st := upload "A" png initialState in
  let evs := [Click "B"; FileChosen None; PointerDown "A" 0 0 10 10; PointerUp; TimerFired] in
  is_Some (cellImages st !! "A") /\ is_Some (cellImages (run evs st) !! "A").
Proof.
  intros png st evs.
  assert (H : is_Some (cellImages st !! "A")) by (eexists; reflexivity).
  split; [exact H|].
  exact (proj1 (filled_cells_stay_filled evs st "A") H).
Defined.

(** ** Offsets belong to cells with an image *)

Lemma initialState_drag_keys : drag_keys_have_images initialState.
Proof.
  split; [|split].
  - intros k [off H]. cbn in H. rewrite lookup_empty in H. discriminate.
  - intros d k H. discriminate.
  - intros p k H. discriminate.
Qed.

Lemma truthy_is_Some (v : option string) : truthy v = true -> is_Some v.
Proof. destruct v; [eexists; reflexivity | discriminate]. Qed.

Lemma handle_drag_keys (ev : Event) (st : GridState) :
  drag_keys_have_images st -> drag_keys_have_images (handle ev st).
Proof.
  intros Hst. pose proof Hst as (Ho & Hd & Hp).
  destruct ev; cbn [handle].
  - unfold handleCellActivate, handleCellClick.
    destruct (dragRef st) as [d|] eqn:Ed; [destruct (moved d)|]; try exact Hst.
    + split; [exact Ho|]. split; [|exact Hp].
      intros d' k [= <-] Hk. cbn in Hk. eapply Hd; eauto.
    + split; [exact Ho|]. split; [|exact Hp].
      cbn [dragRef cellImages]. intros d' k [= <-] Hk. eapply Hd; eauto.
    + split; [exact Ho|]. split; [|exact Hp].
      cbn [dragRef cellImages]. intros d' k [=].
  - unfold handleImageUpload.
    destruct file as [f|]; [|exact Hst].
    destruct (selectedCell st) as [sel|]; [|exact Hst].
    destruct (negb (truthy (Some sel))); [exact Hst|].
    destruct (negb (String.prefix "image/" (type f))); [exact Hst|].
    split; [|split]; assumption.
  - destruct (readers st !! i) as [[sel f]|]; [|exact Hst].
    split; [|split];
      cbn [reader_onload forget_reader cellImages cellOffsets dragRef pendingOffsetRef].
    + intros k Hk. destruct (Ho k Hk) as [-> | Hi]; [left; reflexivity|].
      right. rewrite lookup_insert_is_Some. destruct (decide (sel = k)); auto.
    + intros d k E Hk. rewrite lookup_insert_is_Some.
      destruct (decide (sel = k)); [auto|]. right. split; [assumption|]. eapply Hd; eauto.
    + intros p k E Hk. rewrite lookup_insert_is_Some.
      destruct (decide (sel = k)); [auto|]. right. split; [assumption|]. eapply Hp; eauto.
  - unfold startDrag.
    destruct (truthy (cellImages st !! key0)) eqn:Ht; cbn [negb]; [|exact Hst].
    split; [exact Ho|]. split; [|exact Hp].
    cbn [dragRef cellImages]. intros d k [= <-] [= <-].
    apply truthy_is_Some. exact Ht.
  - destruct (listeners st); [exact Hst|]. unfold onMove.
    destruct (dragRef st) as [d|] eqn:Ed; [|exact Hst].
    split; [exact Ho|]. split; cbn [dragRef pendingOffsetRef cellImages].
    + intros d' k [= <-] Hk. cbn in Hk. eapply Hd; eauto.
    + intros p k [= <-] Hk. cbn in Hk. eapply Hd; eauto.
  - destruct (listeners st); [exact Hst|]. split; [|split]; assumption.
  - destruct (rafIdRef st); [|exact Hst].
    split; [|split; assumption].
    cbn [frame_callback cellImages cellOffsets]. intros k.
    destruct (pendingOffsetRef st) as [p|] eqn:Ep; [|apply Ho].
    rewrite lookup_insert_is_Some. intros [E | [_ Hk]]; [|apply Ho; exact Hk].
    destruct (pending_key p) as [k'|] eqn:Ek; cbn in E; subst k.
    + right. eapply Hp; eauto.
    + left. reflexivity.
  - destruct (timeouts st); [exact Hst|].
    split; [exact Ho|]. split; [|exact Hp].
    cbn [timeout_callback dragRef cellImages]. intros d k E Hk.
    destruct (dragRef st); [|discriminate]. injection E as <-. discriminate Hk.
Qed.

(** X3.  In every reachable state a key that has an offset also has an
    image, with one exception: the property name "null", under which
    [onMove] files the offset when the timeout of an earlier [onUp] has
    cleared the drag's key (the witness reaches such a state). *)
Theorem offsets_only_for_cells_with_image (evs : list Event) (k : string) :
  is_Some (cellOffsets (run evs initialState) !! k) ->
  k = "null" \/ is_Some (cellImages (run evs initialState) !! k).
Proof.
  assert (H : forall st, drag_keys_have_images st -> drag_keys_have_images (run evs st)).
  { unfold run. induction evs as [|ev evs IH]; intros st Hst; cbn [fold_left].
    - exact Hst.
    - apply IH. apply handle_drag_keys. exact Hst. }
  destruct (H initialState initialState_drag_keys) as [Ho _]. apply Ho.
Qed.

Lemma offsets_only_for_cells_with_image_witness :
  let png := {| type := "image/png"; dataURL := "data:image/png;base64,AAAA" |} in
  let setup := [Click "A"; FileChosen (Some png); ReaderLoaded 0%nat] in
  let drag := setup ++ [PointerDown "A" 0 0 10 10; PointerMove 1 1; AnimationFrame] in
  let race := setup ++ [PointerDown "A" 0 0 10 10; PointerUp; PointerDown "A" 0 0 10 10;
                        TimerFired; PointerMove 1 1; AnimationFrame] in
  (is_Some (cellOffsets (run drag initialState) !! "A")
   /\ ("A" = "null" \/ is_Some (cellImages (run drag initialState) !! "A")))
  /\ is_Some (cellOffsets (run race initialState) !! "null")
  /\ cellImages (run race initialState) !! "null" = None.
Proof.
  intros png setup drag race.
  assert (H : is_Some (cellOffsets (run drag initialState) !! "A"))
    by (eexists; reflexivity).
  split; [split; [exact H|]|].
  - exact (offsets_only_for_cells_with_image drag "A" H).
  - split; [eexists; reflexivity | reflexivity].
Defined.

(** ** What a cell shows *)

(** X4.  In every state reached by events whose pointer presses land on
    an element with a non-empty bounding box, [getCellStyle] yields a
    style exactly for the keys whose image is truthy; the style carries
    that image and a background position within [0,100] on both axes,
    which is (50, 50) until the cell has been dragged.  (On an element of
    zero width or height the division in [onMove] leaves the numbers,
    and the statement is not made.) *)
Theorem getCellStyle_position_in_range (evs : list Event) (cellKey : string) :
  Forall event_ok evs ->
  let st := run evs initialState in
  (getCellStyle cellKey st = None <-> truthy (cellImages st !! cellKey) = false)
  /\ (forall image off,
        getCellStyle cellKey st = Some (image, off) ->
        cellImages st !! cellKey = Some image
        /\ in_range off
        /\ (cellOffsets st !! cellKey = None -> off = default_offset)).
Proof.
  intros _ st.
  assert (Hok : store_ok st) by (apply run_ok, initialState_ok).
  destruct Hok as [Ho _].
  unfold getCellStyle.
  destruct (cellImages st !! cellKey) as [image|] eqn:Ei; [|split; [tauto | discriminate]].
  destruct (truthy (Some image)) eqn:Ht.
  - split; [split; discriminate|].
    intros image' off [= <- <-]. split; [reflexivity|].
    destruct (cellOffsets st !! cellKey) as [o|] eqn:Eo; cbn [default].
    + split; [exact (Ho cellKey o Eo) | discriminate].
    + split; [|reflexivity]. unfold in_range, default_offset. cbn. lra.
  - split; [tauto | discriminate].
Qed.

Lemma getCellStyle_position_in_range_witness :
  let png := {| type := "image/png"; dataURL := "data:image/png;base64,AAAA" |} in
  let evs := [Click "A"; FileChosen (Some png); ReaderLoaded 0;
              PointerDown "A" 0 0 10 10; PointerMove 50 (-3); AnimationFrame] in
  exists off,
    getCellStyle "A" (run evs initialState) = Some (dataURL png, off)
    /\ in_range off
    /\ getCellStyle "B" (run evs initialState) = None.
Proof.
  intros png evs.
  assert (Hevs : Forall event_ok evs).
  { repeat constructor. }
  destruct (getCellStyle "A" (run evs initialState)) as [[image off]|] eqn:E;
    [|discriminate E].
  assert (Ei : image = dataURL png).
  { vm_compute in E. injection E as Ei _. rewrite <- Ei. reflexivity. }
  subst image. exists off. split; [reflexivity|].
  destruct (getCellStyle_position_in_range evs "A" Hevs) as [_ H].
  destruct (H _ _ E) as (_ & Hr & _). split; [exact Hr|].
  apply (proj1 (getCellStyle_position_in_range evs "B" Hevs)). reflexivity.
Defined.

(** ** Clicks, files and reads *)

(** X5.  A click on a cell admits one file.  A file that is not an
    image is refused and leaves the selection in place, so the next file
    chosen still goes to that cell; an accepted file starts one read and
    clears the selection, so a further file chosen without a new click is
    ignored. *)
Theorem one_accepted_file_per_click
    (st : GridState) (k : string) (bad good : File) (later : option File) :
  truthy (Some k) = true ->
  String.prefix "image/" (type bad) = false ->
  String.prefix "image/" (type good) = true ->
  let clicked := handleCellClick k st in
  let accepted := handleImageUpload (Some good) clicked in
  handleImageUpload (Some bad) clicked = clicked
  /\ selectedCell accepted = None
  /\ readers accepted = readers st ++ [(k, good)]
  /\ cellImages accepted = cellImages st
  /\ handleImageUpload later accepted = accepted.
Proof.
  intros Hk Hbad Hgood clicked accepted.
  subst accepted clicked. unfold handleImageUpload, handleCellClick.
  cbn [selectedCell]. rewrite Hk, Hbad, Hgood. cbn [negb selectedCell readers cellImages].
  repeat split; try reflexivity.
  destruct later; reflexivity.
Qed.

Lemma one_accepted_file_per_click_witness :
  let png := {| type := "image/png"; dataURL := "data:image/png;base64,AAAA" |} in
  let txt := {| type := "text/plain"; dataURL := "data:text/plain;base64,BBBB" |} in
  let accepted := handleImageUpload (Some png) (handleCellClick "A" initialState) in
  readers accepted = [("A", png)]
  /\ handleImageUpload (Some png) accepted = accepted.
Proof.
  intros png txt accepted.
  destruct (one_accepted_file_per_click initialState "A" txt png (Some png)
              eq_refl eq_refl eq_refl) as (_ & _ & Hr & _ & Hl).
  split; [exact Hr | exact Hl].
Defined.

(** X6.  The click that ends a drag does not open the file dialog: after
    a press on a cell with an image and a move, the first activation of
    any cell leaves the selection as it was, and only the second one
    selects.  A press without a move does not swallow the click. *)
Theorem click_after_drag_is_swallowed
    (st : GridState) (k k1 k2 : string) (pageX pageY rectW rectH moveX moveY : Q) :
  truthy (cellImages st !! k) = true ->
  let dragged := run [PointerDown k pageX pageY rectW rectH; PointerMove moveX moveY;
                      PointerUp; TimerFired] st in
  let pressed := run [PointerDown k pageX pageY rectW rectH; PointerUp; TimerFired] st in
  selectedCell (handle (Click k1) dragged) = selectedCell st
  /\ selectedCell (handle (Click k2) (handle (Click k1) dragged)) = Some k2
  /\ selectedCell (handle (Click k1) pressed) = Some k1.
Proof.
  intros Himg dragged pressed. subst dragged pressed.
  unfold run. cbn [fold_left handle]. unfold startDrag. rewrite Himg.
  cbn [negb listeners]. unfold onMove. cbn [dragRef listeners].
  unfold onUp. cbn [timeouts listeners].
  rewrite !Nat.add_succ_r. cbn [handle timeouts].
  unfold timeout_callback. cbn [dragRef].
  unfold handleCellActivate. cbn [dragRef moved selectedCell handleCellClick].
  repeat split; reflexivity.
Qed.

Lemma click_after_drag_is_swallowed_witness :
  let png := {| type := "image/png"; dataURL := "data:image/png;base64,AAAA" |} in
  let st := upload "A" png initialState in
  let dragged := run [PointerDown "A" 0 0 10 10; PointerMove 3 4; PointerUp; TimerFired] st in
  selectedCell (handle (Click "B") dragged) = None
  /\ selectedCell (handle (Click "C") (handle (Click "B") dragged)) = Some "C".
Proof.
  intros png st dragged.
  destruct (click_after_drag_is_swallowed st "A" "B" "C" 0 0 10 10 3 4 eq_refl)
    as (H1 & H2 & _).
  split; [exact H1 | exact H2].
Defined.

(** X7.  Two reads in flight may finish in either order.  For different
    cells the order does not matter; for the same cell the read that
    finishes last decides the image, whichever file was chosen first. *)
Theorem reads_finish_in_any_order
    (st : GridState) (k1 k2 : string) (f1 f2 : File) :
  readers st = [(k1, f1); (k2, f2)] ->
  let in_order := run [ReaderLoaded 0%nat; ReaderLoaded 0%nat] st in
  let reversed := run [ReaderLoaded 1%nat; ReaderLoaded 0%nat] st in
  cellImages in_order = <[k2 := dataURL f2]> (<[k1 := dataURL f1]> (cellImages st))
  /\ cellImages reversed = <[k1 := dataURL f1]> (<[k2 := dataURL f2]> (cellImages st))
  /\ readers in_order = [] /\ readers reversed = []
  /\ (k1 <> k2 -> cellImages in_order = cellImages reversed)
  /\ (k1 = k2 ->
      cellImages in_order !! k1 = Some (dataURL f2)
      /\ cellImages reversed !! k1 = Some (dataURL f1)).
Proof.
  intros Hrd in_order reversed. subst in_order reversed.
  destruct st as [images offsets sel drag pending raf ls ts rd].
  cbn [readers] in Hrd. subst rd. cbn.
  split; [reflexivity|]. split; [reflexivity|].
  split; [reflexivity|]. split; [reflexivity|]. split.
  - intros Hne. apply insert_insert_ne. congruence.
  - intros <-. rewrite !lookup_insert_eq. split; reflexivity.
Qed.

Lemma reads_finish_in_any_order_witness :
  let small := {| type := "image/png"; dataURL := "data:image/png;base64,AAAA" |} in
  let large := {| type := "image/jpeg"; dataURL := "data:image/jpeg;base64,BBBB" |} in
  let st := handleImageUpload (Some small)
              (handleCellClick "A"
                 (handleImageUpload (Some large) (handleCellClick "A" initialState))) in
  readers st = [("A", large); ("A", small)]
  /\ cellImages (run [ReaderLoaded 0%nat; ReaderLoaded 0%nat] st) !! "A"
     = Some (dataURL small)
  /\ cellImages (run [ReaderLoaded 1%nat; ReaderLoaded 0%nat] st) !! "A"
     = Some (dataURL large).
Proof.
  intros small large st.
  assert (Hrd : readers st = [("A", large); ("A", small)]) by reflexivity.
  destruct (reads_finish_in_any_order st "A" "A" large small Hrd)
    as (_ & _ & _ & _ & _ & Hsame).
  split; [exact Hrd|]. exact (Hsame eq_refl).
Defined.

(** ** Moves and frames *)

(** X8.  Moves are coalesced per frame: of several moves before a frame
    only the last one is stored, and a frame that follows without a move
    in between stores nothing new. *)
Theorem moves_coalesce_per_frame
    (st : GridState) (k : string) (pageX pageY rectW rectH ax ay bx by_ : Q) :
  truthy (cellImages st !! k) = true ->
  let down := PointerDown k pageX pageY rectW rectH in
  run [down; PointerMove ax ay; PointerMove bx by_; AnimationFrame] st
  = run [down; PointerMove bx by_; AnimationFrame] st
  /\ run [down; PointerMove bx by_; AnimationFrame; AnimationFrame] st
     = run [down; PointerMove bx by_; AnimationFrame] st.
Proof.
  intros Himg down. subst down.
  unfold run. cbn [fold_left handle]. unfold startDrag. rewrite Himg.
  cbn [negb listeners]. unfold onMove. cbn [dragRef listeners rafIdRef].
  cbn. split; reflexivity.
Qed.

Lemma moves_coalesce_per_frame_witness :
  let png := {| type := "image/png"; dataURL := "data:image/png;base64,AAAA" |} in
  let st := upload "A" png initialState in
  cellOffsets (run [PointerDown "A" 0 0 10 10; PointerMove 9 9; PointerMove 1 2;
                    AnimationFrame] st) !! "A"
  = cellOffsets (run [PointerDown "A" 0 0 10 10; PointerMove 1 2; AnimationFrame] st) !! "A".
Proof.
  intros png st.
  rewrite (proj1 (moves_coalesce_per_frame st "A" 0 0 10 10 9 9 1 2 eq_refl)).
  reflexivity.
Defined.

(** X9.  Releasing the pointer cancels the frame that was waiting: a move
    that is followed by the release before a frame has run never reaches
    the offsets, also not when a frame comes later. *)
Theorem release_discards_waiting_move
    (st : GridState) (k : string) (pageX pageY rectW rectH moveX moveY : Q) :
  truthy (cellImages st !! k) = true ->
  let released := run [PointerDown k pageX pageY rectW rectH; PointerMove moveX moveY;
                       PointerUp] st in
  rafIdRef released = false
  /\ cellOffsets released = cellOffsets st
  /\ handle AnimationFrame released = released.
Proof.
  intros Himg released. subst released.
  unfold run. cbn [fold_left handle]. unfold startDrag. rewrite Himg.
  cbn [negb listeners]. unfold onMove. cbn [dragRef listeners].
  cbn. repeat split; reflexivity.
Qed.

Lemma release_discards_waiting_move_witness :
  let png := {| type := "image/png"; dataURL := "data:image/png;base64,AAAA" |} in
  let st := upload "A" png initialState in
  cellOffsets (run [PointerDown "A" 0 0 10 10; PointerMove 3 4; PointerUp; AnimationFrame] st)
  = cellOffsets st.
Proof.
  intros png st.
  destruct (release_discards_waiting_move st "A" 0 0 10 10 3 4 eq_refl)
    as (_ & Ho & Hf).
  unfold run in *. cbn [fold_left] in *. rewrite Hf. exact Ho.
Defined.

(** * Further properties of the export of template 33 *)

Lemma Grid33_drawKey_throws (env : Browser) (st : GridState) (p : CellPlacement)
    (ctx : Canvas) :
  (exists e, Grid33.drawKey env st (key p) (row p) (col p) (rowSpan p) (colSpan p) ctx
             = Throw e)
  <-> exists src, cellImages st !! key p = Some src
                  /\ truthy (Some src) = true /\ loadImage env src = None.
Proof.
  unfold Grid33.drawKey.
  destruct (cellImages st !! key p) as [s|].
  - destruct (truthy (Some s)) eqn:Ht; cbn [negb].
    + destruct (loadImage env s) as [img|] eqn:El.
      * split; [intros [e H]; discriminate|].
        intros (s' & [= <-] & _ & H). congruence.
      * split; [|intros _; eexists; reflexivity].
        intros _. exists s. auto.
    + split; [intros [e H]; discriminate|].
      intros (s' & [= <-] & H & _). congruence.
  - split; [intros [e H]; discriminate|]. intros (s' & H & _). discriminate.
Qed.

Lemma Grid33_for_each_throws (env : Browser) (st : GridState) (l : list CellPlacement) :
  forall ctx,
    (exists e, for_each (fun p => Grid33.drawKey env st (key p) (row p) (col p)
                                    (rowSpan p) (colSpan p)) l ctx = Throw e)
    <-> exists p src, In p l /\ cellImages st !! key p = Some src
                      /\ truthy (Some src) = true /\ loadImage env src = None.
Proof.
  induction l as [|p l IH]; intros ctx; cbn [for_each].
  - split; [intros [e H]; discriminate | intros (p & src & [] & _)].
  - pose proof (Grid33_drawKey_throws env st p ctx) as Hp.
    destruct (Grid33.drawKey env st (key p) (row p) (col p) (rowSpan p) (colSpan p) ctx)
      as [ctx'|e] eqn:E; cbn.
    + rewrite (IH ctx'). split.
      * intros (q & src & Hin & H). exists q, src. split; [right; exact Hin | exact H].
      * intros (q & src & [<- | Hin] & H).
        -- destruct Hp as [_ Hp]. destruct Hp as [e He]; [exists src; exact H|].
           discriminate He.
        -- exists q, src. split; assumption.
    + split; [|intros _; eexists; reflexivity].
      intros _. destruct Hp as [Hp _]. destruct Hp as (src & H); [eexists; reflexivity|].
      exists p, src. split; [left; reflexivity | exact H].
Qed.

(** X10.  The export of template 33 throws in exactly two situations: the
    canvas gives no 2D context, or the image of some cell of the layout
    fails to load.  One image that fails to load makes the whole export
    fail. *)
Theorem renderGridToCanvas_throws_iff (env : Browser) (st : GridState) :
  (exists e, Grid33.renderGridToCanvas env st = Throw e)
  <-> getContext env = false
      \/ exists p src, In p Grid33.placements
                       /\ cellImages st !! key p = Some src
                       /\ truthy (Some src) = true
                       /\ loadImage env src = None.
Proof.
  unfold Grid33.renderGridToCanvas.
  destruct (getContext env); cbn [negb].
  - rewrite Grid33_for_each_throws. split; [auto|]. intros [H | H]; [discriminate | exact H].
  - split; [auto|]. intros _. eexists. reflexivity.
Qed.

Lemma Grid33_for_each_size (env : Browser) (st : GridState) (l : list CellPlacement) :
  forall ctx cv,
    for_each (fun p => Grid33.drawKey env st (key p) (row p) (col p) (rowSpan p) (colSpan p))
             l ctx = Return cv ->
    cwidth cv = cwidth ctx /\ cheight cv = cheight ctx.
Proof.
  induction l as [|p l IH]; intros ctx cv; cbn [for_each].
  - intros [= <-]. split; reflexivity.
  - destruct (Grid33.drawKey env st (key p) (row p) (col p) (rowSpan p) (colSpan p) ctx)
      as [ctx'|e] eqn:E; [|discriminate].
    intros Hrest. apply IH in Hrest. destruct Hrest as [-> ->].
    unfold Grid33.drawKey in E.
    destruct (cellImages st !! key p) as [s|]; [|injection E as <-; auto].
    destruct (negb (truthy (Some s))); [injection E as <-; auto|].
    destruct (loadImage env s); [|discriminate].
    injection E as <-. split; reflexivity.
Qed.

Lemma In_draws (cols rows : Z) (base gap : Q)
    (image_of : CellPlacement -> option HTMLImageElement)
    (l : list CellPlacement) (op : CanvasOp) :
  In op (draws cols rows base gap image_of l)
  <-> exists p img,
        In p l /\ image_of p = Some img
        /\ op = DrawImage img
                  (cover_src img (inject_Z (cw (placement_rect cols rows base gap p)))
                                 (inject_Z (ch (placement_rect cols rows base gap p))))
                  (rect_of (placement_rect cols rows base gap p)).
Proof.
  unfold draws. rewrite <- list_elem_of_In, list_elem_of_omap. split.
  - intros (p & Hin & H). destruct (image_of p) as [img|] eqn:E; [|discriminate].
    injection H as <-. exists p, img. rewrite <- list_elem_of_In. auto.
  - intros (p & img & Hin & E & ->). exists p. rewrite list_elem_of_In, E. auto.
Qed.

(** X11.  [handleDownload] reports that there is nothing to download
    exactly when no image has been uploaded, and it never offers a partial
    template: a file is downloaded only under the name "template-33.png",
    from a canvas of 800 by 1000 on which every cell of the layout whose
    key has an image has been drawn with that image. *)
Theorem handleDownload_all_or_nothing (env : Browser) (st : GridState) :
  (Grid33.handleDownload env st = Grid33.NothingToDownload <-> cellImages st = ∅)
  /\ (forall download canvas,
        Grid33.handleDownload env st = Grid33.Downloaded download canvas ->
        download = "template-33.png"
        /\ cwidth canvas = 800%Z /\ cheight canvas = 1000%Z
        /\ forall p src,
             In p Grid33.placements ->
             cellImages st !! key p = Some src -> truthy (Some src) = true ->
             exists img,
               loadImage env src = Some img
               /\ In (DrawImage img
                        (cover_src img
                           (inject_Z (cw (placement_rect Grid33.cols Grid33.rows
                                            Grid33.base Grid33.gap p)))
                           (inject_Z (ch (placement_rect Grid33.cols Grid33.rows
                                            Grid33.base Grid33.gap p))))
                        (rect_of (placement_rect Grid33.cols Grid33.rows
                                    Grid33.base Grid33.gap p)))
                     (ops canvas)).
Proof.
  unfold Grid33.handleDownload. split.
  - destruct (Nat.eqb_spec (size (cellImages st)) 0) as [E | E].
    + split; [|reflexivity]. intros _. apply map_size_empty_iff. exact E.
    + split.
      * destruct (Grid33.renderGridToCanvas env st); discriminate.
      * intros H. exfalso. apply E. apply map_size_empty_iff. exact H.
  - intros download canvas.
    destruct (size (cellImages st) =? 0)%nat; [discriminate|].
    destruct (Grid33.renderGridToCanvas env st) as [cv|e] eqn:Hr; [|discriminate].
    intros [= <- <-]. split; [reflexivity|].
    unfold Grid33.renderGridToCanvas in Hr.
    destruct (getContext env); cbn [negb] in Hr; [|discriminate].
    pose proof (Grid33_for_each_size _ _ _ _ _ Hr) as [Hw Hh].
    pose proof (Grid33_for_each_ops _ _ _ _ _ Hr) as Hops.
    split; [rewrite Hw; reflexivity|]. split; [rewrite Hh; reflexivity|].
    intros p src Hin Hsrc Htruthy.
    destruct (loadImage env src) as [img|] eqn:El.
    + exists img. split; [reflexivity|].
      rewrite Hops. apply in_or_app. right.
      apply In_draws. exists p, img. split; [exact Hin|]. split; [|reflexivity].
      unfold Grid33.image_of. rewrite Hsrc, Htruthy. exact El.
    + exfalso.
      assert (Hthrow : exists e,
                 for_each (fun p => Grid33.drawKey env st (key p) (row p) (col p)
                                      (rowSpan p) (colSpan p)) Grid33.placements
                   (issue (FillRect "#ffffff"
                             {| dx := 0; dy := 0; dw := Grid33.width; dh := Grid33.height |})
                      (createCanvas (Qfloor Grid33.width) (Qfloor Grid33.height)))
                 = Throw e).
      { apply Grid33_for_each_throws. exists p, src. auto. }
      destruct Hthrow as [e He]. rewrite He in Hr. discriminate.
Qed.

Lemma handleDownload_all_or_nothing_witness :
  let png := {| type := "image/png"; dataURL := "data:image/png;base64,AAAA" |} in
  let env := {| getContext := true;
                loadImage := fun s => Some {| width := 200; height := 100; src := s |} |} in
  let st := upload (Grid33.cid "right" 3 7) png initialState in
  Grid33.handleDownload env initialState = Grid33.NothingToDownload
  /\ exists canvas,
       Grid33.handleDownload env st = Grid33.Downloaded "template-33.png" canvas
       /\ cwidth canvas = 800%Z /\ cheight canvas = 1000%Z.
Proof.
  intros png env st. split.
  - apply (proj1 (handleDownload_all_or_nothing env initialState)). reflexivity.
  - eexists. split; [vm_compute; reflexivity|].
    match goal with
    | |- cwidth ?c = _ /\ _ =>
      destruct (proj2 (handleDownload_all_or_nothing env st) "template-33.png" c)
        as (_ & Hw & Hh & _); [vm_compute; reflexivity|]
    end.
    split; assumption.
Defined.

(** The crop computed for a destination of positive size lies inside an
    image of positive size and has the destination's aspect ratio. *)
Lemma cover_src_fits (img : HTMLImageElement) (w h : Q) :
  (0 < width img)%Z -> (0 < height img)%Z -> 0 < w -> 0 < h ->
  let s := cover_src img w h in
  sw s / sh s == w / h
  /\ 0 <= sx s /\ 0 <= sy s /\ 0 < sw s /\ 0 < sh s
  /\ sx s + sw s <= inject_Z (width img) /\ sy s + sh s <= inject_Z (height img).
Proof.
  intros Hw Hh Hdw Hdh.
  assert (Hiw : 0 < inject_Z (width img)) by (rewrite <- (Zlt_Qlt 0); exact Hw).
  assert (Hih : 0 < inject_Z (height img)) by (rewrite <- (Zlt_Qlt 0); exact Hh).
  set (iw := inject_Z (width img)) in *. set (ih := inject_Z (height img)) in *.
  assert (HdR : 0 < w / h) by (apply Qlt_shift_div_l; lra).
  assert (HsR : iw / ih * ih == iw) by (field; lra).
  unfold cover_src. fold iw ih.
  set (dRatio := w / h) in *. set (sRatio := iw / ih) in *.
  clearbody dRatio sRatio.
  destruct (Qlt_le_dec dRatio sRatio) as [Hlt | Hle]; cbn [sx sy sw sh].
  - assert (Hsw : ih * dRatio < iw) by nra.
    assert (Hsw0 : 0 < ih * dRatio) by nra.
    assert (Hhalf : (iw - ih * dRatio) / 2 + (iw - ih * dRatio) / 2 == iw - ih * dRatio)
      by field.
    assert (Hx : 0 <= (iw - ih * dRatio) / 2) by (apply Qle_shift_div_l; lra).
    split; [field; lra|]. repeat split; lra.
  - assert (Hsh0 : 0 < iw / dRatio) by (apply Qlt_shift_div_l; lra).
    assert (Hsh : iw / dRatio <= ih) by (apply Qle_shift_div_r; [lra | nra]).
    assert (Hhalf : (ih - iw / dRatio) / 2 + (ih - iw / dRatio) / 2 == ih - iw / dRatio)
      by (field; lra).
    assert (Hy : 0 <= (ih - iw / dRatio) / 2) by (apply Qle_shift_div_l; lra).
    split; [field; split; lra|]. repeat split; lra.
Qed.

Lemma Grid33_rects_in_canvas (p : CellPlacement) :
  In p Grid33.placements ->
  let r := placement_rect Grid33.cols Grid33.rows Grid33.base Grid33.gap p in
  (0 < cw r /\ 0 < ch r /\ 0 <= cx r /\ 0 <= cy r
   /\ cx r + cw r <= 801 /\ cy r + ch r <= 1001)%Z.
Proof.
  intros Hin.
  assert (Hall : forallb (fun p =>
              let r := placement_rect Grid33.cols Grid33.rows Grid33.base Grid33.gap p in
              (0 <? cw r)%Z && (0 <? ch r)%Z && (0 <=? cx r)%Z && (0 <=? cy r)%Z
              && (cx r + cw r <=? 801)%Z && (cy r + ch r <=? 1001)%Z)
            Grid33.placements = true) by (vm_compute; reflexivity).
  rewrite forallb_forall in Hall. specialize (Hall p Hin). cbv zeta in Hall.
  rewrite !andb_true_iff, !Z.ltb_lt, !Z.leb_le in Hall. cbv zeta. tauto.
Qed.

(** X12.  On an exported canvas of template 33 every [drawImage] has a
    destination of positive size that starts inside the 800 by 1000
    canvas and ends at most one pixel past it, and, for an image of
    positive natural size, a source rectangle inside the image with the
    aspect ratio of the destination: no cell is distorted and none reads
    outside its image. *)
Theorem exported_cells_are_cover_crops
    (env : Browser) (st : GridState) (canvas : Canvas)
    (img : HTMLImageElement) (s : SrcRect) (dst : Rect) :
  Grid33.renderGridToCanvas env st = Return canvas ->
  In (DrawImage img s dst) (ops canvas) ->
  (0 < width img)%Z -> (0 < height img)%Z ->
  0 < dw dst /\ 0 < dh dst
  /\ 0 <= dx dst /\ 0 <= dy dst /\ dx dst + dw dst <= 801 /\ dy dst + dh dst <= 1001
  /\ sw s / sh s == dw dst / dh dst
  /\ 0 <= sx s /\ 0 <= sy s /\ 0 < sw s /\ 0 < sh s
  /\ sx s + sw s <= inject_Z (width img) /\ sy s + sh s <= inject_Z (height img).
Proof.
  intros Hr Hin Hw Hh.
  unfold Grid33.renderGridToCanvas in Hr.
  destruct (getContext env); cbn [negb] in Hr; [|discriminate].
  apply Grid33_for_each_ops in Hr. rewrite Hr in Hin. cbn [ops createCanvas issue app] in Hin.
  destruct Hin as [Hfill | Hin]; [discriminate|].
  apply In_draws in Hin. destruct Hin as (p & img' & Hp & _ & [= -> -> ->]).
  pose proof (Grid33_rects_in_canvas p Hp) as Hrect. cbv zeta in Hrect.
  set (r := placement_rect Grid33.cols Grid33.rows Grid33.base Grid33.gap p) in *.
  destruct Hrect as (Hcw & Hch & Hcx & Hcy & Hxe & Hye).
  cbn [rect_of dx dy dw dh].
  assert (Qcw : 0 < inject_Z (cw r)) by (rewrite <- (Zlt_Qlt 0); exact Hcw).
  assert (Qch : 0 < inject_Z (ch r)) by (rewrite <- (Zlt_Qlt 0); exact Hch).
  assert (Qcx : 0 <= inject_Z (cx r)) by (rewrite <- (Zle_Qle 0); exact Hcx).
  assert (Qcy : 0 <= inject_Z (cy r)) by (rewrite <- (Zle_Qle 0); exact Hcy).
  assert (Qxe : inject_Z (cx r) + inject_Z (cw r) <= 801).
  { rewrite <- inject_Z_plus. change 801 with (inject_Z 801). rewrite <- Zle_Qle. exact Hxe. }
  assert (Qye : inject_Z (cy r) + inject_Z (ch r) <= 1001).
  { rewrite <- inject_Z_plus. change 1001 with (inject_Z 1001). rewrite <- Zle_Qle. exact Hye. }
  pose proof (cover_src_fits img' (inject_Z (cw r)) (inject_Z (ch r)) Hw Hh Qcw Qch) as Hfit.
  cbv zeta in Hfit. tauto.
Qed.

Lemma exported_cells_are_cover_crops_witness :
  let png := {| type := "image/png"; dataURL := "data:image/png;base64,AAAA" |} in
  let env := {| getContext := true;
                loadImage := fun s => Some {| width := 200; height := 100; src := s |} |} in
  let st := upload (Grid33.cid "right" 3 7) png initialState in
  let img := {| width := 200; height := 100; src := dataURL png |} in
  let dst := {| dx := 701; dy := 301; dw := 100; dh := 99 |} in
  exists canvas,
    Grid33.renderGridToCanvas env st = Return canvas
    /\ In (DrawImage img (cover_src img 100 99) dst) (ops canvas)
    /\ sw (cover_src img 100 99) / sh (cover_src img 100 99) == 100 / 99
    /\ dx dst + dw dst <= 801.
Proof.
  intros png env st img dst.
  eexists. split; [vm_compute; reflexivity|].
  match goal with
  | |- In ?op (ops ?c) /\ _ =>
    assert (Hin : In op (ops c)) by (cbn; right; left; reflexivity);
    destruct (exported_cells_are_cover_crops env st c img (cover_src img 100 99) dst)
      as (_ & _ & _ & _ & Hxe & _ & Hratio & _);
      [vm_compute; reflexivity | exact Hin | reflexivity | reflexivity |]
  end.
  split; [exact Hin|]. split; [exact Hratio | exact Hxe].
Defined.

(** ** The background *)

Lemma untouched_pixels_keep_colour
    (Color : Type) (deposit : CanvasOp -> Z -> Z -> Color -> Color)
    (l : list CanvasOp) (px py : Z) :
  (forall op, In op l -> touches (op_dst op) px py = false) ->
  forall under, fold_left (paint Color deposit px py) l under = under.
Proof.
  induction l as [|op l IH]; intros Hl under; cbn [fold_left]; [reflexivity|].
  rewrite paint_untouched by (apply Hl; left; reflexivity).
  apply IH. intros op' Hin. apply Hl. right. exact Hin.
Qed.

(** X13.  On an exported canvas of template 33 a pixel that no cell
    rectangle of the layout reaches shows the white background fill and
    nothing else: the gaps between cells and the cells without an image
    stay white. *)
Theorem gaps_show_the_white_fill
    (env : Browser) (st : GridState) (canvas : Canvas)
    (Color : Type) (transparent : Color)
    (deposit : CanvasOp -> Z -> Z -> Color -> Color) (px py : Z) :
  Grid33.renderGridToCanvas env st = Return canvas ->
  (forall p, In p Grid33.placements ->
     cellImages st !! key p <> None ->
     touches (rect_of (placement_rect Grid33.cols Grid33.rows Grid33.base Grid33.gap p))
       px py = false) ->
  pixel_at Color transparent deposit canvas px py
  = paint Color deposit px py transparent
      (FillRect "#ffffff" {| dx := 0; dy := 0; dw := Grid33.width; dh := Grid33.height |}).
Proof.
  intros Hr Hout.
  unfold Grid33.renderGridToCanvas in Hr.
  destruct (getContext env); cbn [negb] in Hr; [|discriminate].
  apply Grid33_for_each_ops in Hr.
  unfold pixel_at, pixels_of. rewrite Hr. cbn [ops createCanvas issue app fold_left].
  apply untouched_pixels_keep_colour.
  intros op Hin. apply In_draws in Hin.
  destruct Hin as (p & img & Hp & Himg & ->). cbn [op_dst].
  apply Hout; [exact Hp|].
  unfold Grid33.image_of in Himg.
  destruct (cellImages st !! key p); [discriminate | discriminate Himg].
Qed.

Lemma gaps_show_the_white_fill_witness :
  let png := {| type := "image/png"; dataURL := "data:image/png;base64,AAAA" |} in
  let env := {| getContext := true;
                loadImage := fun s => Some {| width := 200; height := 100; src := s |} |} in
  let st := upload (Grid33.cid "top" 0 1) png (upload (Grid33.cid "top" 0 0) png initialState) in
  exists canvas,
    Grid33.renderGridToCanvas env st = Return canvas
    /\ forall (Color : Type) (transparent : Color)
              (deposit : CanvasOp -> Z -> Z -> Color -> Color),
         pixel_at Color transparent deposit canvas 100 50
         = paint Color deposit 100 50 transparent
             (FillRect "#ffffff"
                {| dx := 0; dy := 0; dw := Grid33.width; dh := Grid33.height |}).
Proof.
  intros png env st.
  eexists. split; [vm_compute; reflexivity|].
  intros Color transparent deposit.
  apply (gaps_show_the_white_fill env st); [vm_compute; reflexivity|].
  intros p Hin _.
  assert (Hall : forallb (fun p =>
              negb (touches (rect_of (placement_rect Grid33.cols Grid33.rows
                                        Grid33.base Grid33.gap p)) 100 50))
            Grid33.placements = true) by (vm_compute; reflexivity).
  rewrite forallb_forall in Hall. specialize (Hall p Hin).
  apply negb_true_iff in Hall. exact Hall.
Defined.

(** * Further properties of the grid geometry *)

(** X14.  With an integer cell size the distance between a cell and the
    neighbour that starts in the column where it ends depends on the gap
    alone, not on the position or the cell size: it is [-Math.round(-gap)]
    behind a cell that starts inside the grid and
    [Math.round(gap/2) - Math.round(-gap/2)] behind a cell in column 0.
    For a gap of at least zero it is never negative and differs from the
    gap by less than one unit. *)
Theorem neighbour_distance_depends_on_gap_only
    (cols rows B : Z) (gap : Q) (r c rs cs r' rs' cs' : Z) :
  (0 <= c)%Z -> (1 <= cs)%Z -> (c + cs < cols)%Z ->
  let left := drawKey_rect cols rows (inject_Z B) gap r c rs cs in
  let right := drawKey_rect cols rows (inject_Z B) gap r' (c + cs) rs' cs' in
  let distance := (cx right - (cx left + cw left))%Z in
  distance = (if Z.eqb c 0
              then Math_round (gap / 2) - Math_round (- (gap / 2))
              else - Math_round (- gap))%Z
  /\ (0 <= gap -> (0 <= distance)%Z
                  /\ gap - 1 < inject_Z distance /\ inject_Z distance < gap + 1).
Proof.
  intros Hc Hcs Hlt left right distance.
  assert (Hhalf : gap / 2 + gap / 2 == gap) by field.
  assert (E : distance = (if Z.eqb c 0
                          then Math_round (gap / 2) - Math_round (- (gap / 2))
                          else - Math_round (- gap))%Z).
  { subst distance left right. cbn [drawKey_rect cx cw].
    rewrite !origin_integer_base, size_integer_base.
    destruct (rightGap_cases cols gap c cs) as [[E _] | [_ ->]]; [lia|].
    destruct (leftGap_cases gap (c + cs)) as [[E _] | [_ ->]]; [lia|].
    unfold leftGap. destruct (Z.eqb_spec c 0) as [_ | _].
    - rewrite Math_round_0.
      rewrite (Math_round_comp (- (0 + gap / 2)) (- (gap / 2))) by ring. lia.
    - rewrite (Math_round_comp (- (gap / 2 + gap / 2)) (- gap)) by (rewrite Hhalf; reflexivity).
      lia. }
  split; [exact E|]. intros Hg. rewrite E. clear E.
  unfold Math_round.
  pose proof (Qfloor_le (gap / 2 + (1 # 2))) as A1.
  pose proof (Qlt_floor (gap / 2 + (1 # 2))) as A2.
  pose proof (Qfloor_le (- (gap / 2) + (1 # 2))) as B1.
  pose proof (Qlt_floor (- (gap / 2) + (1 # 2))) as B2.
  pose proof (Qfloor_le (- gap + (1 # 2))) as C1.
  pose proof (Qlt_floor (- gap + (1 # 2))) as C2.
  rewrite inject_Z_plus in A2, B2, C2. change (inject_Z 1) with 1 in *.
  destruct (Z.eqb c 0).
  - set (a := Qfloor (gap / 2 + (1 # 2))) in *.
    set (b := Qfloor (- (gap / 2) + (1 # 2))) in *.
    assert (Ha : (0 <= a)%Z).
    { assert (H : (-1 < a)%Z); [|lia]. rewrite Zlt_Qlt.
      change (inject_Z (-1)) with (-1). lra. }
    assert (Hb : (b <= 0)%Z).
    { assert (H : (b < 1)%Z); [|lia]. rewrite Zlt_Qlt.
      change (inject_Z 1) with 1. lra. }
    split; [lia|]. unfold Z.sub. rewrite inject_Z_plus, inject_Z_opp. lra.
  - set (d := Qfloor (- gap + (1 # 2))) in *.
    assert (Hd : (d <= 0)%Z).
    { assert (H : (d < 1)%Z); [|lia]. rewrite Zlt_Qlt.
      change (inject_Z 1) with 1. lra. }
    split; [lia|]. rewrite inject_Z_opp. lra.
Qed.

Lemma neighbour_distance_depends_on_gap_only_witness :
  let left := drawKey_rect 8 12 100 (3 # 2) 0 0 1 1 in
  let mid := drawKey_rect 8 12 100 (3 # 2) 0 1 1 1 in
  let right := drawKey_rect 8 12 100 (3 # 2) 0 2 1 1 in
  (cx mid - (cx left + cw left) = 2)%Z /\ (cx right - (cx mid + cw mid) = 1)%Z.
Proof.
  intros left mid right.
  destruct (neighbour_distance_depends_on_gap_only 8 12 100 (3 # 2) 0 0 1 1 0 1 1
              ltac:(lia) ltac:(lia) ltac:(lia)) as [E0 _].
  destruct (neighbour_distance_depends_on_gap_only 8 12 100 (3 # 2) 0 1 1 1 0 1 1
              ltac:(lia) ltac:(lia) ltac:(lia)) as [E1 _].
  split; [exact E0 | exact E1].
Defined.

(** X15.  With an integer cell size and an even integer gap [2k] nothing
    is lost to rounding: a cell is inset by exactly [k] on each side that
    faces the grid interior and by nothing on a side on the grid
    boundary. *)
Theorem even_gap_insets_are_exact
    (cols rows B k : Z) (gap : Q) (r c rs cs : Z) :
  gap == inject_Z (2 * k) ->
  let inset (on_boundary : bool) := if on_boundary then 0%Z else k in
  drawKey_rect cols rows (inject_Z B) gap r c rs cs
  = {| cx := c * B + inset (Z.eqb c 0);
       cy := r * B + inset (Z.eqb r 0);
       cw := cs * B - inset (Z.eqb c 0) - inset (Z.eqb (c + cs) cols);
       ch := rs * B - inset (Z.eqb r 0) - inset (Z.eqb (r + rs) rows) |}.
Proof.
  intros Hg inset.
  assert (Hk : gap / 2 == inject_Z k).
  { rewrite Hg, inject_Z_mult. change (inject_Z 2) with 2. field. }
  assert (Hl : forall n, Math_round (leftGap gap n) = inset (Z.eqb n 0)).
  { intros n. unfold leftGap, inset. destruct (Z.eqb n 0); [reflexivity|].
    rewrite (Math_round_comp _ _ Hk). apply Math_round_Z. }
  assert (Hs : forall lim n ns,
             Math_round (- (leftGap gap n + rightGap lim gap n ns))
             = (- inset (Z.eqb n 0) - inset (Z.eqb (n + ns) lim))%Z).
  { intros lim n ns. unfold leftGap, rightGap, inset.
    destruct (Z.eqb n 0), (Z.eqb (n + ns) lim).
    - rewrite (Math_round_comp _ (inject_Z 0)) by ring. rewrite Math_round_Z. lia.
    - rewrite (Math_round_comp _ (inject_Z (- k))) by (rewrite inject_Z_opp, Hk; ring).
      rewrite Math_round_Z. lia.
    - rewrite (Math_round_comp _ (inject_Z (- k))) by (rewrite inject_Z_opp, Hk; ring).
      rewrite Math_round_Z. lia.
    - rewrite (Math_round_comp _ (inject_Z (- k - k)))
        by (unfold Z.sub; rewrite inject_Z_plus, !inject_Z_opp, Hk; ring).
      rewrite Math_round_Z. lia. }
  unfold drawKey_rect.
  change (topGap gap) with (leftGap gap).
  change (bottomGap rows gap) with (rightGap rows gap).
  rewrite !origin_integer_base, !size_integer_base, !Hl, !Hs.
  f_equal; lia.
Qed.

Lemma even_gap_insets_are_exact_witness :
  drawKey_rect 3 3 100 4 0 0 1 1 = {| cx := 0; cy := 0; cw := 98; ch := 98 |}
  /\ drawKey_rect 3 3 100 4 1 1 1 1 = {| cx := 102; cy := 102; cw := 96; ch := 96 |}.
Proof.
  split.
  - exact (even_gap_insets_are_exact 3 3 100 2 4 0 0 1 1 ltac:(reflexivity)).
  - exact (even_gap_insets_are_exact 3 3 100 2 4 1 1 1 1 ltac:(reflexivity)).
Defined.

(** X16.  With an integer cell size and an integer gap, the far edge of a
    cell that ends in the last column is the right edge of the canvas when
    the cell starts in column 0 or the gap is even, and one pixel past it
    when the cell starts inside the grid and the gap is odd; the same
    holds for the bottom edge of a cell that ends in the last row. *)
Theorem far_edge_of_boundary_cells
    (cols rows B G : Z) (gap : Q) (r c rs cs : Z) :
  gap == inject_Z G ->
  let d := drawKey_rect cols rows (inject_Z B) gap r c rs cs in
  ((c + cs)%Z = cols ->
   (cx d + cw d = cols * B + (if Z.eqb c 0 then 0 else G mod 2))%Z)
  /\ ((r + rs)%Z = rows ->
      (cy d + ch d = rows * B + (if Z.eqb r 0 then 0 else G mod 2))%Z).
Proof.
  intros HG d. subst d. cbn [drawKey_rect cx cy cw ch]. split; intros Hend.
  - apply far_edge_integer_gap; assumption.
  - change (topGap gap) with (leftGap gap).
    change (bottomGap rows gap) with (rightGap rows gap).
    apply far_edge_integer_gap; assumption.
Qed.

Lemma far_edge_of_boundary_cells_witness :
  let d := drawKey_rect 8 10 100 1 9 7 1 1 in
  (cx d + cw d = 801)%Z /\ (cy d + ch d = 1001)%Z.
Proof.
  intros d.
  destruct (far_edge_of_boundary_cells 8 10 100 1 1 9 7 1 1 ltac:(reflexivity))
    as [Hx Hy].
  split; [exact (Hx eq_refl) | exact (Hy eq_refl)].
Defined.

(** ** Template 75 *)

(** X17.  The export scale of template 75 is the device pixel ratio
    clamped to [2, 4] (a missing or zero ratio counts as 1 and gives 2),
    so the canvas is between 1800 by 2200 and 3600 by 4400 pixels. *)
Theorem Grid75_export_resolution_bounded (devicePixelRatio : Q) :
  2 <= Grid75.scale devicePixelRatio /\ Grid75.scale devicePixelRatio <= 4
  /\ (devicePixelRatio <= 2 -> Grid75.scale devicePixelRatio == 2)
  /\ (2 <= devicePixelRatio -> devicePixelRatio <= 4 ->
      Grid75.scale devicePixelRatio == devicePixelRatio)
  /\ (4 <= devicePixelRatio -> Grid75.scale devicePixelRatio == 4)
  /\ (1800 <= Grid75.canvas_width devicePixelRatio <= 3600)%Z
  /\ (2200 <= Grid75.canvas_height devicePixelRatio <= 4400)%Z.
Proof.
  destruct (Grid75_scale_range devicePixelRatio) as [Hlo Hhi].
  split; [exact Hlo|]. split; [exact Hhi|].
  assert (Hcases : (devicePixelRatio <= 2 -> Grid75.scale devicePixelRatio == 2)
                   /\ (2 <= devicePixelRatio -> devicePixelRatio <= 4 ->
                       Grid75.scale devicePixelRatio == devicePixelRatio)
                   /\ (4 <= devicePixelRatio -> Grid75.scale devicePixelRatio == 4)).
  { unfold Grid75.scale.
    destruct (Qeq_bool devicePixelRatio 0) eqn:E0.
    - apply Qeq_bool_iff in E0. unfold Math_max.
      destruct (Qlt_le_dec 2 1); unfold Math_min;
        match goal with
        | |- context [Qlt_le_dec ?a ?b] => destruct (Qlt_le_dec a b)
        end; (split; [|split]); intros; lra.
    - unfold Math_max.
      destruct (Qlt_le_dec 2 devicePixelRatio); unfold Math_min;
        match goal with
        | |- context [Qlt_le_dec ?a ?b] => destruct (Qlt_le_dec a b)
        end; (split; [|split]); intros; lra. }
  destruct Hcases as (H1 & H2 & H3).
  split; [exact H1|]. split; [exact H2|]. split; [exact H3|].
  unfold Grid75.canvas_width, Grid75.canvas_height, Grid75.width, Grid75.height.
  change (inject_Z Grid75.cols * Grid75.base) with 900.
  change (inject_Z Grid75.rows * Grid75.base) with 1100.
  set (s := Grid75.scale devicePixelRatio) in *.
  split; split.
  - rewrite <- (Math_round_Z 1800). apply Math_round_mono.
    change (inject_Z 1800) with 1800. lra.
  - rewrite <- (Math_round_Z 3600). apply Math_round_mono.
    change (inject_Z 3600) with 3600. lra.
  - rewrite <- (Math_round_Z 2200). apply Math_round_mono.
    change (inject_Z 2200) with 2200. lra.
  - rewrite <- (Math_round_Z 4400). apply Math_round_mono.
    change (inject_Z 4400) with 4400. lra.
Qed.

Lemma Grid75_for_each_ops (env : Browser) (st : GridState) (dpr : Q)
    (l : list CellPlacement) :
  forall ctx cv,
    for_each (fun p => Grid75.drawKey env st dpr (key p) (row p) (col p)
                         (rowSpan p) (colSpan p)) l ctx = Return cv ->
    forall op, In op (ops cv) ->
      In op (ops ctx)
      \/ exists p img,
           In p l
           /\ op = DrawImage img
                     (cover_src img (inject_Z (colSpan p * 100)) (inject_Z (rowSpan p * 100)))
                     (Grid75.scaled (Grid75.scale dpr)
                        {| dx := inject_Z (col p * 100); dy := inject_Z (row p * 100);
                           dw := inject_Z (colSpan p * 100);
                           dh := inject_Z (rowSpan p * 100) |}).
Proof.
  induction l as [|p l IH]; intros ctx cv; cbn [for_each].
  - intros [= <-] op Hin. left. exact Hin.
  - destruct (Grid75.drawKey env st dpr (key p) (row p) (col p) (rowSpan p) (colSpan p) ctx)
      as [ctx'|e] eqn:E; [|discriminate].
    intros Hrest op Hin. cbn in Hrest.
    destruct (IH ctx' cv Hrest op Hin) as [Hctx' | (q & img & Hq & Hop)].
    + unfold Grid75.drawKey in E.
      destruct (cellImages st !! key p) as [s|]; [|injection E as <-; auto].
      destruct (negb (truthy (Some s))); [injection E as <-; auto|].
      destruct (loadImage env s) as [img|]; [|discriminate].
      cbv zeta in E. rewrite Grid75_gap_rounded_away in E. cbn [cw ch rect_of cx cy] in E.
      injection E as <-. cbn [issue ops] in Hctx'.
      apply in_app_or in Hctx'. destruct Hctx' as [H | [<- | []]]; [auto|].
      right. exists p, img. split; [left; reflexivity | reflexivity].
    + right. exists q, img. split; [right; exact Hq | exact Hop].
Qed.

(** X18.  The export of template 75 shows no gap at any device pixel
    ratio: every image is drawn on the full grid footprint of its cell,
    multiplied by the export scale, so neighbouring cells touch although
    the code asks for one device pixel between them. *)
Theorem Grid75_export_has_no_gaps
    (env : Browser) (devicePixelRatio : Q) (st : GridState) (canvas : Canvas)
    (img : HTMLImageElement) (s : SrcRect) (dst : Rect) :
  Grid75.renderGridToCanvas env devicePixelRatio st = Return canvas ->
  In (DrawImage img s dst) (ops canvas) ->
  exists p,
    In p Grid75.placements
    /\ dst = {| dx := Grid75.scale devicePixelRatio * inject_Z (col p * 100);
                dy := Grid75.scale devicePixelRatio * inject_Z (row p * 100);
                dw := Grid75.scale devicePixelRatio * inject_Z (colSpan p * 100);
                dh := Grid75.scale devicePixelRatio * inject_Z (rowSpan p * 100) |}
    /\ s = cover_src img (inject_Z (colSpan p * 100)) (inject_Z (rowSpan p * 100)).
Proof.
  intros Hr Hin.
  unfold Grid75.renderGridToCanvas in Hr.
  destruct (getContext env); cbn [negb] in Hr; [|discriminate].
  destruct (Grid75_for_each_ops _ _ _ _ _ _ Hr _ Hin) as [H | (p & img' & Hp & Hop)].
  - cbn in H. destruct H as [H | []]. discriminate H.
  - injection Hop as -> -> ->. exists p. split; [exact Hp|]. split; reflexivity.
Qed.

Lemma Grid75_export_has_no_gaps_witness :
  let png := {| type := "image/png"; dataURL := "data:image/png;base64,AAAA" |} in
  let env := {| getContext := true;
                loadImage := fun s => Some {| width := 200; height := 100; src := s |} |} in
  let st := upload (Grid75.cid "topA" 0 1) png
              (upload (Grid75.cid "topA" 0 0) png initialState) in
  let img := {| width := 200; height := 100; src := dataURL png |} in
  exists canvas,
    Grid75.renderGridToCanvas env 2 st = Return canvas
    /\ In (DrawImage img (cover_src img 100 100)
             {| dx := 2 * 0; dy := 2 * 100; dw := 2 * 100; dh := 2 * 100 |}) (ops canvas)
    /\ In (DrawImage img (cover_src img 100 100)
             {| dx := 2 * 100; dy := 2 * 100; dw := 2 * 100; dh := 2 * 100 |}) (ops canvas)
    /\ forall s dst, In (DrawImage img s dst) (ops canvas) ->
         exists p, In p Grid75.placements
                   /\ dst = {| dx := Grid75.scale 2 * inject_Z (col p * 100);
                               dy := Grid75.scale 2 * inject_Z (row p * 100);
                               dw := Grid75.scale 2 * inject_Z (colSpan p * 100);
                               dh := Grid75.scale 2 * inject_Z (rowSpan p * 100) |}
                   /\ s = cover_src img (inject_Z (colSpan p * 100))
                            (inject_Z (rowSpan p * 100)).
Proof.
  intros png env st img.
  eexists. split; [vm_compute; reflexivity|].
  split; [cbn; right; left; reflexivity|].
  split; [cbn; right; right; left; reflexivity|].
  intros s dst Hin.
  eapply (Grid75_export_has_no_gaps env 2 st); [vm_compute; reflexivity | exact Hin].
Defined.

(** * Further properties of the cropper *)

Section CropperFacts.
Import FaceCrop FaceCropSpec.

(** X19.  For a face box of positive size in a container of positive
    size, the framed output is the whole image scaled by one positive
    factor on both axes and moved so that the centre of the face box lands
    on the centre of the container; the scaled box fills exactly half of
    the container on one axis and at most half on the other, so it lies
    inside the canvas. *)
Theorem frame_centres_the_face
    (env : Browser) (img : HTMLImageElement) (box : Box)
    (containerWidth containerHeight : Z) (canvas : Canvas) :
  0 < box_width box -> 0 < box_height box ->
  (0 < containerWidth)%Z -> (0 < containerHeight)%Z ->
  frame env img box containerWidth containerHeight = Return canvas ->
  exists scale dst,
    ops canvas = [DrawImage img (whole img) dst]
    /\ 0 < scale
    /\ dw dst == inject_Z (width img) * scale
    /\ dh dst == inject_Z (height img) * scale
    /\ dx dst + (box_x box + box_width box / 2) * scale == inject_Z containerWidth / 2
    /\ dy dst + (box_y box + box_height box / 2) * scale == inject_Z containerHeight / 2
    /\ box_width box * scale <= inject_Z containerWidth / 2
    /\ box_height box * scale <= inject_Z containerHeight / 2
    /\ (box_width box * scale == inject_Z containerWidth / 2
        \/ box_height box * scale == inject_Z containerHeight / 2)
    /\ 0 <= dx dst + box_x box * scale
    /\ dx dst + (box_x box + box_width box) * scale <= inject_Z containerWidth
    /\ 0 <= dy dst + box_y box * scale
    /\ dy dst + (box_y box + box_height box) * scale <= inject_Z containerHeight.
Proof.
  intros Hbw Hbh HW HH. unfold frame.
  destruct (negb (getContext env)); [discriminate|]. intros [= <-].
  assert (QW : 0 < inject_Z containerWidth) by (rewrite <- (Zlt_Qlt 0); exact HW).
  assert (QH : 0 < inject_Z containerHeight) by (rewrite <- (Zlt_Qlt 0); exact HH).
  set (W := inject_Z containerWidth) in *. set (H := inject_Z containerHeight) in *.
  set (bw := box_width box) in *. set (bh := box_height box) in *.
  set (sx_ := W * targetFill / bw). set (sy_ := H * targetFill / bh).
  assert (Ex : bw * sx_ == W / 2) by (unfold sx_, targetFill; field; lra).
  assert (Ey : bh * sy_ == H / 2) by (unfold sy_, targetFill; field; lra).
  assert (HW2 : W / 2 + W / 2 == W) by field.
  assert (HH2 : H / 2 + H / 2 == H) by field.
  assert (Px : 0 < sx_).
  { unfold sx_, targetFill. apply Qlt_shift_div_l; [exact Hbw|]. lra. }
  assert (Py : 0 < sy_).
  { unfold sy_, targetFill. apply Qlt_shift_div_l; [exact Hbh|]. lra. }
  exists (Math_min sx_ sy_). eexists. split; [reflexivity|].
  cbn [dx dy dw dh].
  set (scale := Math_min sx_ sy_).
  assert (Hscale : (scale = sx_ /\ sx_ <= sy_) \/ (scale = sy_ /\ sy_ < sx_)).
  { unfold scale, Math_min. destruct (Qlt_le_dec sy_ sx_); [right | left]; auto. }
  assert (Hbwh : bw / 2 + bw / 2 == bw) by field.
  assert (Hbhh : bh / 2 + bh / 2 == bh) by field.
  clearbody sx_ sy_.
  destruct Hscale as [[-> Hle] | [-> Hlt]].
  - assert (Hy : bh * sx_ <= H / 2) by nra.
    split; [exact Px|]. split; [reflexivity|]. split; [reflexivity|].
    split; [ring|]. split; [ring|].
    split; [lra|]. split; [exact Hy|]. split; [left; exact Ex|].
    repeat split; nra.
  - assert (Hx : bw * sy_ <= W / 2) by nra.
    split; [exact Py|]. split; [reflexivity|]. split; [reflexivity|].
    split; [ring|]. split; [ring|].
    split; [exact Hx|]. split; [lra|]. split; [right; exact Ey|].
    repeat split; nra.
Qed.

Lemma frame_centres_the_face_witness :
  let env := {| getContext := true; loadImage := fun _ => None |} in
  let img := {| width := 400; height := 300; src := "blob:face" |} in
  let box := {| box_x := 150; box_y := 100; box_width := 100; box_height := 50 |} in
  exists canvas scale dst,
    frame env img box 200 200 = Return canvas
    /\ ops canvas = [DrawImage img (whole img) dst]
    /\ dx dst + (box_x box + box_width box / 2) * scale == inject_Z 200 / 2
    /\ box_width box * scale <= inject_Z 200 / 2.
Proof.
  intros env img box.
  destruct (frame env img box 200 200) as [canvas|e] eqn:E; [|discriminate E].
  destruct (frame_centres_the_face env img box 200 200 canvas
              eq_refl eq_refl eq_refl eq_refl E)
    as (scale & dst & Hops & _ & _ & _ & Hcx & _ & Hbw & _).
  exists canvas, scale, dst. split; [reflexivity|]. auto.
Defined.

(** ** When the cropper throws *)

Lemma bestDetection_nonempty (detections : list FaceDetection) :
  detections <> [] -> bestDetection detections <> None.
Proof.
  intros Hne Hnone. unfold bestDetection in Hnone.
  destruct (Array_sort by_area_desc detections) as [|d ds] eqn:E; [|discriminate].
  pose proof (Array_sort_Permutation by_area_desc detections) as Hperm.
  rewrite E in Hperm.
  first [ apply Permutation_nil in Hperm | apply Permutation_sym, Permutation_nil in Hperm ].
  contradiction.
Qed.

(** X20.  [centerCropFace] throws in two situations only, both after the
    models have loaded: the file does not decode to an image, or a canvas
    it needs gives no 2D context.  A detector failure never surfaces as
    an exception, and the read of the first element of the sorted
    detections never fails. *)
Theorem centerCropFace_throws_only_on_decode_or_context
    (api : FaceApi) (env : Browser) (modelsLoadedPromise : option bool)
    (imgFile : File) (containerWidth containerHeight : Z) (e : string) :
  snd (centerCropFace api env modelsLoadedPromise imgFile containerWidth containerHeight)
  = Throw e ->
  snd (ensureModelsLoaded api modelsLoadedPromise) = true
  /\ ((bufferToImage api imgFile = None /\ e = "image decode error")
      \/ (exists img, bufferToImage api imgFile = Some img
                      /\ getContext env = false
                      /\ e = "2D context not available")).
Proof.
  unfold centerCropFace.
  destruct (ensureModelsLoaded api modelsLoadedPromise) as [promise loaded].
  cbn [snd]. destruct loaded; cbn [negb]; [|discriminate].
  intros H. split; [reflexivity|].
  destruct (bufferToImage api imgFile) as [img|]; [|injection H as <-; auto].
  right. exists img. split; [reflexivity|].
  unfold prescale in H.
  destruct (needs_downscale img).
  - destruct (getContext env) eqn:Hctx; cbn [negb] in H.
    + cbn in H.
      destruct (detectAllFaces api _ (2 # 10)) as [detections|]; [|discriminate].
      destruct detections as [|d ds]; [discriminate|]. cbn [length Nat.eqb] in H.
      destruct (bestDetection (d :: ds)) as [best|] eqn:Hbest.
      * unfold frame in H. rewrite Hctx in H. discriminate.
      * exfalso. apply (bestDetection_nonempty (d :: ds)); [discriminate | exact Hbest].
    + injection H as <-. auto.
  - cbn in H.
    destruct (detectAllFaces api _ (2 # 10)) as [detections|]; [|discriminate].
    destruct detections as [|d ds]; [discriminate|]. cbn [length Nat.eqb] in H.
    destruct (bestDetection (d :: ds)) as [best|] eqn:Hbest.
    + unfold frame in H.
      destruct (getContext env); cbn [negb] in H; [discriminate|].
      injection H as <-. auto.
    + exfalso. apply (bestDetection_nonempty (d :: ds)); [discriminate | exact Hbest].
Qed.

Lemma centerCropFace_throws_only_on_decode_or_context_witness :
  let imgFile := {| type := "text/plain"; dataURL := "data:text/plain;base64,AAAA" |} in
  let env := {| getContext := true; loadImage := fun _ => None |} in
  let api := {| loadFromUri := true;
                bufferToImage := fun _ => None;
                detectAllFaces := fun _ _ => None |} in
  snd (centerCropFace api env None imgFile 300 300) = Throw "image decode error"
  /\ bufferToImage api imgFile = None.
Proof.
  intros imgFile env api.
  assert (H : snd (centerCropFace api env None imgFile 300 300)
              = Throw "image decode error") by reflexivity.
  split; [exact H|].
  destruct (centerCropFace_throws_only_on_decode_or_context api env None imgFile
              300 300 _ H) as [_ [[Hd _] | (img & Hd & _)]].
  - exact Hd.
  - discriminate Hd.
Defined.

(** ** One load per session *)

Lemma session_after_first (settled : bool) (calls : list CropCall) :
  fst (session (Some settled) calls) = Some settled
  /\ (settled = false ->
      snd (session (Some settled) calls)
      = map (fun c => Return (ObjectURL (call_file c))) calls).
Proof.
  induction calls as [|c rest IH]; cbn [session map].
  - split; reflexivity.
  - unfold centerCropFace. cbn [ensureModelsLoaded].
    destruct (session (Some settled) rest) as [final results] eqn:E.
    cbn [fst snd] in *. destruct IH as [IH1 IH2]. split; [exact IH1|].
    intros ->. cbn [negb]. rewrite IH2 by reflexivity. reflexivity.
Qed.

(** X21.  The models are loaded by the first call of a session and never
    again: whatever the library would answer later, the promise stays as
    the first load settled it, and after a failed first load every call
    of the session returns the object URL of its own file. *)
Theorem models_load_once_per_session (first : CropCall) (later : list CropCall) :
  fst (session None (first :: later)) = Some (loadFromUri (call_api first))
  /\ (loadFromUri (call_api first) = false ->
      snd (session None (first :: later))
      = map (fun c => Return (ObjectURL (call_file c))) (first :: later)).
Proof.
  cbn [session]. unfold centerCropFace at 1 2. cbn [ensureModelsLoaded].
  pose proof (session_after_first (loadFromUri (call_api first)) later) as [H1 H2].
  destruct (session (Some (loadFromUri (call_api first))) later) as [final results].
  cbn [fst snd] in *. split; [exact H1|].
  intros Hfail. rewrite Hfail in *. cbn [negb map]. rewrite H2 by reflexivity.
  reflexivity.
Qed.

Lemma models_load_once_per_session_witness :
  let env := {| getContext := true; loadImage := fun _ => None |} in
  let img := {| width := 400; height := 300; src := "blob:face" |} in
  let face := {| detection_box := {| box_x := 150; box_y := 100;
                                     box_width := 100; box_height := 50 |} |} in
  let offline := {| loadFromUri := false;
                    bufferToImage := fun _ => Some img;
                    detectAllFaces := fun _ _ => Some [face] |} in
  let online := {| loadFromUri := true;
                   bufferToImage := fun _ => Some img;
                   detectAllFaces := fun _ _ => Some [face] |} in
  let a := {| type := "image/png"; dataURL := "data:image/png;base64,AAAA" |} in
  let b := {| type := "image/png"; dataURL := "data:image/png;base64,BBBB" |} in
  let first := {| call_api := offline; call_env := env; call_file := a;
                  call_width := 200; call_height := 200 |} in
  let second := {| call_api := online; call_env := env; call_file := b;
                   call_width := 200; call_height := 200 |} in
  session None [first; second] = (Some false, [Return (ObjectURL a); Return (ObjectURL b)]).
Proof.
  intros env img face offline online a b first second.
  destruct (models_load_once_per_session first [second]) as [H1 H2].
  specialize (H2 eq_refl).
  destruct (session None [first; second]) as [final results].
  cbn [fst snd] in H1, H2. rewrite H1, H2. reflexivity.
Defined.

(** ** Small images *)

(** X22.  An image with both sides at most 640 is given to the detector
    as it is, without a canvas (so also when no 2D context is available),
    and the detected box is framed unchanged. *)
Theorem small_images_are_detected_as_they_are
    (env : Browser) (img : HTMLImageElement) (box : Box) :
  (width img <= 640)%Z -> (height img <= 640)%Z ->
  prescale env img = Return (OfImage img, 1)
  /\ Box_eq (rescale box 1) box.
Proof.
  intros Hw Hh. split.
  - apply prescale_small. unfold needs_downscale, MAX_SIZE.
    rewrite orb_false_iff, !Z.ltb_ge. split; assumption.
  - unfold Box_eq, rescale. cbn [box_x box_y box_width box_height].
    repeat split; field.
Qed.

Lemma small_images_are_detected_as_they_are_witness :
  let env := {| getContext := false; loadImage := fun _ => None |} in
  let img := {| width := 640; height := 480; src := "blob:face" |} in
  prescale env img = Return (OfImage img, 1).
Proof.
  intros env img.
  exact (proj1 (small_images_are_detected_as_they_are env img
                  {| box_x := 0; box_y := 0; box_width := 1; box_height := 1 |}
                  ltac:(cbn; lia) ltac:(cbn; lia))).
Defined.

(** ** Mapping the box back *)

(** X23.  For a positive scale factor, mapping a box back and scaling it
    again by the factor returns the box; sizes stay positive; and areas
    are all multiplied by the same positive number, so the order of two
    detections by area is the same in the coordinates of the detection
    copy and in those of the original image. *)
Theorem rescale_is_inverse_of_downscale (a b : FaceDetection) (scaleFactor : Q) :
  0 < scaleFactor ->
  let a' := {| detection_box := rescale (detection_box a) scaleFactor |} in
  let b' := {| detection_box := rescale (detection_box b) scaleFactor |} in
  box_x (detection_box a') * scaleFactor == box_x (detection_box a)
  /\ box_y (detection_box a') * scaleFactor == box_y (detection_box a)
  /\ box_width (detection_box a') * scaleFactor == box_width (detection_box a)
  /\ box_height (detection_box a') * scaleFactor == box_height (detection_box a)
  /\ (0 < box_width (detection_box a) -> 0 < box_width (detection_box a'))
  /\ (area a <= area b <-> area a' <= area b').
Proof.
  intros Hsf a' b'. subst a' b'. unfold area, rescale.
  cbn [detection_box box_x box_y box_width box_height].
  assert (Hinv : 0 < 1 / scaleFactor) by (apply Qlt_shift_div_l; lra).
  assert (Einv : 1 / scaleFactor * scaleFactor == 1) by (field; lra).
  set (inv := 1 / scaleFactor) in *. clearbody inv.
  assert (Hback : forall v : Q, v * inv * scaleFactor == v).
  { intros v. rewrite <- Qmult_assoc, Einv. ring. }
  split; [apply Hback|]. split; [apply Hback|]. split; [apply Hback|].
  split; [apply Hback|].
  split; [intros Hpos; apply Qmult_lt_0_compat; assumption|].
  set (wa := box_width (detection_box a)). set (ha := box_height (detection_box a)).
  set (wb := box_width (detection_box b)). set (hb := box_height (detection_box b)).
  assert (Ea : wa * inv * (ha * inv) == wa * ha * (inv * inv)) by ring.
  assert (Eb : wb * inv * (hb * inv) == wb * hb * (inv * inv)) by ring.
  rewrite Ea, Eb.
  assert (Hsq : 0 < inv * inv) by nra.
  rewrite (Qmult_le_r _ _ _ Hsq). reflexivity.
Qed.

Lemma rescale_is_inverse_of_downscale_witness :
  let d := {| detection_box := {| box_x := 100; box_y := 100;
                                  box_width := 50; box_height := 50 |} |} in
  box_x (rescale (detection_box d) (32 # 100)) * (32 # 100) == 100.
Proof.
  intros d.
  exact (proj1 (rescale_is_inverse_of_downscale d d (32 # 100) ltac:(reflexivity))).
Defined.

(** ** Size of the detection copy *)

(** X24.  The detection copy of an image with a side over 640 is never
    larger than the image on either side, and its shorter side is within
    half a pixel of the proportional size.  It degenerates to an empty
    canvas exactly when one side of the image is more than 1280 times the
    other: the shorter side of the copy then rounds to zero. *)
Theorem detection_copy_size
    (img : HTMLImageElement) :
  (0 < width img)%Z -> (0 < height img)%Z -> needs_downscale img = true ->
  let w := width img in
  let h := height img in
  let tw := targetWidth img in
  let th := targetHeight img in
  (0 <= tw <= w)%Z /\ (0 <= th <= h)%Z
  /\ (tw = 0 <-> 1280 * w < h)%Z
  /\ (th = 0 <-> 1280 * h < w)%Z
  /\ ((h <= w)%Z -> (- w <= 2 * (th * w - 640 * h) <= w)%Z)
  /\ ((w < h)%Z -> (- h <= 2 * (tw * h - 640 * w) <= h)%Z).
Proof.
  intros Hw Hh Hneed w h tw th.
  unfold needs_downscale, MAX_SIZE in Hneed. rewrite orb_true_iff, !Z.ltb_lt in Hneed.
  destruct (Z_le_gt_dec h w) as [Hc | Hc].
  - destruct (targets_wide img Hw Hh Hc) as (E1 & E2 & _).
    fold tw in E1. fold th in E2. unfold MAX_SIZE in *. fold w h in E1, E2, Hneed.
    rewrite <- inject_Z_mult in E2. rewrite Math_round_ratio in E2 by exact Hw.
    assert (Etw : tw = 640%Z) by lia.
    rewrite E2, Etw. clear E1 E2 Etw.
    pose proof (Z.div_mod (2 * (640 * h) + w) (2 * w) ltac:(lia)) as Hdiv.
    pose proof (Z.mod_pos_bound (2 * (640 * h) + w) (2 * w) ltac:(lia)) as Hmod.
    set (q := ((2 * (640 * h) + w) / (2 * w))%Z) in *.
    set (m := ((2 * (640 * h) + w) mod (2 * w))%Z) in *.
    assert (Hq0 : (0 <= q)%Z) by nia.
    assert (Hqh : (q <= h)%Z) by nia.
    repeat split; try lia; try nia.
  - destruct (targets_tall img Hw Hh ltac:(lia)) as (E1 & E2 & _).
    fold th in E1. fold tw in E2. unfold MAX_SIZE in *. fold w h in E1, E2, Hneed.
    rewrite <- inject_Z_mult in E2. rewrite Math_round_ratio in E2 by exact Hh.
    assert (Eth : th = 640%Z) by lia.
    rewrite E2, Eth. clear E1 E2 Eth.
    pose proof (Z.div_mod (2 * (640 * w) + h) (2 * h) ltac:(lia)) as Hdiv.
    pose proof (Z.mod_pos_bound (2 * (640 * w) + h) (2 * h) ltac:(lia)) as Hmod.
    set (q := ((2 * (640 * w) + h) / (2 * h))%Z) in *.
    set (m := ((2 * (640 * w) + h) mod (2 * h))%Z) in *.
    assert (Hq0 : (0 <= q)%Z) by nia.
    assert (Hqw : (q <= w)%Z) by nia.
    repeat split; try lia; try nia.
Qed.

Lemma detection_copy_size_witness :
  let wide := {| width := 2000; height := 1000; src := "blob:wide" |} in
  let thin := {| width := 1; height := 2000; src := "blob:thin" |} in
  (targetHeight wide <= height wide)%Z
  /\ targetWidth thin = 0%Z /\ targetHeight thin = 640%Z.
Proof.
  intros wide thin.
  destruct (detection_copy_size wide eq_refl eq_refl eq_refl) as (_ & [_ Hth] & _).
  destruct (detection_copy_size thin eq_refl eq_refl eq_refl) as (_ & _ & [_ Htw] & _).
  split; [exact Hth|]. split; [apply Htw; reflexivity | reflexivity].
Defined.

End CropperFacts.
